(** * Interview orchestration core of the Reviewer application

    A shallow embedding of the session state (core/state/session), the UI
    state (core/state/ui-state), the session cache and its restore
    (infrastructure/storage/session-cache.js, session-restore), the prefetch
    manager (infrastructure/api/agents-api.js), the validators
    (infrastructure/validation/agent-validator.js and input-validator.js,
    [validateApiKey] of features/setup/api-key-manager.js), the interview
    flow (features/interview/interview-flow.js) and the retry loop of the
    API client (infrastructure/api/retry-logic).

    The JavaScript globals [session], [currentQuestion], [isProcessing] and
    the browser's [localStorage] are the fields of one record, [World]; every
    function of the program is a function on worlds.  An [async] function is
    a resumption: it runs to its next [await], hands back the world, and is
    resumed later with the settled value and the world as it is then.
    Notifications and console output are the events a resumption emits.
    [startInterview] waits for the Planner before anything else and has a
    resumption type of its own, [StartOutcome].  The retry loop reads no
    global; it is a function of how its requests end.  Rendering (loading
    overlay, dialog area, progress, screens) touches none of the above and is
    left out, and so is the form cache, which lives in [sessionStorage]. *)

From stdpp Require Import base option list gmap strings fin_maps pretty.
From Stdlib Require Import ZArith QArith_base.

Local Open Scope string_scope.
Local Open Scope nat_scope.
Local Open Scope list_scope.
Local Open Scope stdpp_scope.

(** ** Constants (constants module) *)

Inductive TOPIC_STATUS := NOT_STARTED | PROBING | DONE.

Module AGENT_STATUS.
Definition ASK : string := "ask".
Definition FINAL : string := "final".
End AGENT_STATUS.

Definition CACHE_KEY : string := "interview_session_cache".
Definition CACHE_VERSION : string := "2.0".

#[global] Instance TOPIC_STATUS_eq_dec : EqDecision TOPIC_STATUS.
Proof. solve_decision. Defined.

(** ** Data model (typedefs of core/state/session and ui-state) *)

Record Topic := mkTopic {
  name : string;
  importance : Z;
  required_level : string;
  merged_from : list string
}.

Record QAPair := mkQA {
  question : string;
  answer : string
}.

Record Verdict := mkVerdict {
  verdict_name : string;
  assessed_level : string;
  score : Z;
  confidence : Q;
  strengths : list string;
  gaps : list string
}.

Record TopicState := mkTopicState {
  status : TOPIC_STATUS;
  qaList : list QAPair;
  verdict : option Verdict
}.

(** The TopicAgent's reply [{status, question: {text}|null, verdict|null}]. *)
Record Question := mkQuestion { text : string }.

Record TopicAgentOutput := mkOutput {
  out_status : string;
  out_question : option Question;
  out_verdict : option Verdict
}.

(** [prefetchedData] of [prefetchNextTopicQuestion]:
    [{text, topicIndex, topicAgentOutput}]. *)
Record PrefetchedData := mkPrefetched {
  prefetched_text : string;
  prefetched_topicIndex : nat;
  prefetched_topicAgentOutput : TopicAgentOutput
}.

Record CurrentQuestion := mkCurrentQuestion {
  cq_text : string;
  cq_topicIndex : nat
}.

(** The arguments of one [callTopicAgent] request. *)
Record AgentCall := mkCall {
  call_apiKey : string;
  call_topicName : string;
  call_requiredLevel : string;
  call_maxQuestions : Z;
  call_recentQA : list QAPair;
  call_lastAnswer : option string
}.

(** A background verdict promise: the request it waits for and the variable
    [currentTopicIndex] its [then] handler closes over. *)
Record VerdictPromise := mkVerdictPromise {
  capturedTopicIndex : nat;
  verdictRequest : AgentCall
}.

Record Session := mkSession {
  apiKey : string;
  topics : list Topic;
  topicStates : gmap nat TopicState;
  currentTopicIndex : nat;
  enableFinalSummary : bool;
  maxQuestionsPerTopic : Z;
  prefetchedQuestions : gmap nat PrefetchedData;
  backgroundVerdictPromises : list VerdictPromise
}.

(** What the program writes to the console and shows to the user. *)
Inductive Event :=
| Notification (message kind : string)
| ConsoleError (message : string)
| ConsoleWarn (message : string)
| ConsoleLog (message : string).

(** The mutable globals and the key-value store. [clock] is what
    [Date.now()] reads.

    The session is an object: the routines mutate it in place, and an
    [async] routine keeps referring to it across its [await]s through a
    constant of its own ([const session = getSession()]), also after the
    variable [session] has been assigned another object or [null].
    [session] is the object the variable refers to, as it is now;
    [sessionObject] names that object; [detached] holds the objects the
    variable referred to earlier, as they are now. *)
Record World := mkWorld {
  session : option Session;
  currentQuestion : option CurrentQuestion;
  isProcessing : bool;
  localStorage : gmap string string;
  clock : Z;
  sessionObject : nat;
  detached : gmap nat Session
}.

(** A change of the session object in place: the variable refers to the
    same object as before. *)
Definition with_session (s : option Session) (w : World) : World :=
  {| session := s; currentQuestion := currentQuestion w;
     isProcessing := isProcessing w; localStorage := localStorage w;
     clock := clock w; sessionObject := sessionObject w;
     detached := detached w |}.

(** The assignment [session = value]: from now on the variable refers to
    another object (or to none); the object it referred to stays as it is
    with the routines that hold it. *)
Definition assignSession (value : option Session) (w : World) : World :=
  {| session := value; currentQuestion := currentQuestion w;
     isProcessing := isProcessing w; localStorage := localStorage w;
     clock := clock w; sessionObject := S (sessionObject w);
     detached := match session w with
                 | Some old => <[sessionObject w := old]> (detached w)
                 | None => detached w
                 end |}.

Definition with_detached (objects : gmap nat Session) (w : World) : World :=
  {| session := session w; currentQuestion := currentQuestion w;
     isProcessing := isProcessing w; localStorage := localStorage w;
     clock := clock w; sessionObject := sessionObject w;
     detached := objects |}.

Definition setCurrentQuestion (q : option CurrentQuestion) (w : World) : World :=
  {| session := session w; currentQuestion := q;
     isProcessing := isProcessing w; localStorage := localStorage w;
     clock := clock w; sessionObject := sessionObject w;
     detached := detached w |}.

Definition getCurrentQuestion (w : World) : option CurrentQuestion :=
  currentQuestion w.

Definition isProcessingRequest (w : World) : bool := isProcessing w.

Definition setProcessing (flag : bool) (w : World) : World :=
  {| session := session w; currentQuestion := currentQuestion w;
     isProcessing := flag; localStorage := localStorage w;
     clock := clock w; sessionObject := sessionObject w;
     detached := detached w |}.

Definition with_localStorage (st : gmap string string) (w : World) : World :=
  {| session := session w; currentQuestion := currentQuestion w;
     isProcessing := isProcessing w; localStorage := st;
     clock := clock w; sessionObject := sessionObject w;
     detached := detached w |}.

(** Field updates of the session object. *)
Definition with_apiKey (k : string) (s : Session) : Session :=
  mkSession k (topics s) (topicStates s) (currentTopicIndex s)
    (enableFinalSummary s) (maxQuestionsPerTopic s) (prefetchedQuestions s)
    (backgroundVerdictPromises s).

Definition with_topicStates (ts : gmap nat TopicState) (s : Session) : Session :=
  mkSession (apiKey s) (topics s) ts (currentTopicIndex s)
    (enableFinalSummary s) (maxQuestionsPerTopic s) (prefetchedQuestions s)
    (backgroundVerdictPromises s).

Definition with_currentTopicIndex (i : nat) (s : Session) : Session :=
  mkSession (apiKey s) (topics s) (topicStates s) i
    (enableFinalSummary s) (maxQuestionsPerTopic s) (prefetchedQuestions s)
    (backgroundVerdictPromises s).

Definition with_prefetchedQuestions (p : gmap nat PrefetchedData) (s : Session) : Session :=
  mkSession (apiKey s) (topics s) (topicStates s) (currentTopicIndex s)
    (enableFinalSummary s) (maxQuestionsPerTopic s) p
    (backgroundVerdictPromises s).

Definition with_backgroundVerdictPromises (ps : list VerdictPromise) (s : Session) : Session :=
  mkSession (apiKey s) (topics s) (topicStates s) (currentTopicIndex s)
    (enableFinalSummary s) (maxQuestionsPerTopic s) (prefetchedQuestions s) ps.

(** A constant bound to the session object: the object it names and, for a
    world that has lost track of that object, the object as the routine saw
    it last. *)
Record SessionRef := mkSessionRef {
  ref_object : nat;
  ref_seen : Session
}.

(** [const session = getSession()], [None] for [null]. *)
Definition refer (w : World) : option SessionRef :=
  s ← session w; Some (mkSessionRef (sessionObject w) s).

(** The object behind the constant, as it is in [w]. *)
Definition deref (sessionRef : SessionRef) (w : World) : Session :=
  if decide (sessionObject w = ref_object sessionRef)
  then default (ref_seen sessionRef) (session w)
  else default (ref_seen sessionRef) (detached w !! ref_object sessionRef).

(** The constant at a suspension point: the same object, last seen as it is
    in the world the routine leaves. *)
Definition seen_at (sessionRef : SessionRef) (w : World) : SessionRef :=
  mkSessionRef (ref_object sessionRef) (deref sessionRef w).

(** A change, through the constant, of the object behind it. *)
Definition store (sessionRef : SessionRef) (s : Session) (w : World) : World :=
  if decide (sessionObject w = ref_object sessionRef) then
    match session w with
    | Some _ => with_session (Some s) w
    | None => w
    end
  else
    match detached w !! ref_object sessionRef with
    | Some _ => with_detached (<[ref_object sessionRef := s]> (detached w)) w
    | None => w
    end.

(** ** The session cache document *)

(** [sessionData] and [cacheData] as [saveSessionToCache] builds them. *)
Record SessionData := mkSessionData {
  sd_topics : list Topic;
  sd_topicStates : gmap nat TopicState;
  sd_currentTopicIndex : nat;
  sd_enableFinalSummary : bool;
  sd_maxQuestionsPerTopic : Z;
  sd_prefetchedQuestions : gmap nat PrefetchedData
}.

Record CacheData := mkCacheData {
  version : string;
  timestamp : Z;
  cd_session : SessionData;
  cd_currentQuestion : option CurrentQuestion;
  currentScreen : string
}.

(** What [JSON.parse] can hand back for the cache key: any property may be
    missing or of another type, which is [None] here; so may the history of
    a topic state. *)
Record ParsedTopicState := mkParsedTopicState {
  p_status : TOPIC_STATUS;
  p_qaList : option (list QAPair);
  p_verdict : option Verdict
}.

Record ParsedSession := mkParsedSession {
  p_topics : option (list Topic);
  p_topicStates : option (gmap nat ParsedTopicState);
  p_currentTopicIndex : option nat;
  p_enableFinalSummary : option bool;
  p_maxQuestionsPerTopic : option Z;
  p_prefetchedQuestions : option (gmap nat PrefetchedData)
}.

Record ParsedCache := mkParsedCache {
  p_version : option string;
  p_session : option ParsedSession;
  p_currentQuestion : option CurrentQuestion;
  p_currentScreen : option string
}.

Definition parsed_state (topicState : TopicState) : ParsedTopicState :=
  {| p_status := status topicState;
     p_qaList := Some (qaList topicState);
     p_verdict := verdict topicState |}.

(** The topic state the session holds for a parsed one.  One without a
    history has no counterpart among the topic states, which all have one;
    it is held with an empty history, and what the source does when it
    reads that history is decided on the parsed state. *)
Definition held_state (parsed : ParsedTopicState) : TopicState :=
  {| status := p_status parsed;
     qaList := default [] (p_qaList parsed);
     verdict := p_verdict parsed |}.

(** The document [JSON.parse] returns for the text of a [cacheData]. *)
Definition parsed_of (d : CacheData) : ParsedCache :=
  {| p_version := Some (version d);
     p_session := Some
       {| p_topics := Some (sd_topics (cd_session d));
          p_topicStates := Some (parsed_state <$> sd_topicStates (cd_session d));
          p_currentTopicIndex := Some (sd_currentTopicIndex (cd_session d));
          p_enableFinalSummary := Some (sd_enableFinalSummary (cd_session d));
          p_maxQuestionsPerTopic := Some (sd_maxQuestionsPerTopic (cd_session d));
          p_prefetchedQuestions := Some (sd_prefetchedQuestions (cd_session d)) |};
     p_currentQuestion := cd_currentQuestion d;
     p_currentScreen := Some (currentScreen d) |}.

(** What [loadSessionFromCache] returns: the session it has installed, the
    current question and the screen of the document.
    [restored_topicStates] are the topic states of that session as the
    document has them. *)
Record Restored := mkRestored {
  restored_session : Session;
  restored_currentQuestion : option CurrentQuestion;
  restored_currentScreen : string;
  restored_topicStates : gmap nat ParsedTopicState
}.

(** JavaScript's [x || d] on strings and numbers. *)
Definition or_string (x d : string) : string := if String.eqb x "" then d else x.
Definition or_Z (x d : Z) : Z := if Z.eqb x 0 then d else x.

(** [s.includes(sub)]. *)
Definition includes (sub s : string) : bool :=
  match String.index 0 sub s with Some _ => true | None => false end.

(** The outcome of a call that may [throw]. *)
Inductive Result (A : Type) :=
| Ok (a : A)
| Error (message : string).
Arguments Ok {A} a.
Arguments Error {A} message.

(** [array.forEach((item, index) => ...)] as a state transformer. *)
Fixpoint forEach {A St : Type} (f : A → nat → St → St) (l : list A) (index : nat) (s : St) : St :=
  match l with
  | [] => s
  | item :: rest => forEach f rest (S index) (f item index s)
  end.

(** ** Asynchronous functions as resumptions *)

(** How an awaited promise settles. *)
Inductive Settled (A : Type) :=
| Fulfilled (value : A)
| Rejected (error : string).
Arguments Fulfilled {A} value.
Arguments Rejected {A} error.

(** The FinalSummary agent's reply; the flow only hands it to the renderer. *)
Record FinalSummaryOutput := mkSummary {
  fit_overall_percent : Z;
  fit_label : string;
  per_topic : list (string * string)
}.

Definition AgentReply : Type := Settled (option TopicAgentOutput).

(** What a piece of the program does until it returns, throws or reaches an
    [await].  [Await call w k]: the request [call] has been issued, [w] is
    the world left behind, and [k] is the code after the [await], run on the
    settled value and on the world as it is when the promise settles.
    [Spawn job next]: an [async] call whose promise is not awaited; [job] is
    what is left of it and [next] the caller's own continuation. *)
Inductive Outcome :=
| Return (w : World)
| Throw (error : string) (w : World)
| Emit (e : Event) (next : Outcome)
| Spawn (job : Outcome) (next : Outcome)
| Await (call : AgentCall) (w : World) (k : AgentReply → World → Outcome)
| AwaitAll2 (call1 call2 : AgentCall) (w : World)
    (k : Settled (option TopicAgentOutput * option TopicAgentOutput) → World → Outcome)
| AwaitPromises (promises : list VerdictPromise) (w : World) (k : World → Outcome)
| AwaitSummary (verdicts : list Verdict) (w : World)
    (k : Settled (option FinalSummaryOutput) → World → Outcome).

Definition emit_all (evs : list Event) (next : Outcome) : Outcome :=
  foldr Emit next evs.

(** [try { body } catch (error) { handler }]. *)
Fixpoint try_catch (body : Outcome) (handler : string → World → Outcome) : Outcome :=
  match body with
  | Return w => Return w
  | Throw error w => handler error w
  | Emit e next => Emit e (try_catch next handler)
  | Spawn job next => Spawn job (try_catch next handler)
  | Await call w k => Await call w (λ r w', try_catch (k r w') handler)
  | AwaitAll2 c1 c2 w k => AwaitAll2 c1 c2 w (λ r w', try_catch (k r w') handler)
  | AwaitPromises ps w k => AwaitPromises ps w (λ w', try_catch (k w') handler)
  | AwaitSummary vs w k => AwaitSummary vs w (λ r w', try_catch (k r w') handler)
  end.

(** [try { body } finally { f }]. *)
Fixpoint finally (body : Outcome) (f : World → World) : Outcome :=
  match body with
  | Return w => Return (f w)
  | Throw error w => Throw error (f w)
  | Emit e next => Emit e (finally next f)
  | Spawn job next => Spawn job (finally next f)
  | Await call w k => Await call w (λ r w', finally (k r w') f)
  | AwaitAll2 c1 c2 w k => AwaitAll2 c1 c2 w (λ r w', finally (k r w') f)
  | AwaitPromises ps w k => AwaitPromises ps w (λ w', finally (k w') f)
  | AwaitSummary vs w k => AwaitSummary vs w (λ r w', finally (k r w') f)
  end.

(** [await body; rest]: an awaited [async] call followed by more code. *)
Fixpoint and_then (body : Outcome) (rest : World → Outcome) : Outcome :=
  match body with
  | Return w => rest w
  | Throw error w => Throw error w
  | Emit e next => Emit e (and_then next rest)
  | Spawn job next => Spawn job (and_then next rest)
  | Await call w k => Await call w (λ r w', and_then (k r w') rest)
  | AwaitAll2 c1 c2 w k => AwaitAll2 c1 c2 w (λ r w', and_then (k r w') rest)
  | AwaitPromises ps w k => AwaitPromises ps w (λ w', and_then (k w') rest)
  | AwaitSummary vs w k => AwaitSummary vs w (λ r w', and_then (k r w') rest)
  end.

(** An [async] call that is not awaited: its code up to the first [await]
    runs at once, the rest is left to the event loop, and a rejection
    reaches no one. *)
Fixpoint not_awaited (body : Outcome) (rest : World → Outcome) : Outcome :=
  match body with
  | Return w => rest w
  | Throw _ w => rest w
  | Emit e next => Emit e (not_awaited next rest)
  | Spawn job next => Spawn job (not_awaited next rest)
  | Await _ w _ | AwaitAll2 _ _ w _ | AwaitPromises _ w _ | AwaitSummary _ w _ =>
    Spawn body (rest w)
  end.

(** *** Observing a resumption *)

(** The world it returns with, when it returns before any [await]. *)
Fixpoint returned (o : Outcome) : option World :=
  match o with
  | Return w => Some w
  | Emit _ next | Spawn _ next => returned next
  | _ => None
  end.

(** The error it throws to its caller (for an [async] function: the reason
    its promise rejects with), when it does so before any [await]. *)
Fixpoint thrown (o : Outcome) : option string :=
  match o with
  | Throw error _ => Some error
  | Emit _ next | Spawn _ next => thrown next
  | _ => None
  end.

(** What it writes and shows before its first [await]. *)
Fixpoint events (o : Outcome) : list Event :=
  match o with
  | Emit e next => e :: events next
  | Spawn _ next => events next
  | _ => []
  end.

(** The world it leaves behind at its first [await]. *)
Fixpoint suspended (o : Outcome) : option World :=
  match o with
  | Emit _ next | Spawn _ next => suspended next
  | Await _ w _ | AwaitAll2 _ _ w _ | AwaitPromises _ w _ | AwaitSummary _ w _ => Some w
  | _ => None
  end.

(** Resuming at the first [await] with a settled value, on the world [w']
    the event loop has reached by then. *)
Fixpoint resume (o : Outcome) (r : AgentReply) (w' : World) : option Outcome :=
  match o with
  | Emit _ next | Spawn _ next => resume next r w'
  | Await _ _ k => Some (k r w')
  | _ => None
  end.

Fixpoint resumeAll2 (o : Outcome)
    (r : Settled (option TopicAgentOutput * option TopicAgentOutput))
    (w' : World) : option Outcome :=
  match o with
  | Emit _ next | Spawn _ next => resumeAll2 next r w'
  | AwaitAll2 _ _ _ k => Some (k r w')
  | _ => None
  end.

(** Every stretch of code between two suspension points, started on [w0]
    and stopped on [w], satisfies [P w0 w]; a resumption starts on whatever
    world it is given. *)
Fixpoint segments (P : World → World → Prop) (w0 : World) (o : Outcome) : Prop :=
  match o with
  | Return w | Throw _ w => P w0 w
  | Emit _ next => segments P w0 next
  | Spawn job next => segments P w0 job ∧ segments P w0 next
  | Await _ w k => P w0 w ∧ ∀ r w', segments P w' (k r w')
  | AwaitAll2 _ _ w k => P w0 w ∧ ∀ r w', segments P w' (k r w')
  | AwaitPromises _ w k => P w0 w ∧ ∀ w', segments P w' (k w')
  | AwaitSummary _ w k => P w0 w ∧ ∀ r w', segments P w' (k r w')
  end.

(** [Q] holds of the world left behind at every [await] of the routine
    itself (not of the jobs it starts), as long as it holds of the world the
    routine is resumed on. *)
Fixpoint at_every_await (Q : World → Prop) (o : Outcome) : Prop :=
  match o with
  | Return _ | Throw _ _ => True
  | Emit _ next | Spawn _ next => at_every_await Q next
  | Await _ w k => Q w ∧ ∀ r w', Q w' → at_every_await Q (k r w')
  | AwaitAll2 _ _ w k => Q w ∧ ∀ r w', Q w' → at_every_await Q (k r w')
  | AwaitPromises _ w k => Q w ∧ ∀ w', Q w' → at_every_await Q (k w')
  | AwaitSummary _ w k => Q w ∧ ∀ r w', Q w' → at_every_await Q (k r w')
  end.

(** *** The cursor along a run *)

(** The topic list and the cursor, as far as there is a session. *)
Definition cursor_view (w : World) : option (list Topic * nat) :=
  (λ s, (topics s, currentTopicIndex s)) <$> session w.

(** From one view to a later one: the topic list is the same, the cursor has
    not gone back, and if it moved it is still the position of a topic. *)
Definition cursor_le (v v' : option (list Topic * nat)) : Prop :=
  match v with
  | None => True
  | Some (tps, i) => ∃ i', v' = Some (tps, i') ∧ i ≤ i' ∧ (i' = i ∨ i' < length tps)
  end.

Definition cursor_rel (w w' : World) : Prop :=
  cursor_le (cursor_view w) (cursor_view w').

(** Result of a validator: [{valid: true}] or [{valid: false, error}]. *)
Inductive Validation :=
| Valid
| Invalid (error : string).

Module ErrorType.
Inductive t := NETWORK | API | VALIDATION | UNKNOWN.
End ErrorType.

(** [text.trim()] and [text.length].  A character of a text is one UTF-16
    code unit, as [.length] counts them, and the texts of the model are
    those whose code units are below 256 (the eight bits of an [ascii]).
    Among these code units the white space and line terminators that
    [trim()] strips are the tab, the line feed, the vertical tab, the form
    feed, the carriage return, the space and the no-break space (160).
    Texts with a code unit from 256 on are not represented. *)
Definition is_space (c : Ascii.ascii) : bool :=
  match Ascii.nat_of_ascii c with
  | 9 | 10 | 11 | 12 | 13 | 32 | 160 => true
  | _ => false
  end.

Fixpoint trimStart (s : string) : string :=
  match s with
  | String c rest => if is_space c then trimStart rest else s
  | EmptyString => EmptyString
  end.

Definition trim (s : string) : string :=
  String.rev (trimStart (String.rev (trimStart s))).

(** ** Retry logic (infrastructure/api/retry-logic) *)

Record RetryConfig := mkRetryConfig {
  maxRetries : Z;
  retryDelay : Z;
  retryableStatuses : list Z;
  retryableErrors : list string
}.

Definition DEFAULT_RETRY_CONFIG : RetryConfig :=
  {| maxRetries := 3;
     retryDelay := 1000;
     retryableStatuses := [429; 500; 502; 503; 504]%Z;
     retryableErrors := ["Network request failed"; "fetch"] |}.

(** A [Response], as far as the loop reads it, and an [Error] with what
    [shouldRetry] asks of it. *)
Record Response := mkResponse {
  ok : bool;
  response_status : Z
}.

Record JsError := mkJsError {
  isTypeError : bool;
  error_message : string
}.

(** How one [await fetch(url, options)] ends. *)
Inductive Fetched :=
| Responded (response : Response)
| Failed (error : JsError).

Definition shouldRetry (error : JsError) (statusCode : option Z)
    (retryConfig : RetryConfig) : bool :=
  if isTypeError error || includes "fetch" (error_message error)
     || includes "Network" (error_message error)
  then true
  else if match statusCode with
          | Some code =>
            negb (code =? 0)%Z && bool_decide (code ∈ retryableStatuses retryConfig)
          | None => false
          end
  then true
  else if existsb (λ msg, includes msg (error_message error)) (retryableErrors retryConfig)
  then true
  else false.

(** What [fetchWithRetry] does, in order: its requests, its warnings and
    its waits. *)
Inductive RetryEvent :=
| Request (attempt : nat)
| Warning (message : string)
| Sleep (ms : Z).

(** How [fetchWithRetry] ends: [return response] or [throw error]. *)
Inductive RetryResult :=
| Returned (response : Response)
| Thrown (error : JsError).

Definition backoff (retryConfig : RetryConfig) (attempt : nat) : Z :=
  (retryDelay retryConfig * 2 ^ Z.of_nat attempt)%Z.

(** The [for] loop of [fetchWithRetry] from [attempt] on, with [iterations]
    rounds left, and the two [throw]s after it.  [fetch n] is how the
    request of round [n] ends. *)
Fixpoint fetchWithRetry_from (fetch : nat → Fetched) (retryConfig : RetryConfig)
    (iterations attempt : nat) (lastError : option JsError)
    : list RetryEvent * RetryResult :=
  match iterations with
  | 0 =>
    match lastError with
    | Some error => ([], Thrown error)
    | None => ([], Thrown (mkJsError false "API request failed after retries"))
    end
  | S iterations =>
    match fetch attempt with
    | Responded response =>
      if ok response then ([Request attempt], Returned response)
      else if shouldRetry (mkJsError false ("HTTP " +:+ pretty (response_status response)))
                (Some (response_status response)) retryConfig
              && (Z.of_nat attempt <? maxRetries retryConfig)%Z
      then
        let delay := backoff retryConfig attempt in
        let '(evs, result) :=
          fetchWithRetry_from fetch retryConfig iterations (S attempt) lastError in
        (Request attempt
         :: Warning ("API request failed with status " +:+ pretty (response_status response)
                     +:+ ", retrying in " +:+ pretty delay +:+ "ms... (attempt "
                     +:+ pretty (attempt + 1) +:+ "/" +:+ pretty (maxRetries retryConfig)
                     +:+ ")")
         :: Sleep delay :: evs, result)
      else ([Request attempt], Returned response)
    | Failed error =>
      if shouldRetry error None retryConfig
         && (Z.of_nat attempt <? maxRetries retryConfig)%Z
      then
        let delay := backoff retryConfig attempt in
        let '(evs, result) :=
          fetchWithRetry_from fetch retryConfig iterations (S attempt) (Some error) in
        (Request attempt
         :: Warning ("API request failed: " +:+ error_message error
                     +:+ ", retrying in " +:+ pretty delay +:+ "ms... (attempt "
                     +:+ pretty (attempt + 1) +:+ "/" +:+ pretty (maxRetries retryConfig)
                     +:+ ")")
         :: Sleep delay :: evs, result)
      else ([Request attempt], Thrown error)
    end
  end.

(** [attempt] runs from 0 while [attempt <= retryConfig.maxRetries]. *)
Definition fetchWithRetry (fetch : nat → Fetched) (retryConfig : RetryConfig)
    : list RetryEvent * RetryResult :=
  fetchWithRetry_from fetch retryConfig (Z.to_nat (maxRetries retryConfig + 1)) 0 None.

(** ** The Planner's reply and the start of an interview *)

(** [{topics: [...]}]; [None] when the property is missing or no array. *)
Record PlannerOutput := mkPlan {
  plan_topics : option (list Topic)
}.

(** The arguments of one [callPlanner] request. *)
Record PlannerCall := mkPlannerCall {
  planner_apiKey : string;
  planner_jobDescription : string;
  planner_candidateCV : string
}.

(** [startInterview]: what it does before its first [await], which is the
    Planner request; from there on it is a resumption like the others. *)
Inductive StartOutcome :=
| Started (o : Outcome)
| AwaitPlanner (call : PlannerCall) (w : World)
    (k : Settled (option PlannerOutput) → World → Outcome).

(** The double quote character. *)
Definition dquote : string :=
  String (Ascii.Ascii false true false false false true false false) EmptyString.

Section Program.

(** [JSON.stringify] and [JSON.parse] on the cache document, and the error
    lists of [validateResponse(ROLE_NAMES.TOPIC_AGENT, output)] and
    [validateResponse(ROLE_NAMES.FINAL_SUMMARY, output)], which walk the
    schema table kept in the store. *)
Variable JSON_stringify : CacheData → string.
Variable JSON_parse : string → option ParsedCache.
Variable validateResponse : TopicAgentOutput → list string.
Variable validateSummaryResponse : FinalSummaryOutput → list string.

(** The error list of [validateResponse(ROLE_NAMES.PLANNER, output)]. *)
Variable validatePlanResponse : PlannerOutput → list string.

(** ** Session cache (session-cache.js) *)

(** The object literals [sessionData] and [cacheData] of
    [saveSessionToCache]. *)
Definition sessionData_of (s : Session) : SessionData :=
  {| sd_topics := topics s;
     sd_topicStates := topicStates s;
     sd_currentTopicIndex := currentTopicIndex s;
     sd_enableFinalSummary := enableFinalSummary s;
     sd_maxQuestionsPerTopic := maxQuestionsPerTopic s;
     sd_prefetchedQuestions := prefetchedQuestions s |}.

Definition cacheData_of (currentQuestion : option CurrentQuestion)
    (currentScreen : string) (s : Session) (w : World) : CacheData :=
  {| version := CACHE_VERSION;
     timestamp := clock w;
     cd_session := sessionData_of s;
     cd_currentQuestion := currentQuestion;
     currentScreen := or_string currentScreen "interview" |}.

(** [localStorage.setItem] is taken to succeed; the source logs and goes on
    when it throws. *)
Definition saveSessionToCache (currentQuestion : option CurrentQuestion)
    (currentScreen : string) (w : World) : World :=
  match session w with
  | None => w
  | Some s =>
    let cacheData := cacheData_of currentQuestion currentScreen s w in
    with_localStorage (<[CACHE_KEY := JSON_stringify cacheData]> (localStorage w)) w
  end.

Definition clearSessionCache (w : World) : World :=
  with_localStorage (delete CACHE_KEY (localStorage w)) w.

Definition loadSessionFromCache (w : World) : World * option Restored :=
  match localStorage w !! CACHE_KEY with
  | None => (w, None)
  | Some cachedData =>
    if String.eqb cachedData "" then (w, None) else
    match JSON_parse cachedData with
    | None => (clearSessionCache w, None)
    | Some cacheData =>
      match p_version cacheData, p_session cacheData with
      | Some v, Some sessionData =>
        if String.eqb v "" then (clearSessionCache w, None) else
        match p_topics sessionData, p_topicStates sessionData,
              p_currentTopicIndex sessionData with
        | Some tps, Some tss, Some idx =>
          let apiKey := or_string (default "" (localStorage w !! "openai_api_key")) "" in
          let s :=
            {| apiKey := apiKey;
               topics := tps;
               topicStates := held_state <$> tss;
               currentTopicIndex := idx;
               enableFinalSummary := default false (p_enableFinalSummary sessionData);
               maxQuestionsPerTopic := or_Z (default 0%Z (p_maxQuestionsPerTopic sessionData)) 5;
               prefetchedQuestions := default ∅ (p_prefetchedQuestions sessionData);
               backgroundVerdictPromises := [] |} in
          (assignSession (Some s) w,
           Some {| restored_session := s;
                   restored_currentQuestion := p_currentQuestion cacheData;
                   restored_currentScreen :=
                     or_string (default "" (p_currentScreen cacheData)) "interview";
                   restored_topicStates := tss |})
        | _, _, _ => (clearSessionCache w, None)
        end
      | _, _ => (clearSessionCache w, None)
      end
    end
  end.

(** ** Session state (core/state/session) *)

Definition validateTopic (index : nat) (topic : Topic) : option string :=
  if String.eqb (name topic) "" then
    Some ("Topic at index " +:+ pretty index +:+ " is missing name")
  else if (importance topic <? 1)%Z || (5 <? importance topic)%Z then
    Some ("Topic " +:+ name topic +:+ " has invalid importance: "
          +:+ pretty (importance topic))
  else if negb (bool_decide (required_level topic ∈ ["basic"; "solid"; "deep"])) then
    Some ("Topic " +:+ name topic +:+ " has invalid required_level: "
          +:+ required_level topic)
  else None.

(** The validating [forEach]: the first topic that fails throws. *)
Fixpoint validateTopics (index : nat) (tps : list Topic) : option string :=
  match tps with
  | [] => None
  | topic :: rest =>
    match validateTopic index topic with
    | Some e => Some e
    | None => validateTopics (S index) rest
    end
  end.

Definition initialTopicState : TopicState :=
  {| status := NOT_STARTED; qaList := []; verdict := None |}.

Definition initializeSession (tps : list Topic) (key : string)
    (maxQuestions : Z) (enableSummary : bool) (w : World)
    : World * Result Session :=
  if (length tps =? 0)%nat then (w, Error "Topics array must be non-empty") else
  match validateTopics 0 tps with
  | Some e => (w, Error e)
  | None =>
    let s0 :=
      {| apiKey := key;
         topics := tps;
         topicStates := ∅;
         currentTopicIndex := 0;
         enableFinalSummary := enableSummary || false;
         maxQuestionsPerTopic := or_Z maxQuestions 5;
         prefetchedQuestions := ∅;
         backgroundVerdictPromises := [] |} in
    let s :=
      forEach (λ _ index s, with_topicStates (<[index := initialTopicState]> (topicStates s)) s)
              tps 0 s0 in
    (saveSessionToCache None "interview" (assignSession (Some s) w), Ok s)
  end.

Definition getSession (w : World) : option Session := session w.

Definition getCurrentTopic (w : World) : option Topic :=
  match session w with
  | None => None
  | Some s =>
    if length (topics s) <=? currentTopicIndex s then None
    else topics s !! currentTopicIndex s
  end.

Definition getCurrentTopicState (w : World) : option TopicState :=
  match session w with
  | None => None
  | Some s =>
    if length (topics s) <=? currentTopicIndex s then None
    else topicStates s !! currentTopicIndex s
  end.

(** The topic state is mutated in place: the entry of [topicStates] at the
    cursor is replaced. *)
Definition addQaToCurrentTopic (q a : string) (w : World) : World :=
  match session w with
  | None => w
  | Some s =>
    match getCurrentTopicState w with
    | None => w
    | Some topicState =>
      let topicState' :=
        {| status := PROBING;
           qaList := qaList topicState ++ [{| question := q; answer := a |}];
           verdict := verdict topicState |} in
      saveSessionToCache None "interview"
        (with_session
           (Some (with_topicStates (<[currentTopicIndex s := topicState']> (topicStates s)) s)) w)
    end
  end.

Definition setCurrentTopicVerdict (v : option Verdict) (w : World) : World :=
  match session w with
  | None => w
  | Some s =>
    match getCurrentTopicState w with
    | None => w
    | Some topicState =>
      let topicState' :=
        {| status := DONE; qaList := qaList topicState; verdict := v |} in
      saveSessionToCache None "interview"
        (with_session
           (Some (with_topicStates (<[currentTopicIndex s := topicState']> (topicStates s)) s)) w)
    end
  end.

Definition moveToNextTopic (w : World) : World * bool :=
  match session w with
  | None => (w, false)
  | Some s =>
    if currentTopicIndex s <? length (topics s) - 1 then
      (saveSessionToCache None "interview"
         (with_session (Some (with_currentTopicIndex (currentTopicIndex s + 1) s)) w),
       true)
    else (w, false)
  end.

Definition hasMoreTopics (w : World) : bool :=
  match session w with
  | None => false
  | Some s => currentTopicIndex s <? length (topics s) - 1
  end.

Definition getAllTopicVerdicts (w : World) : list Verdict :=
  match session w with
  | None => []
  | Some s =>
    forEach (λ _ index verdicts,
               match topicStates s !! index with
               | Some {| verdict := Some v |} => verdicts ++ [v]
               | _ => verdicts
               end) (topics s) 0 []
  end.

(** An entry of [getIncompleteTopics]; its [state] is the live object
    [session.topicStates[index]], read through the index here. *)
Record Incomplete := mkIncomplete {
  incomplete_topic : Topic;
  incomplete_index : nat
}.

Definition getIncompleteTopics (w : World) : list Incomplete :=
  match session w with
  | None => []
  | Some s =>
    forEach (λ topic index incomplete,
               match topicStates s !! index with
               | Some state =>
                 if bool_decide (status state = NOT_STARTED)
                    || bool_decide (status state = PROBING)
                 then incomplete ++ [{| incomplete_topic := topic; incomplete_index := index |}]
                 else incomplete
               | None => incomplete
               end) (topics s) 0 []
  end.

Definition shouldContinueCurrentTopic (w : World) : bool :=
  match session w with
  | None => false
  | Some s =>
    match getCurrentTopicState w with
    | None => false
    | Some topicState =>
      (Z.of_nat (length (qaList topicState)) <? maxQuestionsPerTopic s)%Z
      && negb (bool_decide (status topicState = DONE))
    end
  end.

(** ** Prefetch manager (agents-api.js, second part) *)

Definition setPrefetchedQuestion (topicIndex : nat) (questionData : PrefetchedData)
    (w : World) : list Event * World :=
  match session w with
  | None => ([], w)
  | Some s =>
    if length (topics s) <=? topicIndex then
      ([ConsoleWarn ("Invalid topic index for prefetch: " +:+ pretty topicIndex)], w)
    else
      ([], saveSessionToCache None "interview"
             (with_session
                (Some (with_prefetchedQuestions
                         (<[topicIndex := questionData]> (prefetchedQuestions s)) s)) w))
  end.

Definition getPrefetchedQuestion (topicIndex : nat) (w : World) : option PrefetchedData :=
  match session w with
  | None => None
  | Some s =>
    if length (topics s) <=? topicIndex then None
    else prefetchedQuestions s !! topicIndex
  end.

Definition clearPrefetchedQuestion (topicIndex : nat) (w : World) : World :=
  match session w with
  | None => w
  | Some s =>
    match prefetchedQuestions s !! topicIndex with
    | Some _ =>
      saveSessionToCache None "interview"
        (with_session
           (Some (with_prefetchedQuestions (delete topicIndex (prefetchedQuestions s)) s)) w)
    | None => w
    end
  end.

Definition clearAllPrefetchedQuestions (w : World) : World :=
  match session w with
  | None => w
  | Some s =>
    saveSessionToCache None "interview"
      (with_session (Some (with_prefetchedQuestions ∅ s)) w)
  end.

Definition addBackgroundVerdictPromise (promise : VerdictPromise) (w : World) : World :=
  match session w with
  | None => w
  | Some s =>
    with_session
      (Some (with_backgroundVerdictPromises (backgroundVerdictPromises s ++ [promise]) s)) w
  end.

Definition getAllBackgroundVerdictPromises (w : World) : list VerdictPromise :=
  match session w with
  | None => []
  | Some s => backgroundVerdictPromises s
  end.

Definition clearBackgroundVerdictPromises (w : World) : World :=
  match session w with
  | None => w
  | Some s => with_session (Some (with_backgroundVerdictPromises [] s)) w
  end.

(** ** Agent validators (agent-validator.js) *)

(** [output.question && output.question.text], as a truth value. *)
Definition has_question_text (output : TopicAgentOutput) : bool :=
  match out_question output with
  | Some q => negb (String.eqb (text q) "")
  | None => false
  end.

Definition has_verdict (output : TopicAgentOutput) : bool :=
  match out_verdict output with Some _ => true | None => false end.

Definition schema_check (output : TopicAgentOutput) (rest : Validation) : Validation :=
  match validateResponse output with
  | [] => rest
  | errors => Invalid ("TopicAgent validation failed: " +:+ String.concat "; " errors)
  end.

Definition validateTopicAgentAsk (output : option TopicAgentOutput) : Validation :=
  match output with
  | None => Invalid "TopicAgent returned empty response"
  | Some out =>
    schema_check out
      (if negb (String.eqb (out_status out) AGENT_STATUS.ASK) || negb (has_question_text out)
       then Invalid "TopicAgent did not return a question"
       else Valid)
  end.

Definition validateTopicAgentFinal (output : option TopicAgentOutput) : Validation :=
  match output with
  | None => Invalid "TopicAgent returned empty response"
  | Some out =>
    schema_check out
      (if negb (String.eqb (out_status out) AGENT_STATUS.FINAL) || negb (has_verdict out)
       then Invalid "TopicAgent did not provide final verdict"
       else Valid)
  end.

Definition validateTopicAgentResponse (output : option TopicAgentOutput) : Validation :=
  match output with
  | None => Invalid "TopicAgent returned empty response"
  | Some out =>
    schema_check out
      (if String.eqb (out_status out) AGENT_STATUS.ASK then
         if negb (has_question_text out)
         then Invalid "TopicAgent did not return a question" else Valid
       else if String.eqb (out_status out) AGENT_STATUS.FINAL then
         if negb (has_verdict out)
         then Invalid "TopicAgent did not provide final verdict" else Valid
       else Invalid ("Invalid TopicAgent status: " +:+ out_status out))
  end.

(** [validateAnswer] of input-validator.js. *)
Definition validateAnswer (answerText : string) : Validation :=
  if String.eqb answerText "" || String.eqb (trim answerText) "" then
    Invalid "Please enter an answer"
  else if 5000 <? String.length answerText then
    Invalid "Answer is too long (maximum 5,000 characters)"
  else Valid.

(** ** Error handler (error-handler.js) *)

Definition userMessage (error : string) (errorType : ErrorType.t) : string :=
  match errorType with
  | ErrorType.NETWORK =>
    "Network error. Please check your internet connection and try again."
  | ErrorType.API =>
    if negb (String.eqb error "") && includes "401" error then
      "Invalid API key. Please check your API key and try again."
    else if negb (String.eqb error "") && includes "429" error then
      "Rate limit exceeded. Please wait a moment and try again."
    else if negb (String.eqb error "") && includes "500" error then
      "Server error. Please try again later."
    else if negb (String.eqb error "") then "API Error: " +:+ error
    else "API request failed. Please try again."
  | ErrorType.VALIDATION => or_string error "Validation error occurred"
  | ErrorType.UNKNOWN => or_string error "An unexpected error occurred"
  end.

Definition handleError (error context : string) (errorType : ErrorType.t)
    (next : Outcome) : Outcome :=
  Emit (ConsoleError ("Error in " +:+ context +:+ ": " +:+ error))
    (Emit (Notification (userMessage error errorType) "error") next).

(** ** Agents API (agents-api.js, first part) *)

(** The request [callTopicAgent] sends; how it settles is the remote
    service's answer. *)
Definition callTopicAgent (key topicName requiredLevel : string) (maxQuestions : Z)
    (recentQA : list QAPair) (lastAnswer : option string) : AgentCall :=
  {| call_apiKey := key; call_topicName := topicName;
     call_requiredLevel := requiredLevel; call_maxQuestions := maxQuestions;
     call_recentQA := recentQA; call_lastAnswer := lastAnswer |}.

(** [output.question.text]; reading it off a reply without a question is a
    [TypeError]. *)
Definition question_text (output : option TopicAgentOutput) : option string :=
  out ← output; q ← out_question out; Some (text q).

Definition verdict_of (output : option TopicAgentOutput) : option Verdict :=
  out ← output; out_verdict out.

(** The part of [prefetchNextTopicQuestion] after its [await], inside the
    [try]; [nextTopicIndex] and [nextTopic] are the locals computed before. *)
Definition prefetch_resume (nextTopicIndex : nat) (nextTopic : Topic)
    (r : AgentReply) (w : World) : Outcome :=
  try_catch
    match r with
    | Rejected error => Throw error w
    | Fulfilled topicAgentOutput =>
      match validateTopicAgentAsk topicAgentOutput with
      | Valid =>
        match topicAgentOutput, question_text topicAgentOutput with
        | Some out, Some questionText =>
          let prefetchedData :=
            {| prefetched_text := questionText;
               prefetched_topicIndex := nextTopicIndex;
               prefetched_topicAgentOutput := out |} in
          let '(evs, w) := setPrefetchedQuestion nextTopicIndex prefetchedData w in
          emit_all evs
            (Emit (ConsoleLog ("Prefetched question for topic " +:+ pretty nextTopicIndex
                               +:+ ": " +:+ name nextTopic))
               (Return w))
        | _, _ => Throw "TypeError" w
        end
      | Invalid _ => Return w
      end
    end
    (λ error w,
       Emit (ConsoleWarn ("Failed to prefetch question for topic "
                          +:+ pretty nextTopicIndex +:+ ": " +:+ error))
         (Return w)).

Definition prefetchNextTopicQuestion (w : World) : Outcome :=
  match session w with
  | None => Return w
  | Some s =>
    let nextTopicIndex := currentTopicIndex s + 1 in
    if length (topics s) <=? nextTopicIndex then Return w
    else if bool_decide (is_Some (getPrefetchedQuestion nextTopicIndex w)) then Return w
    else
      match topicStates s !! nextTopicIndex with
      | Some {| qaList := _ :: _ |} => Return w
      | _ =>
        match topics s !! nextTopicIndex with
        | None => Return w
        | Some nextTopic =>
          Await (callTopicAgent (apiKey s) (name nextTopic) (required_level nextTopic)
                   (maxQuestionsPerTopic s) [] None)
            w (prefetch_resume nextTopicIndex nextTopic)
        end
      end
  end.

(** ** Interview flow (interview-flow.js) *)

(** [session.topicStates[index].verdict = v; ....status = DONE]; [None] when
    there is no such topic state (a [TypeError] in the source). *)
Definition assign_verdict (index : nat) (v : option Verdict) (w : World) : option World :=
  s ← session w;
  topicState ← topicStates s !! index;
  Some (with_session
          (Some (with_topicStates
                   (<[index := {| status := DONE; qaList := qaList topicState; verdict := v |}]>
                      (topicStates s)) s)) w).

Definition is_final_with_verdict (output : option TopicAgentOutput) : bool :=
  match output with
  | Some out => String.eqb (out_status out) AGENT_STATUS.FINAL && has_verdict out
  | None => false
  end.

Definition is_ask_with_question (output : option TopicAgentOutput) : bool :=
  match output with
  | Some out => String.eqb (out_status out) AGENT_STATUS.ASK && has_question_text out
  | None => false
  end.

(** [qaList[qaList.length - 1]?.answer || null]. *)
Definition last_answer (qas : list QAPair) : option string :=
  match last qas with
  | Some qa => if String.eqb (answer qa) "" then None else Some (answer qa)
  | None => None
  end.

(** [session.topicStates[index].verdict = v; ....status = DONE] through the
    constant [session] of [endInterview]; [None] when the object has no such
    topic state (a [TypeError] in the source).  The constant is handed back
    as it sees the object now. *)
Definition assign_verdict_through (sessionRef : SessionRef) (index : nat)
    (v : option Verdict) (w : World) : option (SessionRef * World) :=
  let s := deref sessionRef w in
  topicState ← topicStates s !! index;
  let s' :=
    with_topicStates
      (<[index := {| status := DONE; qaList := qaList topicState; verdict := v |}]>
         (topicStates s)) s in
  Some (mkSessionRef (ref_object sessionRef) s', store sessionRef s' w).

(** The [for (const incomplete of incompleteTopics)] loop of [endInterview],
    followed by [rest].  [sessionRef] is the constant [session] of
    [endInterview]; [owner] is the session object [getIncompleteTopics] read
    the entries from, whose topic states are the [incomplete.state] of the
    loop (a state is never taken out of its session object). *)
Fixpoint finalizeIncomplete (sessionRef owner : SessionRef)
    (incompleteTopics : list Incomplete)
    (rest : SessionRef → World → Outcome) (w : World) : Outcome :=
  match incompleteTopics with
  | [] => rest sessionRef w
  | incomplete :: more =>
    match topicStates (deref owner w) !! incomplete_index incomplete with
    | None => Throw "TypeError" w
    | Some topicState =>
      if 0 <? length (qaList topicState) then
        let s := deref sessionRef w in
        Await (callTopicAgent (apiKey s) (name (incomplete_topic incomplete))
                 (required_level (incomplete_topic incomplete))
                 (maxQuestionsPerTopic s) (qaList topicState)
                 (last_answer (qaList topicState)))
          w
          (λ r w',
             match r with
             | Rejected error => Throw error w'
             | Fulfilled topicAgentOutput =>
               if is_final_with_verdict topicAgentOutput then
                 match assign_verdict_through (seen_at sessionRef w)
                         (incomplete_index incomplete)
                         (verdict_of topicAgentOutput) w' with
                 | Some (sessionRef', w') =>
                   finalizeIncomplete sessionRef' (seen_at owner w) more rest w'
                 | None => Throw "TypeError" w'
                 end
               else
                 finalizeIncomplete (seen_at sessionRef w) (seen_at owner w) more rest w'
             end)
      else finalizeIncomplete sessionRef owner more rest w
    end
  end.

(** [endInterview] from the collection of the verdicts on; [sessionRef] is
    its constant [session]. *)
Definition endInterview_summary (sessionRef : SessionRef) (w : World) : Outcome :=
  let w := clearBackgroundVerdictPromises w in
  let allVerdicts := getAllTopicVerdicts w in
  let finish := λ w : World, Return (clearSessionCache w) in
  if enableFinalSummary (deref sessionRef w) && (0 <? length allVerdicts) then
    AwaitSummary allVerdicts w
      (λ r w,
         match r with
         | Rejected error =>
           Emit (ConsoleError ("Error calling FinalSummary: " +:+ error)) (finish w)
         | Fulfilled (Some finalSummaryOutput) =>
           match validateSummaryResponse finalSummaryOutput with
           | [] => finish w
           | errors =>
             Emit (ConsoleWarn ("FinalSummary validation failed: "
                                +:+ "FinalSummary validation failed: "
                                +:+ String.concat "; " errors))
               (finish w)
           end
         | Fulfilled None => finish w
         end)
  else finish w.

(** The part of [endInterview] after the wait for the background verdicts:
    [getIncompleteTopics()] reads the session the variable refers to then. *)
Definition endInterview_afterDrain (sessionRef : SessionRef) (w : World) : Outcome :=
  finalizeIncomplete sessionRef (default sessionRef (refer w))
    (getIncompleteTopics w) endInterview_summary w.

(** The promises awaited by [Promise.all(backgroundPromises)] carry their
    own [catch], so the wait does not reject. *)
Definition endInterview (w : World) : Outcome :=
  match refer w with
  | None => Return w
  | Some sessionRef =>
    let w := setProcessing true w in
    finally
      (try_catch
         (let backgroundPromises := getAllBackgroundVerdictPromises w in
          if 0 <? length backgroundPromises
          then AwaitPromises backgroundPromises w
                 (endInterview_afterDrain (seen_at sessionRef w))
          else endInterview_afterDrain sessionRef w)
         (λ error w, handleError error "endInterview" ErrorType.API (Return w)))
      (setProcessing false)
  end.

(** The [then] and [catch] handlers of the background verdict promise;
    [currentTopicIndex] is the index captured before the move. *)
Definition backgroundVerdict_resume (currentTopicIndex : nat)
    (r : AgentReply) (w : World) : Outcome :=
  try_catch
    match r with
    | Rejected error => Throw error w
    | Fulfilled None => Return w
    | Fulfilled (Some out) =>
      match validateTopicAgentFinal (Some out) with
      | Valid =>
        match getSession w with
        | None => Throw "TypeError" w
        | Some s =>
          match assign_verdict currentTopicIndex (out_verdict out) w with
          | Some w => Return (saveSessionToCache None "interview" w)
          | None => Return w
          end
        end
      | Invalid _ => Return w
      end
    end
    (λ error w,
       Emit (ConsoleError ("Error fetching background verdict: " +:+ error)) (Return w)).

(** [moveToNextTopic(); setCurrentQuestion({text, topicIndex:
    session.currentTopicIndex}); saveSessionToCache(getCurrentQuestion(),
    'interview')]; [session] is the constant of [handleAnswerSubmit]. *)
Definition enter_next_topic (sessionRef : SessionRef) (questionText : option string)
    (w : World) : Result World :=
  let w := (moveToNextTopic w).1 in
  match questionText with
  | Some t =>
    let w := setCurrentQuestion
               (Some {| cq_text := t;
                        cq_topicIndex := currentTopicIndex (deref sessionRef w) |}) w in
    Ok (saveSessionToCache (getCurrentQuestion w) "interview" w)
  | None => Error "TypeError"
  end.

(** The end of every branch that opens the next topic: show its question and
    prefetch the one after, without waiting. *)
Definition open_next_topic (sessionRef : SessionRef)
    (nextTopicAgentOutput : option TopicAgentOutput) (w : World) : Outcome :=
  match enter_next_topic sessionRef (question_text nextTopicAgentOutput) w with
  | Ok w => not_awaited (prefetchNextTopicQuestion w) Return
  | Error e => Throw e w
  end.

(** After [await Promise.all([verdictPromise, nextQuestionPromise])]. *)
Definition afterVerdictAndNext (sessionRef : SessionRef)
    (r : Settled (option TopicAgentOutput * option TopicAgentOutput))
    (w : World) : Outcome :=
  match r with
  | Rejected error => Throw error w
  | Fulfilled (topicAgentOutput, nextTopicAgentOutput) =>
    match validateTopicAgentFinal topicAgentOutput with
    | Invalid error => Throw error w
    | Valid =>
      let w := setCurrentTopicVerdict (verdict_of topicAgentOutput) w in
      match validateTopicAgentAsk nextTopicAgentOutput with
      | Invalid error => Throw error w
      | Valid => open_next_topic sessionRef nextTopicAgentOutput w
      end
    end
  end.

(** After the [await] of the last topic's verdict. *)
Definition afterLastVerdict (r : AgentReply) (w : World) : Outcome :=
  match r with
  | Rejected error => Throw error w
  | Fulfilled topicAgentOutput =>
    match validateTopicAgentFinal topicAgentOutput with
    | Invalid error => Throw error w
    | Valid =>
      let w := setCurrentTopicVerdict (verdict_of topicAgentOutput) w in
      and_then (endInterview w) Return
    end
  end.

(** The check on the next topic's opening question after an early verdict,
    and the move. *)
Definition afterNextQuestion (sessionRef : SessionRef)
    (nextTopicAgentOutput : option TopicAgentOutput) (w : World) : Outcome :=
  if negb (is_ask_with_question nextTopicAgentOutput)
  then Throw "TopicAgent did not return a question" w
  else open_next_topic sessionRef nextTopicAgentOutput w.

(** After the [await] of the same topic's next question.  [sessionRef] is
    the constant [session]; the constant [topicState] is the state at
    [topicIndex] of that object. *)
Definition afterContinue (sessionRef : SessionRef) (topicIndex : nat)
    (r : AgentReply) (w : World) : Outcome :=
  match r with
  | Rejected error => Throw error w
  | Fulfilled topicAgentOutput =>
    match validateTopicAgentResponse topicAgentOutput with
    | Invalid error => Throw error w
    | Valid =>
      if is_final_with_verdict topicAgentOutput then
        let w := setCurrentTopicVerdict (verdict_of topicAgentOutput) w in
        if hasMoreTopics w then
          let s := deref sessionRef w in
          let nextTopicIndex := currentTopicIndex s + 1 in
          match getPrefetchedQuestion nextTopicIndex w with
          | Some prefetched =>
            let w := clearPrefetchedQuestion nextTopicIndex w in
            afterNextQuestion sessionRef (Some (prefetched_topicAgentOutput prefetched)) w
          | None =>
            match topics s !! nextTopicIndex, topicStates s !! nextTopicIndex with
            | Some nextTopic, Some nextTopicState =>
              Await (callTopicAgent (apiKey s) (name nextTopic) (required_level nextTopic)
                       (maxQuestionsPerTopic s) (qaList nextTopicState) None)
                w
                (λ r w',
                   match r with
                   | Rejected error => Throw error w'
                   | Fulfilled nextTopicAgentOutput =>
                     afterNextQuestion (seen_at sessionRef w) nextTopicAgentOutput w'
                   end)
            | _, _ => Throw "TypeError" w
            end
          end
        else and_then (endInterview w) Return
      else if is_ask_with_question topicAgentOutput then
        match question_text topicAgentOutput with
        | Some t =>
          let s := deref sessionRef w in
          let w := setCurrentQuestion
                     (Some {| cq_text := t; cq_topicIndex := currentTopicIndex s |}) w in
          let w := saveSessionToCache (getCurrentQuestion w) "interview" w in
          match topicStates s !! topicIndex with
          | Some topicState =>
            if (Z.of_nat (length (qaList topicState)) =? maxQuestionsPerTopic s - 1)%Z
               && hasMoreTopics w
            then not_awaited (prefetchNextTopicQuestion w) Return
            else Return w
          | None => Throw "TypeError" w
          end
        | None => Throw "TypeError" w
        end
      else Throw "TopicAgent returned invalid response" w
    end
  end.

(** The [try] block of [handleAnswerSubmit]; up to its first [await] the
    constant [session] is the object the variable refers to. *)
Definition handleAnswerSubmit_try (answerText : string)
    (currentQuestion : CurrentQuestion) (w : World) : Outcome :=
  match getCurrentTopic w, getCurrentTopicState w, session w with
  | Some currentTopic, Some _, Some s0 =>
    let topicIndex := currentTopicIndex s0 in
    let w := addQaToCurrentTopic (cq_text currentQuestion) answerText w in
    let shouldContinue := shouldContinueCurrentTopic w in
    match session w with
    | None => Throw "TypeError" w
    | Some s =>
      let sessionRef := mkSessionRef (sessionObject w) s in
      match topicStates s !! topicIndex with
      | None => Throw "TypeError" w
      | Some topicState =>
        let verdictCall :=
          callTopicAgent (apiKey s) (name currentTopic) (required_level currentTopic)
            (maxQuestionsPerTopic s) (qaList topicState) (Some answerText) in
        if negb shouldContinue then
          if hasMoreTopics w then
            let nextTopicIndex := currentTopicIndex s + 1 in
            match getPrefetchedQuestion nextTopicIndex w with
            | Some prefetched =>
              let nextTopicAgentOutput := prefetched_topicAgentOutput prefetched in
              if negb (is_ask_with_question (Some nextTopicAgentOutput)) then
                Throw "Prefetched question is invalid" w
              else
                let currentTopicIndex := currentTopicIndex s in
                let w := clearPrefetchedQuestion nextTopicIndex w in
                match enter_next_topic sessionRef
                        (question_text (Some nextTopicAgentOutput)) w with
                | Error e => Throw e w
                | Ok w =>
                  let verdictPromise :=
                    {| capturedTopicIndex := currentTopicIndex;
                       verdictRequest := verdictCall |} in
                  Spawn (Await verdictCall w (backgroundVerdict_resume currentTopicIndex))
                    (let w := addBackgroundVerdictPromise verdictPromise w in
                     not_awaited (prefetchNextTopicQuestion w) Return)
                end
            | None =>
              match topics s !! nextTopicIndex, topicStates s !! nextTopicIndex with
              | Some nextTopic, Some nextTopicState =>
                AwaitAll2 verdictCall
                  (callTopicAgent (apiKey s) (name nextTopic) (required_level nextTopic)
                     (maxQuestionsPerTopic s) (qaList nextTopicState) None)
                  w (afterVerdictAndNext sessionRef)
              | _, _ => Throw "TypeError" w
              end
            end
          else Await verdictCall w afterLastVerdict
        else Await verdictCall w (afterContinue sessionRef topicIndex)
      end
    end
  | _, _, _ => Throw "Current topic not found" w
  end.

(** The [try { ... } catch (error) { handleError(...) } finally {
    setProcessing(false) }] around the body of [handleAnswerSubmit]. *)
Definition guarded (body : Outcome) : Outcome :=
  finally
    (try_catch body
       (λ error w, handleError error "handleAnswerSubmit" ErrorType.API (Return w)))
    (setProcessing false).

(** [answerInput] is the value of the answer field, [None] when the element
    is missing from the page. *)
Definition handleAnswerSubmit (answerInput : option string) (w : World) : Outcome :=
  if isProcessingRequest w then
    Emit (Notification "Please wait, processing your answer..." "info") (Return w)
  else
    match answerInput with
    | None => Return w
    | Some value =>
      let answerText := trim value in
      match validateAnswer answerText with
      | Invalid error => Emit (Notification error "error") (Return w)
      | Valid =>
        match getSession w, getCurrentQuestion w with
        | Some _, Some currentQuestion =>
          let w := setProcessing true w in
          guarded (handleAnswerSubmit_try answerText currentQuestion w)
        | _, _ => Emit (Notification "Session not initialized" "error") (Return w)
        end
      end
    end.

(** ** More of the session cache (session-cache.js, session-restore) *)

(** [hasCachedSession], as the truth value of what it returns. *)
Definition hasCachedSession (w : World) : bool :=
  match localStorage w !! CACHE_KEY with
  | None => false
  | Some cachedData =>
    if String.eqb cachedData "" then false else
    match JSON_parse cachedData with
    | None => false
    | Some cacheData =>
      match p_version cacheData, p_session cacheData with
      | Some v, Some _ => negb (String.eqb v "")
      | _, _ => false
      end
    end
  end.

(** Whether the rendering in [restoreSessionFromCache] throws.  The replay
    of the dialog skips a state without a history and so does not throw;
    [renderTopicStatus] reads the length of the history of every topic that
    has a state.  (The elements of the page are taken to be there.) *)
Definition rendering_throws (tps : list Topic)
    (states : gmap nat ParsedTopicState) : bool :=
  existsb (λ index,
             match states !! index with
             | Some {| p_qaList := None |} => true
             | _ => false
             end) (seq 0 (length tps)).

(** [restoreSessionFromCache]: the replay of the dialog, the progress bar
    and the choice of the screen are rendering; when it throws, the [catch]
    clears the cache and the function returns false, with the session and
    the current question of the document in place. *)
Definition restoreSessionFromCache (w : World) : World * bool :=
  if negb (hasCachedSession w) then (w, false) else
  match loadSessionFromCache w with
  | (w, None) => (w, false)
  | (w, Some cachedData) =>
    let w := setCurrentQuestion (restored_currentQuestion cachedData) w in
    if rendering_throws (topics (restored_session cachedData))
         (restored_topicStates cachedData)
    then (clearSessionCache w, false)
    else (w, true)
  end.

(** The listener of the New interview button:
    [session = null; currentQuestion = null; clearSessionCache()]. *)
Definition newInterview (w : World) : World :=
  clearSessionCache (setCurrentQuestion None (assignSession None w)).

(** ** More of the session state (core/state/session) *)

Definition setSession (newSession : option Session) (w : World) : World :=
  assignSession newSession w.

Record Completed := mkCompleted {
  completed_topic : Topic;
  completed_verdict : Verdict
}.

Definition getCompletedTopics (w : World) : list Completed :=
  match session w with
  | None => []
  | Some s =>
    forEach (λ topic index completed,
               match topicStates s !! index with
               | Some {| status := DONE; verdict := Some v |} =>
                 completed ++ [{| completed_topic := topic; completed_verdict := v |}]
               | _ => completed
               end) (topics s) 0 []
  end.

(** ** More validators (input-validator.js, api-key-manager.js,
    agent-validator.js) *)

Definition validateJobDescription (jobDescription : string) : Validation :=
  if String.eqb jobDescription "" || String.eqb (trim jobDescription) "" then
    Invalid "Job description is required"
  else if String.length (trim jobDescription) <? 50 then
    Invalid "Job description must be at least 50 characters long"
  else if (10000 <? Z.of_nat (String.length jobDescription))%Z then
    Invalid "Job description is too long (maximum 10,000 characters)"
  else Valid.

Definition validateCandidateCV (candidateCV : string) : Validation :=
  if String.eqb candidateCV "" || String.eqb (trim candidateCV) "" then
    Invalid "CV/Resume is required"
  else if String.length (trim candidateCV) <? 50 then
    Invalid "CV/Resume must be at least 50 characters long"
  else if (20000 <? Z.of_nat (String.length candidateCV))%Z then
    Invalid "CV/Resume is too long (maximum 20,000 characters)"
  else Valid.

Definition validateApiKey (key : string) : Validation :=
  if String.eqb key "" || String.eqb (trim key) "" then
    Invalid "API key is required"
  else if negb (String.prefix "sk-" key) then
    Invalid ("Invalid API key format. OpenAI keys start with "
             +:+ dquote +:+ "sk-" +:+ dquote)
  else Valid.

Definition validatePlannerResponse (output : option PlannerOutput) : Validation :=
  match output with
  | None => Invalid "Planner returned empty response"
  | Some out =>
    match validatePlanResponse out with
    | [] =>
      match plan_topics out with
      | Some (_ :: _) => Valid
      | _ => Invalid "Planner did not return valid topics array"
      end
    | errors => Invalid ("Planner validation failed: " +:+ String.concat "; " errors)
    end
  end.

Definition validateFinalSummaryResponse (output : option FinalSummaryOutput) : Validation :=
  match output with
  | None => Invalid "FinalSummary returned empty response"
  | Some out =>
    match validateSummaryResponse out with
    | [] => Valid
    | errors => Invalid ("FinalSummary validation failed: " +:+ String.concat "; " errors)
    end
  end.

(** ** The start of an interview (interview-flow.js) *)

(** What [startInterview] reads from the page and from the configuration:
    the key [getApiKey()] returns, the values of the two text fields (the
    empty text when the element is missing), the check box, and
    [config?.settings?.maxQuestionsPerTopic]. *)
Record StartInputs := mkStartInputs {
  input_apiKey : string;
  input_jobDescription : string;
  input_candidateCV : string;
  input_enableFinalSummary : bool;
  config_maxQuestionsPerTopic : option Z
}.

(** After the [await] of the first question.  [sessionRef] is the constant
    bound to [getSession()] before the request, [None] for [null]: the
    session object [initializeSession] installed. *)
Definition startInterview_afterFirstQuestion (sessionRef : option SessionRef)
    (r : AgentReply) (w : World) : Outcome :=
  match r with
  | Rejected error => Throw error w
  | Fulfilled topicAgentOutput =>
    match validateTopicAgentAsk topicAgentOutput with
    | Invalid error => Throw error w
    | Valid =>
      match question_text topicAgentOutput, sessionRef with
      | Some t, Some sessionRef =>
        let topicIndex := currentTopicIndex (deref sessionRef w) in
        let w := setCurrentQuestion
                   (Some {| cq_text := t; cq_topicIndex := topicIndex |}) w in
        let w := saveSessionToCache (getCurrentQuestion w) "interview" w in
        not_awaited (prefetchNextTopicQuestion w) Return
      | _, _ => Throw "TypeError" w
      end
    end
  end.

(** After the [await] of the Planner, inside the [try]. *)
Definition startInterview_afterPlanner (inputs : StartInputs)
    (r : Settled (option PlannerOutput)) (w : World) : Outcome :=
  match r with
  | Rejected error => Throw error w
  | Fulfilled plannerOutput =>
    match validatePlannerResponse plannerOutput with
    | Invalid error => Throw error w
    | Valid =>
      let maxQuestionsPerTopic :=
        or_Z (default 0%Z (config_maxQuestionsPerTopic inputs)) 5 in
      match initializeSession (default [] (plannerOutput ≫= plan_topics))
              (input_apiKey inputs) maxQuestionsPerTopic
              (input_enableFinalSummary inputs) w with
      | (w, Error error) => Throw error w
      | (w, Ok _) =>
        match getCurrentTopic w with
        | None => Throw "No topics found in plan" w
        | Some firstTopic =>
          match getCurrentTopicState w with
          | None => Throw "TypeError" w
          | Some topicState =>
            Await (callTopicAgent (input_apiKey inputs) (name firstTopic)
                     (required_level firstTopic) maxQuestionsPerTopic
                     (qaList topicState) None)
              w (startInterview_afterFirstQuestion (refer w))
          end
        end
      end
    end
  end.

(** The [try { ... } catch (error) { ... } finally { setProcessing(false) }]
    of [startInterview]. *)
Definition start_guarded (body : Outcome) : Outcome :=
  finally
    (try_catch body
       (λ error w,
          Emit (ConsoleError ("Error starting interview: " +:+ error))
            (Emit (Notification ("Error: " +:+ error) "error") (Return w))))
    (setProcessing false).

(** [clearFormData()] empties the form cache, which is kept in
    [sessionStorage] and read by the setup form only. *)
Definition startInterview (inputs : StartInputs) (w : World) : StartOutcome :=
  if isProcessingRequest w then
    Started (Emit (Notification "Please wait, processing..." "info") (Return w))
  else
    let w := clearSessionCache w in
    let apiKey := input_apiKey inputs in
    let jobDescription := trim (input_jobDescription inputs) in
    let candidateCV := trim (input_candidateCV inputs) in
    if String.eqb apiKey "" then
      Started (Emit (Notification "API key is required" "error") (Return w))
    else
      match validateApiKey apiKey with
      | Invalid error => Started (Emit (Notification error "error") (Return w))
      | Valid =>
        match validateJobDescription jobDescription with
        | Invalid error => Started (Emit (Notification error "error") (Return w))
        | Valid =>
          match validateCandidateCV candidateCV with
          | Invalid error => Started (Emit (Notification error "error") (Return w))
          | Valid =>
            let w := setProcessing true w in
            AwaitPlanner
              {| planner_apiKey := apiKey;
                 planner_jobDescription := jobDescription;
                 planner_candidateCV := candidateCV |}
              w (λ r w, start_guarded (startInterview_afterPlanner inputs r w))
          end
        end
      end.

(** ** Notions used in the statements *)

(** A topic the validating loop of [initializeSession] accepts. *)
Definition valid_topic (t : Topic) : Prop :=
  name t ≠ "" ∧ (1 ≤ importance t ≤ 5)%Z
  ∧ required_level t ∈ ["basic"; "solid"; "deep"].

(** The text written for a document is not empty and parses back to that
    document. *)
Definition JSON_faithful (d : CacheData) : Prop :=
  JSON_stringify d ≠ "" ∧ JSON_parse (JSON_stringify d) = Some (parsed_of d).

(** The operations on a live session: the mutators of the session state and
    of the prefetch manager, the cache writes, the UI state setters and the
    three asynchronous routines.  ([initializeSession] and
    [loadSessionFromCache] install a session; they begin its life.) *)
Inductive Operation :=
| OpAddQaToCurrentTopic (q a : string)
| OpSetCurrentTopicVerdict (v : option Verdict)
| OpMoveToNextTopic
| OpSetPrefetchedQuestion (topicIndex : nat) (data : PrefetchedData)
| OpClearPrefetchedQuestion (topicIndex : nat)
| OpClearAllPrefetchedQuestions
| OpAddBackgroundVerdictPromise (promise : VerdictPromise)
| OpClearBackgroundVerdictPromises
| OpSaveSessionToCache (q : option CurrentQuestion) (screen : string)
| OpClearSessionCache
| OpSetCurrentQuestion (q : option CurrentQuestion)
| OpSetProcessing (flag : bool)
| OpHandleAnswerSubmit (answerInput : option string)
| OpPrefetchNextTopicQuestion
| OpEndInterview.

Definition perform (op : Operation) (w : World) : Outcome :=
  match op with
  | OpAddQaToCurrentTopic q a => Return (addQaToCurrentTopic q a w)
  | OpSetCurrentTopicVerdict v => Return (setCurrentTopicVerdict v w)
  | OpMoveToNextTopic => Return (moveToNextTopic w).1
  | OpSetPrefetchedQuestion i data =>
    emit_all (setPrefetchedQuestion i data w).1 (Return (setPrefetchedQuestion i data w).2)
  | OpClearPrefetchedQuestion i => Return (clearPrefetchedQuestion i w)
  | OpClearAllPrefetchedQuestions => Return (clearAllPrefetchedQuestions w)
  | OpAddBackgroundVerdictPromise promise => Return (addBackgroundVerdictPromise promise w)
  | OpClearBackgroundVerdictPromises => Return (clearBackgroundVerdictPromises w)
  | OpSaveSessionToCache q screen => Return (saveSessionToCache q screen w)
  | OpClearSessionCache => Return (clearSessionCache w)
  | OpSetCurrentQuestion q => Return (setCurrentQuestion q w)
  | OpSetProcessing flag => Return (setProcessing flag w)
  | OpHandleAnswerSubmit answerInput => handleAnswerSubmit answerInput w
  | OpPrefetchNextTopicQuestion => prefetchNextTopicQuestion w
  | OpEndInterview => endInterview w
  end.

(** The busy flag is set. *)
Definition busy (w : World) : Prop := isProcessing w = true.

(** Every entry of [prefetchedQuestions] carries, as its text, the question
    text of its agent output. *)
Definition prefetched_consistent (w : World) : Prop :=
  ∀ s i entry,
    session w = Some s →
    prefetchedQuestions s !! i = Some entry →
    question_text (Some (prefetched_topicAgentOutput entry))
    = Some (prefetched_text entry).


(** The two places where the flow looks a prefetched question up: the call
    of [handleAnswerSubmit], and its resumption after the request for the
    same topic's next question (where an early verdict leads on). *)
Inductive looks_up_prefetch (w : World) : Outcome → Prop :=
| lookup_on_submit answerInput :
    looks_up_prefetch w (handleAnswerSubmit answerInput w)
| lookup_after_early_verdict sessionRef topicIndex r :
    looks_up_prefetch w (guarded (afterContinue sessionRef topicIndex r w)).

(** The three asynchronous routines that work on a live session. *)
Inductive Routine :=
| RunHandleAnswerSubmit (answerInput : option string)
| RunPrefetchNextTopicQuestion
| RunEndInterview.

Definition run (routine : Routine) (w : World) : Outcome :=
  match routine with
  | RunHandleAnswerSubmit answerInput => handleAnswerSubmit answerInput w
  | RunPrefetchNextTopicQuestion => prefetchNextTopicQuestion w
  | RunEndInterview => endInterview w
  end.

(** The elementary changes of a session: an answer recorded on the topic at
    the cursor, a verdict written on a topic that has a state, the cursor
    moved on by one below the last topic, a prefetched question stored for
    a topic or dropped, a background verdict promise registered, the
    promises dropped. *)
Inductive session_step : Session → Session → Prop :=
| step_answer s topicState q a :
    currentTopicIndex s < length (topics s) →
    topicStates s !! currentTopicIndex s = Some topicState →
    session_step s
      (with_topicStates
         (<[currentTopicIndex s :=
              {| status := PROBING;
                 qaList := qaList topicState ++ [{| question := q; answer := a |}];
                 verdict := verdict topicState |}]> (topicStates s)) s)
| step_verdict s index topicState v :
    topicStates s !! index = Some topicState →
    session_step s
      (with_topicStates
         (<[index := {| status := DONE; qaList := qaList topicState;
                        verdict := Some v |}]> (topicStates s)) s)
| step_next s :
    currentTopicIndex s < length (topics s) - 1 →
    session_step s (with_currentTopicIndex (currentTopicIndex s + 1) s)
| step_prefetch_store s index data :
    index < length (topics s) →
    session_step s
      (with_prefetchedQuestions (<[index := data]> (prefetchedQuestions s)) s)
| step_prefetch_drop s index :
    session_step s
      (with_prefetchedQuestions (delete index (prefetchedQuestions s)) s)
| step_promise_add s promise :
    session_step s
      (with_backgroundVerdictPromises (backgroundVerdictPromises s ++ [promise]) s)
| step_promises_drop s :
    session_step s (with_backgroundVerdictPromises [] s).

(** From one world to a later one: no session appears, none disappears,
    and the later session comes from the earlier one by elementary
    changes. *)
Definition evolves (w w' : World) : Prop :=
  match session w with
  | None => session w' = None
  | Some s => ∃ s', session w' = Some s' ∧ rtc session_step s s'
  end.

(** The invariants of a topic state: not started means no answer and no
    verdict, probing means at least one answer, done means a verdict. *)
Definition topicState_ok (topicState : TopicState) : Prop :=
  match status topicState with
  | NOT_STARTED => qaList topicState = [] ∧ verdict topicState = None
  | PROBING => qaList topicState ≠ []
  | DONE => is_Some (verdict topicState)
  end.

(** A session whose cursor is the position of a topic, with one state per
    topic, each within its invariants. *)
Definition session_ok (s : Session) : Prop :=
  currentTopicIndex s < length (topics s)
  ∧ (∀ i, is_Some (topicStates s !! i) ↔ i < length (topics s))
  ∧ ∀ i topicState, topicStates s !! i = Some topicState → topicState_ok topicState.

Definition world_ok (w : World) : Prop :=
  ∀ s, session w = Some s → session_ok s.

(** A topic state with its later self: the recorded answers are still
    there, in order, possibly followed by more; a topic that was started is
    still started; a verdict that was given is still given, or replaced. *)
Definition topicState_grows (earlier later : TopicState) : Prop :=
  qaList earlier `prefix_of` qaList later
  ∧ (status earlier ≠ NOT_STARTED → status later ≠ NOT_STARTED)
  ∧ (is_Some (verdict earlier) → is_Some (verdict later)).

Definition history_kept (w0 w1 : World) : Prop :=
  ∀ s0 i earlier,
    session w0 = Some s0 →
    topicStates s0 !! i = Some earlier →
    ∃ s1 later, session w1 = Some s1 ∧ topicStates s1 !! i = Some later
                ∧ topicState_grows earlier later.

(** [Q] holds of the world the routine ends on, on every path through its
    [await]s, and no path ends in an exception. *)
Fixpoint at_every_exit (Q : World → Prop) (o : Outcome) : Prop :=
  match o with
  | Return w => Q w
  | Throw _ _ => False
  | Emit _ next | Spawn _ next => at_every_exit Q next
  | Await _ _ k => ∀ r w', at_every_exit Q (k r w')
  | AwaitAll2 _ _ _ k => ∀ r w', at_every_exit Q (k r w')
  | AwaitPromises _ _ k => ∀ w', at_every_exit Q (k w')
  | AwaitSummary _ _ k => ∀ r w', at_every_exit Q (k r w')
  end.

(** The requests a routine sends to the TopicAgent before it returns or
    waits, those of the jobs it starts included, in the order of sending. *)
Fixpoint issued (o : Outcome) : list AgentCall :=
  match o with
  | Emit _ next => issued next
  | Spawn job next => issued job ++ issued next
  | Await call _ _ => [call]
  | AwaitAll2 call1 call2 _ _ => [call1; call2]
  | _ => []
  end.

(** [segments], [at_every_await] and [at_every_exit] for
    [startInterview]. *)
Definition start_segments (P : World → World → Prop) (w0 : World)
    (o : StartOutcome) : Prop :=
  match o with
  | Started o => segments P w0 o
  | AwaitPlanner _ w k => P w0 w ∧ ∀ r w', segments P w' (k r w')
  end.

Definition start_at_every_await (Q : World → Prop) (o : StartOutcome) : Prop :=
  match o with
  | Started o => at_every_await Q o
  | AwaitPlanner _ w k => Q w ∧ ∀ r w', Q w' → at_every_await Q (k r w')
  end.

Definition start_at_every_exit (Q : World → Prop) (o : StartOutcome) : Prop :=
  match o with
  | Started o => at_every_exit Q o
  | AwaitPlanner _ _ k => ∀ r w', at_every_exit Q (k r w')
  end.

(** An attempt after which [fetchWithRetry] would try again, were there
    attempts left: a response that is not ok with a status to retry, or an
    exception to retry. *)
Definition retryable (retryConfig : RetryConfig) (fetched : Fetched) : bool :=
  match fetched with
  | Responded response =>
    negb (ok response)
    && shouldRetry (mkJsError false ("HTTP " +:+ pretty (response_status response)))
         (Some (response_status response)) retryConfig
  | Failed error => shouldRetry error None retryConfig
  end.

(** What the caller of [fetchWithRetry] gets when the attempt is its last. *)
Definition settles (fetched : Fetched) : RetryResult :=
  match fetched with
  | Responded response => Returned response
  | Failed error => Thrown error
  end.

Definition requests (evs : list RetryEvent) : list nat :=
  omap (λ e, match e with Request attempt => Some attempt | _ => None end) evs.

Definition sleeps (evs : list RetryEvent) : list Z :=
  omap (λ e, match e with Sleep ms => Some ms | _ => None end) evs.


(** The world a page load starts from: fresh globals over the store that
    was left. *)
Definition reloaded (st : gmap string string) (now : Z) : World :=
  {| session := None; currentQuestion := None; isProcessing := false;
     localStorage := st; clock := now; sessionObject := 0; detached := ∅ |}.

(** ** Sample data for the scenarios

    A serializer whose text is never empty, a schema check on the status
    field, and a two-topic interview. *)

Definition sample_stringify (d : CacheData) : string := "{}".
Definition sample_parse (document : ParsedCache) (text : string) : option ParsedCache :=
  if String.eqb text "{}" then Some document else None.

(** A serializer that writes the screen and the cursor of the document, and
    a parser that reads [document] back from the text written for it and
    nothing from any other text. *)
Definition tagged_stringify (d : CacheData) : string :=
  "{screen:" +:+ currentScreen d +:+ ",cursor:"
  +:+ pretty (sd_currentTopicIndex (cd_session d)) +:+ "}".

Definition tagged_parse (document : CacheData) (text : string) : option ParsedCache :=
  if String.eqb text (tagged_stringify document) then Some (parsed_of document)
  else None.

(** The schema check of the scenarios: [status] is one of [ask], [final]. *)
Definition sample_validate (output : TopicAgentOutput) : list string :=
  if bool_decide (out_status output ∈ ["ask"; "final"]) then []
  else ["Field status must be one of [ask, final], got " +:+ out_status output].

Definition sample_validateSummary (output : FinalSummaryOutput) : list string := [].

Definition topic_sql : Topic := mkTopic "SQL" 3 "solid" [].
Definition topic_rust : Topic := mkTopic "Rust" 4 "deep" [].

Definition ask (t : string) : TopicAgentOutput :=
  mkOutput "ask" (Some (mkQuestion t)) None.

Definition sql_verdict : Verdict :=
  mkVerdict "SQL" "solid" 4 (Qmake 1 2) ["joins"] ["indexes"].

Definition final : TopicAgentOutput := mkOutput "final" None (Some sql_verdict).


Definition sample_session (maxQuestions : Z) (prefetched : gmap nat PrefetchedData)
    : Session :=
  {| apiKey := "sk-sample";
     topics := [topic_sql; topic_rust];
     topicStates := <[0 := initialTopicState]> (<[1 := initialTopicState]> ∅);
     currentTopicIndex := 0;
     enableFinalSummary := false;
     maxQuestionsPerTopic := maxQuestions;
     prefetchedQuestions := prefetched;
     backgroundVerdictPromises := [] |}.

Definition sample_world (s : Session) : World :=
  {| session := Some s;
     currentQuestion := Some (mkCurrentQuestion "What is a join?" 0);
     isProcessing := false;
     localStorage := ∅;
     clock := 0;
     sessionObject := 0;
     detached := ∅ |}.

Definition ownership_entry : PrefetchedData :=
  mkPrefetched "Explain ownership." 1 (ask "Explain ownership.").

(** One question per topic, and the next topic's question already
    prefetched. *)
Definition world_prefetched : World :=
  sample_world (sample_session 1 (<[1 := ownership_entry]> ∅)).

(** One question per topic, nothing prefetched. *)
Definition world_plain : World := sample_world (sample_session 1 ∅).

(** The constant [session] of a routine called on [world_plain]. *)
Definition plain_ref : SessionRef := mkSessionRef 0 (sample_session 1 ∅).

Definition world_busy : World := setProcessing true world_plain.

Definition five_answers : list QAPair :=
  [mkQA "q1" "a1"; mkQA "q2" "a2"; mkQA "q3" "a3"; mkQA "q4" "a4"; mkQA "q5" "a5"].

Definition world_with_history (qas : list QAPair) : World :=
  sample_world
    {| apiKey := "sk-sample";
       topics := [topic_sql; topic_rust];
       topicStates :=
         <[0 := {| status := PROBING; qaList := qas; verdict := None |}]>
           (<[1 := initialTopicState]> ∅);
       currentTopicIndex := 0;
       enableFinalSummary := false;
       maxQuestionsPerTopic := 5;
       prefetchedQuestions := ∅;
       backgroundVerdictPromises := [] |}.

Definition saved_document : CacheData :=
  cacheData_of (currentQuestion world_prefetched) "interview"
    (sample_session 1 (<[1 := ownership_entry]> ∅)) world_prefetched.

(** A Planner schema check that accepts, a two-topic plan, and the setup
    form filled in. *)
Definition sample_validatePlan (output : PlannerOutput) : list string := [].

Definition sample_plan : PlannerOutput := mkPlan (Some [topic_sql; topic_rust]).

Definition sample_inputs : StartInputs :=
  {| input_apiKey := "sk-sample";
     input_jobDescription :=
       "  Senior backend engineer: SQL, Rust, distributed systems and on-call duty.  ";
     input_candidateCV :=
       "Ten years of backend work with PostgreSQL and Rust at two product companies.";
     input_enableFinalSummary := false;
     config_maxQuestionsPerTopic := None |}.

(** The document saved when the question prefetched for the second topic is
    stored. *)
Definition prefetch_document : CacheData :=
  cacheData_of None "interview"
    (with_prefetchedQuestions (<[1 := ownership_entry]> ∅) (sample_session 1 ∅))
    world_plain.

(** A server that is unavailable twice and then answers. *)
Definition sample_fetch (attempt : nat) : Fetched :=
  if attempt <? 2 then Responded (mkResponse false 503)
  else Responded (mkResponse true 200).

(** The program's functions are unfolded by name in the proofs. *)
#[local] Arguments saveSessionToCache : simpl never.
#[local] Arguments clearSessionCache : simpl never.
#[local] Arguments loadSessionFromCache : simpl never.
#[local] Arguments addQaToCurrentTopic : simpl never.
#[local] Arguments setCurrentTopicVerdict : simpl never.
#[local] Arguments moveToNextTopic : simpl never.
#[local] Arguments hasMoreTopics : simpl never.
#[local] Arguments shouldContinueCurrentTopic : simpl never.
#[local] Arguments getCurrentTopic : simpl never.
#[local] Arguments getCurrentTopicState : simpl never.
#[local] Arguments getAllTopicVerdicts : simpl never.
#[local] Arguments getIncompleteTopics : simpl never.
#[local] Arguments setPrefetchedQuestion : simpl never.
#[local] Arguments getPrefetchedQuestion : simpl never.
#[local] Arguments clearPrefetchedQuestion : simpl never.
#[local] Arguments clearAllPrefetchedQuestions : simpl never.
#[local] Arguments addBackgroundVerdictPromise : simpl never.
#[local] Arguments getAllBackgroundVerdictPromises : simpl never.
#[local] Arguments clearBackgroundVerdictPromises : simpl never.
#[local] Arguments validateTopicAgentAsk : simpl never.
#[local] Arguments validateTopicAgentFinal : simpl never.
#[local] Arguments validateTopicAgentResponse : simpl never.
#[local] Arguments validateAnswer : simpl never.
#[local] Arguments userMessage : simpl never.
#[local] Arguments callTopicAgent : simpl never.
#[local] Arguments question_text : simpl never.
#[local] Arguments verdict_of : simpl never.
#[local] Arguments prefetch_resume : simpl never.
#[local] Arguments prefetchNextTopicQuestion : simpl never.
#[local] Arguments assign_verdict : simpl never.
#[local] Arguments is_final_with_verdict : simpl never.
#[local] Arguments is_ask_with_question : simpl never.
#[local] Arguments endInterview : simpl never.
#[local] Arguments endInterview_summary : simpl never.
#[local] Arguments backgroundVerdict_resume : simpl never.
#[local] Arguments enter_next_topic : simpl never.
#[local] Arguments open_next_topic : simpl never.
#[local] Arguments afterVerdictAndNext : simpl never.
#[local] Arguments afterLastVerdict : simpl never.
#[local] Arguments afterNextQuestion : simpl never.
#[local] Arguments afterContinue : simpl never.
#[local] Arguments handleAnswerSubmit_try : simpl never.
#[local] Arguments handleAnswerSubmit : simpl never.
#[local] Arguments guarded : simpl never.
#[local] Arguments handleError : simpl never.
#[local] Arguments trim : simpl never.
#[local] Arguments pretty : simpl never.
#[local] Arguments hasCachedSession : simpl never.
#[local] Arguments restoreSessionFromCache : simpl never.
#[local] Arguments getCompletedTopics : simpl never.
#[local] Arguments validateJobDescription : simpl never.
#[local] Arguments validateCandidateCV : simpl never.
#[local] Arguments validateApiKey : simpl never.
#[local] Arguments validatePlannerResponse : simpl never.
#[local] Arguments validateFinalSummaryResponse : simpl never.
#[local] Arguments startInterview_afterFirstQuestion : simpl never.
#[local] Arguments startInterview_afterPlanner : simpl never.
#[local] Arguments startInterview : simpl never.
#[local] Arguments start_guarded : simpl never.
#[local] Arguments initializeSession : simpl never.
#[local] Arguments shouldRetry : simpl never.
#[local] Arguments rendering_throws : simpl never.
#[local] Arguments deref : simpl never.
#[local] Arguments store : simpl never.
#[local] Arguments assign_verdict_through : simpl never.
#[local] Arguments endInterview_afterDrain : simpl never.

(** * Properties *)

(** ** Resumptions *)

Lemma emit_all_app evs1 evs2 o :
  emit_all (evs1 ++ evs2) o = emit_all evs1 (emit_all evs2 o).
Proof. unfold emit_all. apply foldr_app. Qed.

Lemma try_catch_emit_all evs o handler :
  try_catch (emit_all evs o) handler = emit_all evs (try_catch o handler).
Proof. induction evs as [|e evs IH]; simpl; [done|]. by rewrite IH. Qed.

Lemma returned_emit_all evs o : returned (emit_all evs o) = returned o.
Proof. by induction evs. Qed.

Lemma thrown_emit_all evs o : thrown (emit_all evs o) = thrown o.
Proof. by induction evs. Qed.

(** *** Reasoning about the segments of a resumption *)

Section Segments.
Variable P : World → World → Prop.
Hypothesis P_trans : ∀ a b c, P a b → P b c → P a c.

Lemma segments_trans w0 w1 o : P w0 w1 → segments P w1 o → segments P w0 o.
Proof.
  intros H01. induction o as [w|e w|e next IH|job IHjob next IHnext| | | |]; simpl;
    try solve [intros [? ?]; eauto]; eauto.
Qed.

Lemma segments_emit_all w0 evs o : segments P w0 (emit_all evs o) ↔ segments P w0 o.
Proof. by induction evs. Qed.

Lemma segments_try_catch w0 body handler :
  segments P w0 body →
  (∀ e w, segments P w (handler e w)) →
  segments P w0 (try_catch body handler).
Proof.
  intros Hbody Hh. revert w0 Hbody.
  induction body as [w|e w|e next IH|job IHjob next IHnext|c w k IH|c1 c2 w k IH
                     |ps w k IH|vs w k IH]; intros w0; simpl; eauto.
  - intros HP. eapply segments_trans; eauto.
  - intros [? ?]; eauto.
  - intros [? ?]; eauto.
  - intros [? ?]; eauto.
  - intros [? ?]; eauto.
  - intros [? ?]; eauto.
Qed.

Lemma segments_finally w0 body f :
  segments P w0 body → (∀ w, P w (f w)) → segments P w0 (finally body f).
Proof.
  intros Hbody Hf. revert w0 Hbody.
  induction body as [w|e w|e next IH|job IHjob next IHnext|c w k IH|c1 c2 w k IH
                     |ps w k IH|vs w k IH]; intros w0; simpl; eauto;
    intros [? ?]; eauto.
Qed.

Lemma segments_and_then w0 body rest :
  segments P w0 body → (∀ w, segments P w (rest w)) →
  segments P w0 (and_then body rest).
Proof.
  intros Hbody Hrest. revert w0 Hbody.
  induction body as [w|e w|e next IH|job IHjob next IHnext|c w k IH|c1 c2 w k IH
                     |ps w k IH|vs w k IH]; intros w0; simpl; eauto.
  - intros HP. eapply segments_trans; eauto.
  - intros [? ?]; eauto.
  - intros [? ?]; eauto.
  - intros [? ?]; eauto.
  - intros [? ?]; eauto.
  - intros [? ?]; eauto.
Qed.

Lemma segments_not_awaited w0 body rest :
  segments P w0 body → (∀ w, segments P w (rest w)) →
  segments P w0 (not_awaited body rest).
Proof.
  intros Hbody Hrest. revert w0 Hbody.
  induction body as [w|e w|e next IH|job IHjob next IHnext|c w k IH|c1 c2 w k IH
                     |ps w k IH|vs w k IH]; intros w0; simpl; eauto.
  - intros HP. eapply segments_trans; eauto.
  - intros HP. eapply segments_trans; eauto.
  - intros [? ?]; eauto.
  - intros [HP ?]. repeat split; eauto. eapply segments_trans; eauto.
  - intros [HP ?]. repeat split; eauto. eapply segments_trans; eauto.
  - intros [HP ?]. repeat split; eauto. eapply segments_trans; eauto.
  - intros [HP ?]. repeat split; eauto. eapply segments_trans; eauto.
Qed.

(** What holds of every segment holds of the world returned before the
    first [await]. *)
Lemma segments_returned w0 o wf :
  segments P w0 o → returned o = Some wf → P w0 wf.
Proof.
  induction o; simpl; try done.
  - by intros ? [= ->].
  - intros [? ?]; eauto.
Qed.
End Segments.

Section AtEveryAwait.
Variable Q : World → Prop.

Lemma at_every_await_try_catch body handler :
  at_every_await Q body →
  (∀ e w, at_every_await Q (handler e w)) →
  at_every_await Q (try_catch body handler).
Proof.
  intros Hbody Hh.
  induction body as [w|e w|e next IH|job IHjob next IHnext|c w k IH|c1 c2 w k IH
                     |ps w k IH|vs w k IH]; simpl in *; eauto;
    destruct Hbody; eauto.
Qed.

Lemma at_every_await_finally body f :
  at_every_await Q body → at_every_await Q (finally body f).
Proof.
  intros Hbody.
  induction body as [w|e w|e next IH|job IHjob next IHnext|c w k IH|c1 c2 w k IH
                     |ps w k IH|vs w k IH]; simpl in *; eauto;
    destruct Hbody; eauto.
Qed.

Lemma at_every_await_and_then body rest :
  at_every_await Q body →
  (∀ w, at_every_await Q (rest w)) →
  at_every_await Q (and_then body rest).
Proof.
  intros Hbody Hrest.
  induction body as [w|e w|e next IH|job IHjob next IHnext|c w k IH|c1 c2 w k IH
                     |ps w k IH|vs w k IH]; simpl in *; eauto;
    destruct Hbody; eauto.
Qed.

Lemma at_every_await_not_awaited body rest :
  (∀ w, at_every_await Q (rest w)) →
  at_every_await Q (not_awaited body rest).
Proof.
  intros Hrest.
  induction body as [w|e w|e next IH|job IHjob next IHnext|c w k IH|c1 c2 w k IH
                     |ps w k IH|vs w k IH]; simpl in *; eauto.
Qed.
End AtEveryAwait.

(** ** The cursor relation *)

Lemma cursor_rel_refl w : cursor_rel w w.
Proof.
  unfold cursor_rel, cursor_le. destruct (cursor_view w) as [[tps i]|]; [|done].
  exists i. auto.
Qed.

Lemma cursor_rel_trans a b c : cursor_rel a b → cursor_rel b c → cursor_rel a c.
Proof.
  unfold cursor_rel, cursor_le.
  destruct (cursor_view a) as [[tps i]|]; [|done].
  intros (i' & -> & Hle & Hb) (i'' & -> & Hle' & Hc).
  exists i''. split; [done|]. lia.
Qed.

Lemma cursor_rel_same w0 w w' :
  cursor_view w' = cursor_view w → cursor_rel w0 w → cursor_rel w0 w'.
Proof. unfold cursor_rel. by intros ->. Qed.

(** ** Saving touches the store only *)

Lemma session_saveSessionToCache q scr w :
  session (saveSessionToCache q scr w) = session w.
Proof. unfold saveSessionToCache. by destruct (session w) eqn:E. Qed.

Lemma currentQuestion_saveSessionToCache q scr w :
  currentQuestion (saveSessionToCache q scr w) = currentQuestion w.
Proof. unfold saveSessionToCache. by destruct (session w). Qed.

Lemma isProcessing_saveSessionToCache q scr w :
  isProcessing (saveSessionToCache q scr w) = isProcessing w.
Proof. unfold saveSessionToCache. by destruct (session w). Qed.

Lemma sessionObject_saveSessionToCache q scr w :
  sessionObject (saveSessionToCache q scr w) = sessionObject w.
Proof. unfold saveSessionToCache. by destruct (session w). Qed.

Lemma detached_saveSessionToCache q scr w :
  detached (saveSessionToCache q scr w) = detached w.
Proof. unfold saveSessionToCache. by destruct (session w). Qed.

(** ** The constant bound to the session object *)

(** As long as the variable refers to the object of the constant, the
    constant reads the session of the world. *)
Lemma deref_global sessionRef w s :
  ref_object sessionRef = sessionObject w →
  session w = Some s →
  deref sessionRef w = s.
Proof.
  intros Hobj Hs. unfold deref. rewrite Hs. by destruct (decide _).
Qed.

Lemma deref_refer w sessionRef s :
  refer w = Some sessionRef → session w = Some s → deref sessionRef w = s.
Proof.
  unfold refer. intros Href Hs. rewrite Hs in Href. injection Href as <-.
  by apply deref_global.
Qed.

(** What the constant reads depends on the session objects only. *)
Lemma deref_same sessionRef w w' :
  session w' = session w →
  sessionObject w' = sessionObject w →
  detached w' = detached w →
  deref sessionRef w' = deref sessionRef w.
Proof. unfold deref. by intros -> -> ->. Qed.

Lemma ref_object_seen_at sessionRef w :
  ref_object (seen_at sessionRef w) = ref_object sessionRef.
Proof. done. Qed.

(** A change through the constant reaches the session of the world only
    when the variable still refers to the object. *)
Lemma session_store sessionRef s w :
  session (store sessionRef s w) = session w
  ∨ (ref_object sessionRef = sessionObject w ∧ is_Some (session w)
     ∧ session (store sessionRef s w) = Some s).
Proof.
  unfold store. destruct (decide _) as [Heq|Hne].
  - destruct (session w) eqn:Hs; [|by left]. right. eauto.
  - left. by destruct (detached w !! _).
Qed.

Lemma currentQuestion_store sessionRef s w :
  currentQuestion (store sessionRef s w) = currentQuestion w.
Proof.
  unfold store. destruct (decide _); [by destruct (session w)|].
  by destruct (detached w !! _).
Qed.

Lemma isProcessing_store sessionRef s w :
  isProcessing (store sessionRef s w) = isProcessing w.
Proof.
  unfold store. destruct (decide _); [by destruct (session w)|].
  by destruct (detached w !! _).
Qed.

Lemma localStorage_store sessionRef s w :
  localStorage (store sessionRef s w) = localStorage w.
Proof.
  unfold store. destruct (decide _); [by destruct (session w)|].
  by destruct (detached w !! _).
Qed.

(** ** shouldContinueCurrentTopic *)

(** C5 (as the code has it): with a session and a current topic state,
    [shouldContinueCurrentTopic] is false exactly when the number of recorded
    answers has reached or passed [maxQuestionsPerTopic], or the status is
    done; it is true otherwise. *)
Theorem shouldContinueCurrentTopic_false_iff w s topicState :
  session w = Some s →
  getCurrentTopicState w = Some topicState →
  shouldContinueCurrentTopic w = false ↔
    (maxQuestionsPerTopic s ≤ Z.of_nat (length (qaList topicState)))%Z
    ∨ status topicState = DONE.
Proof.
  intros Hs Hts. unfold shouldContinueCurrentTopic. rewrite Hs, Hts.
  rewrite andb_false_iff, Z.ltb_ge, negb_false_iff, bool_decide_eq_true.
  reflexivity.
Qed.

Lemma shouldContinueCurrentTopic_true_iff w :
  shouldContinueCurrentTopic w = true ↔
    ∃ s topicState,
      session w = Some s ∧ getCurrentTopicState w = Some topicState ∧
      (Z.of_nat (length (qaList topicState)) < maxQuestionsPerTopic s)%Z ∧
      status topicState ≠ DONE.
Proof.
  unfold shouldContinueCurrentTopic. split.
  - destruct (session w) as [s|] eqn:Hs; [|done].
    destruct (getCurrentTopicState w) as [ts|] eqn:Hts; [|done].
    rewrite andb_true_iff, Z.ltb_lt, negb_true_iff, bool_decide_eq_false.
    intros [? ?]. by exists s, ts.
  - intros (s & ts & -> & -> & Hlt & Hst).
    rewrite andb_true_iff, Z.ltb_lt, negb_true_iff, bool_decide_eq_false. done.
Qed.

(** ** moveToNextTopic *)

Lemma moveToNextTopic_last w s :
  session w = Some s →
  length (topics s) - 1 ≤ currentTopicIndex s →
  moveToNextTopic w = (w, false).
Proof.
  intros Hs Hlast. unfold moveToNextTopic. rewrite Hs.
  destruct (Nat.ltb_spec (currentTopicIndex s) (length (topics s) - 1)); [lia|done].
Qed.

Lemma moveToNextTopic_earlier w s :
  session w = Some s →
  currentTopicIndex s < length (topics s) - 1 →
  (moveToNextTopic w).2 = true ∧
  session (moveToNextTopic w).1
    = Some (with_currentTopicIndex (currentTopicIndex s + 1) s).
Proof.
  intros Hs Hlt. unfold moveToNextTopic. rewrite Hs.
  destruct (Nat.ltb_spec (currentTopicIndex s) (length (topics s) - 1)); [|lia].
  cbn [fst snd]. by rewrite session_saveSessionToCache.
Qed.

(** ** initializeSession *)

Lemma validateTopic_None index t :
  validateTopic index t = None ↔ valid_topic t.
Proof.
  unfold validateTopic, valid_topic.
  destruct (String.eqb_spec (name t) "") as [Hn|Hn].
  { split; [done|]. intros [? _]. done. }
  destruct (Z.ltb_spec (importance t) 1); simpl.
  { split; [done|]. intros (_ & ? & _). lia. }
  destruct (Z.ltb_spec 5 (importance t)); simpl.
  { split; [done|]. intros (_ & ? & _). lia. }
  case_bool_decide; simpl.
  - split; [|done]. intros _. repeat split; [done|lia|lia|done].
  - split; [done|]. intros (_ & _ & ?). done.
Qed.

Lemma validateTopics_None index tps :
  validateTopics index tps = None ↔ Forall valid_topic tps.
Proof.
  revert index. induction tps as [|t tps IH]; intros index; simpl.
  - split; [constructor|done].
  - destruct (validateTopic index t) eqn:Hv.
    + split; [done|]. intros Hall. apply Forall_cons in Hall as [Ht _].
      apply (validateTopic_None index) in Ht. congruence.
    + rewrite IH, Forall_cons. apply validateTopic_None in Hv. tauto.
Qed.

(** The initialising [forEach] writes a fresh state at each position of the
    list and leaves the other fields alone. *)
Lemma forEach_initial_states tps index s :
  ∃ m, forEach (λ (_ : Topic) i s',
                  with_topicStates (<[i := initialTopicState]> (topicStates s')) s')
         tps index s = with_topicStates m s
       ∧ ∀ i, m !! i = if decide (index ≤ i < index + length tps)
                        then Some initialTopicState else topicStates s !! i.
Proof.
  revert index s. induction tps as [|t tps IH]; intros index s; simpl.
  - exists (topicStates s). split; [by destruct s|].
    intros i. case_decide; [lia|done].
  - destruct (IH (S index)
                (with_topicStates (<[index := initialTopicState]> (topicStates s)) s))
      as (m & -> & Hm).
    exists m. split; [done|]. intros i. rewrite Hm. simpl.
    repeat case_decide; try lia; try done.
    destruct (decide (i = index)) as [->|Hne].
    + by rewrite lookup_insert_eq.
    + lia.
    + rewrite lookup_insert_ne; [done|lia].
Qed.


(** ** The session cache *)

(** C10: the document written by [saveSessionToCache] is built from the
    topics, the topic states, the cursor, the summary flag, the question
    limit and the prefetched questions (with the version, the clock reading
    and the two arguments), so it never depends on the API key: saved on the
    same world, two sessions that agree on those six fields (in particular
    two that differ only in their [apiKey]) give the same store, byte for
    byte. *)
Theorem saveSessionToCache_independent_of_apiKey s1 s2 q scr w :
  topics s1 = topics s2 →
  topicStates s1 = topicStates s2 →
  currentTopicIndex s1 = currentTopicIndex s2 →
  enableFinalSummary s1 = enableFinalSummary s2 →
  maxQuestionsPerTopic s1 = maxQuestionsPerTopic s2 →
  prefetchedQuestions s1 = prefetchedQuestions s2 →
  localStorage (saveSessionToCache q scr (with_session (Some s1) w))
  = localStorage (saveSessionToCache q scr (with_session (Some s2) w)).
Proof.
  intros Ht Hts Hc He Hm Hp. unfold saveSessionToCache, cacheData_of, sessionData_of.
  simpl. by rewrite Ht, Hts, Hc, He, Hm, Hp.
Qed.

Lemma or_string_empty x : or_string x "" = x.
Proof. unfold or_string. by destruct (String.eqb_spec x ""). Qed.

Lemma localStorage_saveSessionToCache q scr w s :
  session w = Some s →
  localStorage (saveSessionToCache q scr w)
  = <[CACHE_KEY := JSON_stringify (cacheData_of q scr s w)]> (localStorage w).
Proof. intros Hs. unfold saveSessionToCache. by rewrite Hs. Qed.

Lemma held_parsed_states (states : gmap nat TopicState) :
  held_state <$> (parsed_state <$> states) = states.
Proof.
  apply map_eq. intros i. rewrite !lookup_fmap.
  by destruct (states !! i) as [[]|].
Qed.

(** Loading the document saved for [s], on any world over that store. *)
Lemma loadSessionFromCache_saved w0 w s q scr :
  session w = Some s →
  JSON_faithful (cacheData_of q scr s w) →
  localStorage w0 = localStorage (saveSessionToCache q scr w) →
  hasCachedSession w0 = true
  ∧ loadSessionFromCache w0
    = let s' :=
        {| apiKey := default "" (localStorage w !! "openai_api_key");
           topics := topics s;
           topicStates := topicStates s;
           currentTopicIndex := currentTopicIndex s;
           enableFinalSummary := enableFinalSummary s;
           maxQuestionsPerTopic := or_Z (maxQuestionsPerTopic s) 5;
           prefetchedQuestions := prefetchedQuestions s;
           backgroundVerdictPromises := [] |} in
      (assignSession (Some s') w0,
       Some {| restored_session := s';
               restored_currentQuestion := q;
               restored_currentScreen :=
                 or_string (or_string scr "interview") "interview";
               restored_topicStates := parsed_state <$> topicStates s |}).
Proof.
  intros Hs [Hne Hparse] Hst.
  rewrite (localStorage_saveSessionToCache _ _ _ _ Hs) in Hst.
  unfold hasCachedSession, loadSessionFromCache. rewrite Hst, lookup_insert_eq.
  destruct (String.eqb_spec (JSON_stringify (cacheData_of q scr s w)) ""); [done|].
  rewrite Hparse. cbn -[or_string or_Z]. split; [done|].
  rewrite lookup_insert_ne by done. by rewrite or_string_empty, held_parsed_states.
Qed.

(** What [loadSessionFromCache] does to the world: nothing, or it removes
    the cache entry, or it assigns the session it returns. *)
Lemma loadSessionFromCache_cases w :
  match loadSessionFromCache w with
  | (w', None) => w' = w ∨ w' = clearSessionCache w
  | (w', Some r) =>
    w' = assignSession (Some (restored_session r)) w
    ∧ backgroundVerdictPromises (restored_session r) = []
    ∧ topicStates (restored_session r) = held_state <$> restored_topicStates r
  end.
Proof.
  unfold loadSessionFromCache.
  destruct (localStorage w !! CACHE_KEY) as [cachedData|]; [|by left].
  destruct (String.eqb cachedData ""); [by left|].
  destruct (JSON_parse cachedData) as [cacheData|]; [|by right].
  destruct (p_version cacheData) as [v|]; [|by right].
  destruct (p_session cacheData) as [sessionData|]; [|by right].
  destruct (String.eqb v ""); [by right|].
  destruct (p_topics sessionData); [|by right].
  destruct (p_topicStates sessionData); [|by right].
  destruct (p_currentTopicIndex sessionData); [|by right].
  done.
Qed.

(** C6: when the text written for the cache document parses back to it,
    loading on any world whose store is the one a save has left (the fresh
    globals of a page load, or any others) installs and returns a session
    with the topics, the topic states and the cursor of the session that
    was saved; every session the loader returns is the one it has
    installed and has no background verdict promise; and without a cache
    entry in the store nothing is loaded or changed. *)
Theorem save_load_roundtrip :
  (∀ w s q scr w0,
     session w = Some s →
     JSON_faithful (cacheData_of q scr s w) →
     localStorage w0 = localStorage (saveSessionToCache q scr w) →
     ∃ w' r,
       loadSessionFromCache w0 = (w', Some r)
       ∧ session w' = Some (restored_session r)
       ∧ topics (restored_session r) = topics s
       ∧ topicStates (restored_session r) = topicStates s
       ∧ currentTopicIndex (restored_session r) = currentTopicIndex s
       ∧ backgroundVerdictPromises (restored_session r) = [])
  ∧ (∀ w0 w' r,
       loadSessionFromCache w0 = (w', Some r) →
       session w' = Some (restored_session r)
       ∧ backgroundVerdictPromises (restored_session r) = [])
  ∧ (∀ w0,
       localStorage w0 !! CACHE_KEY = None →
       loadSessionFromCache w0 = (w0, None)).
Proof.
  split; [|split].
  - intros w s q scr w0 Hs Hjson Hst.
    destruct (loadSessionFromCache_saved w0 w s q scr Hs Hjson Hst) as [_ Hload].
    rewrite Hload. cbn zeta. eexists _, _. split; [reflexivity|]. done.
  - intros w0 w' r Hload. pose proof (loadSessionFromCache_cases w0) as H.
    rewrite Hload in H. destruct H as (-> & Hp & _). done.
  - intros w0 Hnone. unfold loadSessionFromCache. by rewrite Hnone.
Qed.

(** ** What each operation does to the session *)

Lemma with_topicStates_id s : with_topicStates (topicStates s) s = s.
Proof. by destruct s. Qed.

Lemma with_prefetchedQuestions_id s :
  with_prefetchedQuestions (prefetchedQuestions s) s = s.
Proof. by destruct s. Qed.

Lemma getCurrentTopicState_setProcessing b w :
  getCurrentTopicState (setProcessing b w) = getCurrentTopicState w.
Proof. done. Qed.

Lemma session_addQaToCurrentTopic q a w :
  session (addQaToCurrentTopic q a w)
  = match session w, getCurrentTopicState w with
    | Some s, Some topicState =>
      Some (with_topicStates
              (<[currentTopicIndex s :=
                   {| status := PROBING;
                      qaList := qaList topicState ++ [{| question := q; answer := a |}];
                      verdict := verdict topicState |}]> (topicStates s)) s)
    | other, _ => other
    end.
Proof.
  unfold addQaToCurrentTopic. destruct (session w) as [s|] eqn:Hs; [|done].
  destruct (getCurrentTopicState w); [|done].
  by rewrite session_saveSessionToCache.
Qed.

Lemma session_setCurrentTopicVerdict v w :
  session (setCurrentTopicVerdict v w)
  = match session w, getCurrentTopicState w with
    | Some s, Some topicState =>
      Some (with_topicStates
              (<[currentTopicIndex s :=
                   {| status := DONE; qaList := qaList topicState; verdict := v |}]>
                 (topicStates s)) s)
    | other, _ => other
    end.
Proof.
  unfold setCurrentTopicVerdict. destruct (session w) as [s|] eqn:Hs; [|done].
  destruct (getCurrentTopicState w); [|done].
  by rewrite session_saveSessionToCache.
Qed.

Lemma session_clearPrefetchedQuestion topicIndex w :
  session (clearPrefetchedQuestion topicIndex w)
  = (λ s, with_prefetchedQuestions (delete topicIndex (prefetchedQuestions s)) s)
      <$> session w.
Proof.
  unfold clearPrefetchedQuestion. destruct (session w) as [s|] eqn:Hs; [|done].
  destruct (prefetchedQuestions s !! topicIndex) eqn:Hp.
  - by rewrite session_saveSessionToCache.
  - simpl. rewrite Hs, delete_id by done. by rewrite with_prefetchedQuestions_id.
Qed.

Lemma session_moveToNextTopic w :
  session (moveToNextTopic w).1
  = (λ s, if currentTopicIndex s <? length (topics s) - 1
          then with_currentTopicIndex (currentTopicIndex s + 1) s else s)
      <$> session w.
Proof.
  unfold moveToNextTopic. destruct (session w) as [s|] eqn:Hs; simpl; [|done].
  destruct (_ <? _); simpl; [|by rewrite Hs].
  by rewrite ?session_saveSessionToCache.
Qed.

Lemma currentQuestion_addQaToCurrentTopic q a w :
  currentQuestion (addQaToCurrentTopic q a w) = currentQuestion w.
Proof.
  unfold addQaToCurrentTopic. destruct (session w); [|done].
  destruct (getCurrentTopicState w); [|done].
  by rewrite currentQuestion_saveSessionToCache.
Qed.

Lemma isProcessing_addQaToCurrentTopic q a w :
  isProcessing (addQaToCurrentTopic q a w) = isProcessing w.
Proof.
  unfold addQaToCurrentTopic. destruct (session w); [|done].
  destruct (getCurrentTopicState w); [|done].
  by rewrite isProcessing_saveSessionToCache.
Qed.

(** The mutators change the session object in place: the variable refers to
    the same object after them, and the detached objects are as before. *)
Lemma objects_addQaToCurrentTopic q a w :
  sessionObject (addQaToCurrentTopic q a w) = sessionObject w
  ∧ detached (addQaToCurrentTopic q a w) = detached w.
Proof.
  unfold addQaToCurrentTopic. destruct (session w); [|done].
  destruct (getCurrentTopicState w); [|done].
  by rewrite sessionObject_saveSessionToCache, detached_saveSessionToCache.
Qed.

Lemma objects_setCurrentTopicVerdict v w :
  sessionObject (setCurrentTopicVerdict v w) = sessionObject w
  ∧ detached (setCurrentTopicVerdict v w) = detached w.
Proof.
  unfold setCurrentTopicVerdict. destruct (session w); [|done].
  destruct (getCurrentTopicState w); [|done].
  by rewrite sessionObject_saveSessionToCache, detached_saveSessionToCache.
Qed.

Lemma objects_clearPrefetchedQuestion topicIndex w :
  sessionObject (clearPrefetchedQuestion topicIndex w) = sessionObject w
  ∧ detached (clearPrefetchedQuestion topicIndex w) = detached w.
Proof.
  unfold clearPrefetchedQuestion. destruct (session w) as [s|]; [|done].
  destruct (prefetchedQuestions s !! topicIndex); [|done].
  by rewrite sessionObject_saveSessionToCache, detached_saveSessionToCache.
Qed.

Lemma objects_clearBackgroundVerdictPromises w :
  sessionObject (clearBackgroundVerdictPromises w) = sessionObject w
  ∧ detached (clearBackgroundVerdictPromises w) = detached w.
Proof. unfold clearBackgroundVerdictPromises. by destruct (session w). Qed.

Lemma hasMoreTopics_session w w' :
  (λ s, (topics s, currentTopicIndex s)) <$> session w'
  = (λ s, (topics s, currentTopicIndex s)) <$> session w →
  hasMoreTopics w' = hasMoreTopics w.
Proof.
  unfold hasMoreTopics. destruct (session w), (session w'); simpl; try done.
  by intros [= -> ->].
Qed.

(** Entering the next topic when there is one. *)
Lemma sessionObject_moveToNextTopic w :
  sessionObject (moveToNextTopic w).1 = sessionObject w.
Proof.
  unfold moveToNextTopic. destruct (session w); [|done].
  destruct (_ <? _); [|done]. cbn [fst]. by rewrite sessionObject_saveSessionToCache.
Qed.

Lemma detached_moveToNextTopic w :
  detached (moveToNextTopic w).1 = detached w.
Proof.
  unfold moveToNextTopic. destruct (session w); [|done].
  destruct (_ <? _); [|done]. cbn [fst]. by rewrite detached_saveSessionToCache.
Qed.

Lemma enter_next_topic_spec sessionRef questionText w w' s :
  session w = Some s →
  ref_object sessionRef = sessionObject w →
  hasMoreTopics w = true →
  enter_next_topic sessionRef questionText w = Ok w' →
  ∃ t, questionText = Some t
       ∧ session w' = Some (with_currentTopicIndex (currentTopicIndex s + 1) s)
       ∧ currentQuestion w'
         = Some {| cq_text := t; cq_topicIndex := currentTopicIndex s + 1 |}
       ∧ isProcessing w' = isProcessing w.
Proof.
  intros Hs Hobj Hmore. unfold enter_next_topic.
  pose proof (session_moveToNextTopic w) as Hmove.
  unfold hasMoreTopics in Hmore. rewrite Hs in Hmore, Hmove. simpl in Hmove.
  rewrite Hmore in Hmove.
  destruct questionText as [t|]; [|done].
  rewrite (deref_global sessionRef _ _ (eq_trans Hobj (eq_sym (sessionObject_moveToNextTopic w)))
             Hmove).
  intros [= <-]. exists t. split; [done|].
  rewrite session_saveSessionToCache, currentQuestion_saveSessionToCache,
    isProcessing_saveSessionToCache. simpl. rewrite Hmove. repeat split; try done.
  unfold moveToNextTopic. rewrite Hs, Hmore. simpl.
  by rewrite ?isProcessing_saveSessionToCache.
Qed.

(** ** The consumed prefetch *)

Lemma guarded_Spawn job next : guarded (Spawn job next) = Spawn job (guarded next).
Proof. done. Qed.

Lemma guarded_Throw error w :
  guarded (Throw error w)
  = handleError error "handleAnswerSubmit" ErrorType.API (Return (setProcessing false w)).
Proof. done. Qed.

Lemma guarded_Await call w k :
  guarded (Await call w k) = Await call w (λ r w', guarded (k r w')).
Proof. done. Qed.

Lemma guarded_AwaitAll2 call1 call2 w k :
  guarded (AwaitAll2 call1 call2 w k)
  = AwaitAll2 call1 call2 w (λ r w', guarded (k r w')).
Proof. done. Qed.

(** [handleAnswerSubmit] starts a background job before anything else only
    on the path that consumes a prefetched question; the lemma lists what
    holds on that path. *)
Lemma handleAnswerSubmit_Spawn_inv answerInput w job next :
  handleAnswerSubmit answerInput w = Spawn job next →
  ∃ value cq s topicState prefetched sessionRef w2,
    let K := currentTopicIndex s in
    let w1 := addQaToCurrentTopic (cq_text cq) (trim value) (setProcessing true w) in
    let call :=
      callTopicAgent (apiKey s) (default "" (name <$> getCurrentTopic w))
        (default "" (required_level <$> getCurrentTopic w))
        (maxQuestionsPerTopic s)
        (qaList topicState ++ [{| question := cq_text cq; answer := trim value |}])
        (Some (trim value)) in
    isProcessing w = false
    ∧ answerInput = Some value
    ∧ currentQuestion w = Some cq
    ∧ session w = Some s
    ∧ getCurrentTopicState w = Some topicState
    ∧ shouldContinueCurrentTopic w1 = false
    ∧ hasMoreTopics w1 = true
    ∧ getPrefetchedQuestion (K + 1) w1 = Some prefetched
    ∧ is_ask_with_question (Some (prefetched_topicAgentOutput prefetched)) = true
    ∧ ref_object sessionRef = sessionObject w
    ∧ enter_next_topic sessionRef
        (question_text (Some (prefetched_topicAgentOutput prefetched)))
        (clearPrefetchedQuestion (K + 1) w1) = Ok w2
    ∧ job = Await call w2 (backgroundVerdict_resume K)
    ∧ next = guarded
               (not_awaited
                  (prefetchNextTopicQuestion
                     (addBackgroundVerdictPromise
                        {| capturedTopicIndex := K; verdictRequest := call |} w2))
                  Return).
Proof.
  unfold handleAnswerSubmit, isProcessingRequest, getSession, getCurrentQuestion.
  destruct (isProcessing w) eqn:Hbusy; [done|].
  destruct answerInput as [value|]; [|done].
  destruct (validateAnswer (trim value)); [|done].
  destruct (session w) as [s|] eqn:Hs; [|done].
  destruct (currentQuestion w) as [cq|] eqn:Hcq; [|done].
  unfold handleAnswerSubmit_try.
  destruct (getCurrentTopic (setProcessing true w)) as [currentTopic|] eqn:Htopic; [|done].
  rewrite getCurrentTopicState_setProcessing.
  destruct (getCurrentTopicState w) as [topicState|] eqn:Hts; [|done].
  change (session (setProcessing true w)) with (session w). rewrite Hs.
  pose proof (session_addQaToCurrentTopic (cq_text cq) (trim value) (setProcessing true w)) as Hadd.
  rewrite getCurrentTopicState_setProcessing, Hts in Hadd.
  change (session (setProcessing true w)) with (session w) in Hadd. rewrite Hs in Hadd.
  set (w1 := addQaToCurrentTopic (cq_text cq) (trim value) (setProcessing true w)) in *.
  rewrite Hadd. cbn [topicStates with_topicStates currentTopicIndex apiKey maxQuestionsPerTopic].
  assert (Hcur : topicStates s !! currentTopicIndex s = Some topicState).
  { unfold getCurrentTopicState in Hts. rewrite Hs in Hts. by destruct (_ <=? _). }
  rewrite lookup_insert_eq. cbn [qaList].
  destruct (shouldContinueCurrentTopic w1) eqn:Hcont; [done|]. cbn [negb].
  destruct (hasMoreTopics w1) eqn:Hmore; [|done].
  destruct (getPrefetchedQuestion (currentTopicIndex s + 1) w1) as [prefetched|] eqn:Hpre.
  2: { repeat case_match; done. }
  destruct (is_ask_with_question (Some (prefetched_topicAgentOutput prefetched))) eqn:Hask;
    [|done]. cbn [negb].
  destruct (enter_next_topic _ _ _) as [w2|] eqn:Henter; [|done].
  rewrite guarded_Spawn. intros [= <- <-].
  eexists value, cq, s, topicState, prefetched, _, w2. cbn zeta.
  change (getCurrentTopic w) with (getCurrentTopic (setProcessing true w)).
  rewrite Htopic. repeat split; try done; try exact Henter.
  cbn [ref_object]. unfold w1. by rewrite (proj1 (objects_addQaToCurrentTopic _ _ _)).
Qed.

(** ** The prefetch manager *)

Lemma setPrefetchedQuestion_spec topicIndex data w :
  (setPrefetchedQuestion topicIndex data w).2 = w
  ∨ ∃ s, session w = Some s
         ∧ topicIndex < length (topics s)
         ∧ (setPrefetchedQuestion topicIndex data w).1 = []
         ∧ (setPrefetchedQuestion topicIndex data w).2
           = saveSessionToCache None "interview"
               (with_session
                  (Some (with_prefetchedQuestions
                           (<[topicIndex := data]> (prefetchedQuestions s)) s)) w).
Proof.
  unfold setPrefetchedQuestion. destruct (session w) as [s|] eqn:Hs; [|by left].
  destruct (Nat.leb_spec (length (topics s)) topicIndex); [by left|].
  right. by exists s.
Qed.

(** After its [await], [prefetchNextTopicQuestion] logs and returns: it
    either leaves the world as it found it, or stores one entry in
    [prefetchedQuestions] and saves. *)
Lemma prefetch_resume_spec nextTopicIndex nextTopic r w :
  ∃ evs wf,
    prefetch_resume nextTopicIndex nextTopic r w = emit_all evs (Return wf)
    ∧ (wf = w
       ∨ ∃ s out questionText,
           session w = Some s
           ∧ r = Fulfilled (Some out)
           ∧ validateTopicAgentAsk (Some out) = Valid
           ∧ question_text (Some out) = Some questionText
           ∧ wf = saveSessionToCache None "interview"
                    (with_session
                       (Some (with_prefetchedQuestions
                                (<[nextTopicIndex :=
                                     {| prefetched_text := questionText;
                                        prefetched_topicIndex := nextTopicIndex;
                                        prefetched_topicAgentOutput := out |}]>
                                   (prefetchedQuestions s)) s)) w)).
Proof.
  unfold prefetch_resume. destruct r as [output|error]; simpl.
  2: { eexists [_], w. split; [reflexivity|by left]. }
  destruct (validateTopicAgentAsk output) eqn:Hv; simpl.
  2: { exists [], w. split; [reflexivity|by left]. }
  destruct output as [out|].
  2: { eexists [_], w. split; [reflexivity|by left]. }
  destruct (question_text (Some out)) as [t|] eqn:Ht.
  2: { eexists [_], w. split; [reflexivity|by left]. }
  match goal with |- context [setPrefetchedQuestion ?i ?d ?w] =>
    destruct (setPrefetchedQuestion_spec i d w) as [Hsame|(s & Hs & Hlt & Hevs & Hw)];
    destruct (setPrefetchedQuestion i d w) as [evs w1] eqn:Hset end; simpl in *.
  - subst w1. exists (evs ++ [ConsoleLog
      ("Prefetched question for topic " +:+ pretty nextTopicIndex +:+ ": " +:+ name nextTopic)]), w.
    split; [|by left]. by rewrite try_catch_emit_all, emit_all_app.
  - subst evs w1. eexists [_], _. split; [reflexivity|].
    right. by exists s, out, t.
Qed.

(** Before its [await], [prefetchNextTopicQuestion] reads the session and
    either gives up or issues the request; the world is not touched. *)
Lemma prefetchNextTopicQuestion_shape w :
  prefetchNextTopicQuestion w = Return w
  ∨ ∃ call nextTopicIndex nextTopic,
      prefetchNextTopicQuestion w
      = Await call w (prefetch_resume nextTopicIndex nextTopic).
Proof.
  unfold prefetchNextTopicQuestion.
  destruct (session w) as [s|]; [|by left].
  destruct (_ <=? _); [by left|].
  case_bool_decide; [by left|].
  destruct (topicStates s !! _) as [[? [|? ?] ?]|]; [|by left|];
    (destruct (topics s !! _) as [nextTopic|]; [right; eauto|by left]).
Qed.

(** The events of a list of events, emitted before a return. *)
Lemma events_emit_all evs w : events (emit_all evs (Return w)) = evs.
Proof. induction evs as [|e evs IH]; simpl; [done|]. by rewrite IH. Qed.

(** C9: [prefetchNextTopicQuestion] either returns at once with the world
    untouched or issues its request and waits; whatever the request settles
    with (a usable question, an invalid reply, a rejection) and whatever the
    world has become by then, the code after the [await] only writes to the
    console (warnings and log lines, never a notification shown to the user
    and never an error line) and returns, so nothing is thrown to the
    caller; it leaves the cursor, the current question and the busy flag
    alone; on a failure the world is unchanged, a rejection being logged as
    one warning that carries the error and a reply that fails validation
    being dropped without a line; and on success the session differs from
    the one it found in its [prefetchedQuestions] field only, and the one
    line written is the log line of the prefetch. *)
Theorem prefetchNextTopicQuestion_isolated w :
  (prefetchNextTopicQuestion w = Return w
   ∨ ∃ call nextTopicIndex nextTopic,
       prefetchNextTopicQuestion w
       = Await call w (prefetch_resume nextTopicIndex nextTopic))
  ∧ ∀ nextTopicIndex nextTopic r w',
      ∃ evs wf,
        prefetch_resume nextTopicIndex nextTopic r w' = emit_all evs (Return wf)
        ∧ thrown (prefetch_resume nextTopicIndex nextTopic r w') = None
        ∧ events (prefetch_resume nextTopicIndex nextTopic r w') = evs
        ∧ (∀ e, e ∈ evs → ∃ message, e = ConsoleWarn message ∨ e = ConsoleLog message)
        ∧ currentTopicIndex <$> session wf = currentTopicIndex <$> session w'
        ∧ currentQuestion wf = currentQuestion w'
        ∧ isProcessing wf = isProcessing w'
        ∧ (match r with
           | Fulfilled output => validateTopicAgentAsk output ≠ Valid
           | Rejected _ => True
           end → wf = w')
        ∧ (∀ error,
             r = Rejected error →
             evs = [ConsoleWarn ("Failed to prefetch question for topic "
                                 +:+ pretty nextTopicIndex +:+ ": " +:+ error)])
        ∧ (∀ output,
             r = Fulfilled output → validateTopicAgentAsk output ≠ Valid → evs = [])
        ∧ (wf = w'
           ∨ ∃ s entries,
               session w' = Some s
               ∧ session wf = Some (with_prefetchedQuestions entries s)
               ∧ evs = [ConsoleLog ("Prefetched question for topic "
                                    +:+ pretty nextTopicIndex +:+ ": "
                                    +:+ name nextTopic)]).
Proof.
  split; [apply prefetchNextTopicQuestion_shape|].
  intros nextTopicIndex nextTopic r w'.
  assert (Hone : ∀ message e,
            e ∈ [ConsoleWarn message] → ∃ m, e = ConsoleWarn m ∨ e = ConsoleLog m).
  { intros message e ->%list_elem_of_singleton. eauto. }
  unfold prefetch_resume. destruct r as [output|error]; simpl.
  2: { eexists [_], w'. do 3 (split; [done|]). split; [apply Hone|].
       do 4 (split; [done|]). split; [by intros ? [= <-]|].
       split; [done|by left]. }
  destruct (validateTopicAgentAsk output) eqn:Hv; simpl.
  2: { exists [], w'. do 3 (split; [done|]). split; [by intros e ?%elem_of_nil|].
       do 4 (split; [done|]). split; [done|]. split; [done|by left]. }
  destruct output as [out|].
  2: { eexists [_], w'. do 3 (split; [done|]). split; [apply Hone|].
       do 3 (split; [done|]). split; [by intros []|]. split; [done|].
       split; [by intros ? [= <-] []|by left]. }
  destruct (question_text (Some out)) as [t|] eqn:Ht.
  2: { eexists [_], w'. do 3 (split; [done|]). split; [apply Hone|].
       do 3 (split; [done|]). split; [by intros []|]. split; [done|].
       split; [by intros ? [= <-] []|by left]. }
  match goal with |- context [setPrefetchedQuestion ?i ?d ?w] =>
    destruct (setPrefetchedQuestion_spec i d w) as [Hsame|(s & Hs & Hlt & Hevs & Hw)];
    pose proof (eq_refl : (setPrefetchedQuestion i d w).1 = (setPrefetchedQuestion i d w).1)
      as Hwarn;
    unfold setPrefetchedQuestion at 2 in Hwarn;
    destruct (setPrefetchedQuestion i d w) as [evs w1] eqn:Hset end; simpl in *.
  - subst w1.
    exists (evs ++ [ConsoleLog ("Prefetched question for topic " +:+ pretty nextTopicIndex
                                +:+ ": " +:+ name nextTopic)]), w'.
    match goal with |- context [try_catch ?body ?handler] =>
      assert (Heq : try_catch body handler
                    = emit_all (evs ++ [ConsoleLog ("Prefetched question for topic "
                                                    +:+ pretty nextTopicIndex +:+ ": "
                                                    +:+ name nextTopic)]) (Return w'))
        by (by rewrite try_catch_emit_all, emit_all_app);
      rewrite Heq
    end.
    rewrite thrown_emit_all, events_emit_all.
    do 3 (split; [done|]). split.
    { intros e [He| ->%list_elem_of_singleton]%elem_of_app; [|eauto].
      rewrite Hwarn in He. destruct (session w'); [|by apply elem_of_nil in He].
      destruct (_ <=? _); [|by apply elem_of_nil in He].
      apply list_elem_of_singleton in He as ->. eauto. }
    do 3 (split; [done|]). split; [by intros []|]. split; [done|].
    split; [by intros ? [= <-] []|by left].
  - subst evs w1. eexists [_], _.
    do 3 (split; [done|]). split; [intros e ->%list_elem_of_singleton; eauto|].
    rewrite session_saveSessionToCache, currentQuestion_saveSessionToCache,
      isProcessing_saveSessionToCache. simpl. rewrite Hs.
    do 3 (split; [done|]). split; [by intros []|]. split; [done|].
    split; [by intros ? [= <-] []|]. right. by eexists s, _.
Qed.

(** ** The background verdict *)

Lemma session_assign_verdict index v w w' :
  assign_verdict index v w = Some w' →
  ∃ s topicState,
    session w = Some s ∧ topicStates s !! index = Some topicState
    ∧ w' = with_session
             (Some (with_topicStates
                      (<[index := {| status := DONE; qaList := qaList topicState;
                                     verdict := v |}]> (topicStates s)) s)) w.
Proof.
  unfold assign_verdict. intros H.
  destruct (session w) as [s|]; [|done]. simpl in H.
  destruct (topicStates s !! index) as [ts|] eqn:Hts; [|done].
  simpl in H. injection H as <-. by exists s, ts.
Qed.

(** The write through the constant of [endInterview] is the write into the
    session of the world when the variable still refers to the object, and
    leaves the session of the world alone otherwise. *)
Lemma assign_verdict_through_spec sessionRef index v w sessionRef' w' :
  assign_verdict_through sessionRef index v w = Some (sessionRef', w') →
  currentQuestion w' = currentQuestion w
  ∧ isProcessing w' = isProcessing w
  ∧ localStorage w' = localStorage w
  ∧ ref_object sessionRef' = ref_object sessionRef
  ∧ (session w' = session w ∨ assign_verdict index v w = Some w').
Proof.
  unfold assign_verdict_through. intros H.
  destruct (topicStates (deref sessionRef w) !! index) as [topicState|] eqn:Hts;
    [|done].
  simpl in H. injection H as <- <-.
  rewrite currentQuestion_store, isProcessing_store, localStorage_store.
  do 4 (split; [done|]).
  unfold store. destruct (decide _) as [Heq|Hne].
  - destruct (session w) as [s|] eqn:Hs; [|by left]. right.
    rewrite (deref_global sessionRef w s) in * by done.
    unfold assign_verdict. rewrite Hs. simpl. by rewrite Hts.
  - left. by destruct (detached w !! _).
Qed.

(** The handlers of the background verdict promise, run with the captured
    index [K] on any later world: they return, leave every topic state other
    than [K] and every other field of the session alone, and on a valid
    final reply write its verdict and [DONE] into the state of topic [K]. *)
Lemma backgroundVerdict_resume_spec K r w s :
  session w = Some s →
  ∃ evs wf topicStates',
    backgroundVerdict_resume K r w = emit_all evs (Return wf)
    ∧ session wf = Some (with_topicStates topicStates' s)
    ∧ currentQuestion wf = currentQuestion w
    ∧ isProcessing wf = isProcessing w
    ∧ (∀ j, j ≠ K → topicStates' !! j = topicStates s !! j)
    ∧ (∀ out topicState,
         r = Fulfilled (Some out) →
         validateTopicAgentFinal (Some out) = Valid →
         topicStates s !! K = Some topicState →
         topicStates' !! K
         = Some {| status := DONE; qaList := qaList topicState;
                   verdict := out_verdict out |})
    ∧ (match r with
       | Fulfilled output => validateTopicAgentFinal output ≠ Valid
       | Rejected _ => True
       end → wf = w).
Proof.
  intros Hs. unfold backgroundVerdict_resume.
  assert (Hid : session w = Some (with_topicStates (topicStates s) s))
    by (rewrite Hs; by destruct s).
  destruct r as [[out|]|error]; simpl.
  - destruct (validateTopicAgentFinal (Some out)) eqn:Hv; simpl.
    + unfold getSession. rewrite Hs.
      destruct (assign_verdict K (out_verdict out) w) as [w1|] eqn:Ha; simpl.
      * apply session_assign_verdict in Ha as (s1 & ts & Hs1 & Hts & ->).
        assert (s1 = s) as -> by congruence.
        eexists [], _, _. split; [reflexivity|].
        rewrite session_saveSessionToCache, currentQuestion_saveSessionToCache,
          isProcessing_saveSessionToCache. simpl.
        repeat split; try done.
        -- intros j Hj. by rewrite lookup_insert_ne.
        -- intros out' ts' [= <-] _ Hts'. rewrite lookup_insert_eq. congruence.
      * exists [], w, (topicStates s). repeat split; try done.
        intros out' ts' [= <-] _ Hts'. unfold assign_verdict in Ha.
        rewrite Hs in Ha. simpl in Ha. rewrite Hts' in Ha. done.
    + exists [], w, (topicStates s). repeat split; try done.
      intros out' ts' [= <-] Hv'. congruence.
  - exists [], w, (topicStates s). repeat split; done.
  - eexists [_], w, (topicStates s). repeat split; done.
Qed.

(** ** The cursor under every operation *)

Lemma cursor_view_saveSessionToCache q scr w :
  cursor_view (saveSessionToCache q scr w) = cursor_view w.
Proof. unfold cursor_view. by rewrite session_saveSessionToCache. Qed.

Lemma cursor_view_clearSessionCache w : cursor_view (clearSessionCache w) = cursor_view w.
Proof. done. Qed.

Lemma cursor_view_setProcessing b w : cursor_view (setProcessing b w) = cursor_view w.
Proof. done. Qed.

Lemma cursor_view_setCurrentQuestion q w :
  cursor_view (setCurrentQuestion q w) = cursor_view w.
Proof. done. Qed.

Lemma cursor_view_addQaToCurrentTopic q a w :
  cursor_view (addQaToCurrentTopic q a w) = cursor_view w.
Proof.
  unfold cursor_view. rewrite session_addQaToCurrentTopic.
  destruct (session w); [|done]. by destruct (getCurrentTopicState w).
Qed.

Lemma cursor_view_setCurrentTopicVerdict v w :
  cursor_view (setCurrentTopicVerdict v w) = cursor_view w.
Proof.
  unfold cursor_view. rewrite session_setCurrentTopicVerdict.
  destruct (session w); [|done]. by destruct (getCurrentTopicState w).
Qed.

Lemma cursor_view_clearPrefetchedQuestion i w :
  cursor_view (clearPrefetchedQuestion i w) = cursor_view w.
Proof.
  unfold cursor_view. rewrite session_clearPrefetchedQuestion.
  by destruct (session w).
Qed.

Lemma cursor_view_clearAllPrefetchedQuestions w :
  cursor_view (clearAllPrefetchedQuestions w) = cursor_view w.
Proof.
  unfold cursor_view, clearAllPrefetchedQuestions.
  destruct (session w) eqn:Hs; [|by rewrite Hs].
  by rewrite session_saveSessionToCache.
Qed.

Lemma cursor_view_setPrefetchedQuestion i data w :
  cursor_view (setPrefetchedQuestion i data w).2 = cursor_view w.
Proof.
  destruct (setPrefetchedQuestion_spec i data w) as [->|(s & Hs & _ & _ & ->)]; [done|].
  rewrite cursor_view_saveSessionToCache. unfold cursor_view. simpl. by rewrite Hs.
Qed.

Lemma cursor_view_addBackgroundVerdictPromise promise w :
  cursor_view (addBackgroundVerdictPromise promise w) = cursor_view w.
Proof.
  unfold cursor_view, addBackgroundVerdictPromise.
  destruct (session w) eqn:Hs; [done|by rewrite Hs].
Qed.

Lemma cursor_view_clearBackgroundVerdictPromises w :
  cursor_view (clearBackgroundVerdictPromises w) = cursor_view w.
Proof.
  unfold cursor_view, clearBackgroundVerdictPromises.
  destruct (session w) eqn:Hs; [done|by rewrite Hs].
Qed.

Lemma cursor_view_assign_verdict index v w w' :
  assign_verdict index v w = Some w' → cursor_view w' = cursor_view w.
Proof.
  intros (s & ts & Hs & _ & ->)%session_assign_verdict.
  unfold cursor_view. simpl. by rewrite Hs.
Qed.

Lemma cursor_rel_moveToNextTopic w : cursor_rel w (moveToNextTopic w).1.
Proof.
  unfold cursor_rel, cursor_view. rewrite session_moveToNextTopic.
  destruct (session w) as [s|]; [|done]. simpl.
  destruct (Nat.ltb_spec (currentTopicIndex s) (length (topics s) - 1)); simpl.
  - eexists. split; [done|]. lia.
  - eexists. split; [done|]. lia.
Qed.

Create Rewrite HintDb cursor.
#[local] Hint Rewrite cursor_view_saveSessionToCache cursor_view_clearSessionCache
  cursor_view_setProcessing cursor_view_setCurrentQuestion
  cursor_view_addQaToCurrentTopic cursor_view_setCurrentTopicVerdict
  cursor_view_clearPrefetchedQuestion cursor_view_clearAllPrefetchedQuestions
  cursor_view_setPrefetchedQuestion cursor_view_addBackgroundVerdictPromise
  cursor_view_clearBackgroundVerdictPromises : cursor.

(** Closes [cursor_rel w0 (op1 (op2 ... w))] from [cursor_rel w0 w] when the
    operations leave the view alone. *)
Ltac same_cursor :=
  solve [ eapply cursor_rel_same; [|eassumption]; autorewrite with cursor; reflexivity
        | eapply cursor_rel_same; [|apply cursor_rel_refl];
          autorewrite with cursor; reflexivity ].

Lemma segments_prefetch_resume idx topic r w :
  segments cursor_rel w (prefetch_resume idx topic r w).
Proof.
  destruct (prefetch_resume_spec idx topic r w) as (evs & wf & -> & Hwf).
  apply segments_emit_all. simpl.
  destruct Hwf as [->|(s & out & t & Hs & _ & _ & _ & ->)]; [apply cursor_rel_refl|].
  eapply cursor_rel_same; [|apply cursor_rel_refl].
  rewrite cursor_view_saveSessionToCache. unfold cursor_view. simpl. by rewrite Hs.
Qed.

Lemma segments_prefetchNextTopicQuestion w :
  segments cursor_rel w (prefetchNextTopicQuestion w).
Proof.
  destruct (prefetchNextTopicQuestion_shape w) as [->|(c & i & t & ->)]; simpl.
  - apply cursor_rel_refl.
  - split; [apply cursor_rel_refl|]. intros r w'. apply segments_prefetch_resume.
Qed.

Lemma segments_backgroundVerdict_resume K r w :
  segments cursor_rel w (backgroundVerdict_resume K r w).
Proof.
  destruct (session w) as [s|] eqn:Hs.
  - destruct (backgroundVerdict_resume_spec K r w s Hs)
      as (evs & wf & ts' & -> & Hwf & _).
    apply segments_emit_all. simpl.
    eapply cursor_rel_same; [|apply cursor_rel_refl].
    unfold cursor_view. by rewrite Hwf, Hs.
  - unfold backgroundVerdict_resume, getSession. rewrite Hs.
    destruct r as [[out|]|]; simpl; try apply cursor_rel_refl.
    destruct (validateTopicAgentFinal _); simpl; apply cursor_rel_refl.
Qed.

Lemma segments_from w0 w o :
  cursor_rel w0 w → segments cursor_rel w o → segments cursor_rel w0 o.
Proof. apply segments_trans, cursor_rel_trans. Qed.

Lemma segments_spawn_prefetch w0 w :
  cursor_rel w0 w →
  segments cursor_rel w0 (not_awaited (prefetchNextTopicQuestion w) Return).
Proof.
  intros H. apply segments_not_awaited; [apply cursor_rel_trans| |].
  - eapply segments_from; [done|]. apply segments_prefetchNextTopicQuestion.
  - intros w'. apply cursor_rel_refl.
Qed.

Lemma cursor_view_assign_verdict_through sessionRef index v w sessionRef' w' :
  assign_verdict_through sessionRef index v w = Some (sessionRef', w') →
  cursor_view w' = cursor_view w.
Proof.
  intros (_ & _ & _ & _ & [Hs|Ha])%assign_verdict_through_spec.
  - unfold cursor_view. by rewrite Hs.
  - by eapply cursor_view_assign_verdict.
Qed.

Lemma segments_finalizeIncomplete sessionRef owner incompleteTopics rest w0 w :
  (∀ sessionRef w, segments cursor_rel w (rest sessionRef w)) →
  cursor_rel w0 w →
  segments cursor_rel w0 (finalizeIncomplete sessionRef owner incompleteTopics rest w).
Proof.
  intros Hrest. revert sessionRef owner w0 w.
  induction incompleteTopics as [|incomplete more IH];
    intros sessionRef owner w0 w Hw; simpl.
  { eapply segments_from; eauto. }
  destruct (topicStates (deref owner w) !! _) as [topicState|]; [|done].
  destruct (0 <? length (qaList topicState)); [|by apply IH].
  simpl. split; [done|]. intros [output|error] w'; simpl; [|apply cursor_rel_refl].
  destruct (is_final_with_verdict output); [|apply IH, cursor_rel_refl].
  destruct (assign_verdict_through _ _ _ w') as [[sessionRef' w'']|] eqn:Ha; simpl;
    [|apply cursor_rel_refl].
  apply IH. eapply cursor_rel_same; [|apply cursor_rel_refl].
  by eapply cursor_view_assign_verdict_through.
Qed.

Lemma segments_endInterview_summary sessionRef w :
  segments cursor_rel w (endInterview_summary sessionRef w).
Proof.
  unfold endInterview_summary.
  destruct (_ && _); simpl; [|same_cursor].
  split; [same_cursor|]. intros r w'.
  destruct r as [[out|]|]; simpl; try same_cursor.
  destruct (validateSummaryResponse out); simpl; same_cursor.
Qed.

Lemma segments_handleError error context errorType w0 w :
  cursor_rel w0 w →
  segments cursor_rel w0 (handleError error context errorType (Return w)).
Proof. done. Qed.

Lemma segments_endInterview_afterDrain sessionRef w0 w :
  cursor_rel w0 w →
  segments cursor_rel w0 (endInterview_afterDrain sessionRef w).
Proof.
  intros Hw. unfold endInterview_afterDrain.
  by apply segments_finalizeIncomplete; [apply segments_endInterview_summary|].
Qed.

Lemma segments_endInterview w : segments cursor_rel w (endInterview w).
Proof.
  unfold endInterview. destruct (refer w); [|apply cursor_rel_refl].
  apply segments_finally; [apply cursor_rel_trans| |intros; same_cursor].
  apply segments_try_catch; [apply cursor_rel_trans| |].
  2: { intros e w'. apply segments_handleError, cursor_rel_refl. }
  destruct (0 <? _); simpl.
  - split; [same_cursor|]. intros w'.
    apply segments_endInterview_afterDrain, cursor_rel_refl.
  - apply segments_endInterview_afterDrain. same_cursor.
Qed.

Lemma cursor_rel_enter_next_topic sessionRef questionText w0 w w' :
  cursor_rel w0 w → enter_next_topic sessionRef questionText w = Ok w' →
  cursor_rel w0 w'.
Proof.
  intros H0. unfold enter_next_topic.
  destruct questionText; [|done].
  intros [= <-]. eapply cursor_rel_same.
  { autorewrite with cursor. reflexivity. }
  eapply cursor_rel_trans; [done|]. apply cursor_rel_moveToNextTopic.
Qed.

Lemma segments_open_next_topic sessionRef output w0 w :
  cursor_rel w0 w → segments cursor_rel w0 (open_next_topic sessionRef output w).
Proof.
  intros H0. unfold open_next_topic.
  destruct (enter_next_topic _ _ w) as [w'|e] eqn:He; simpl; [|done].
  apply segments_spawn_prefetch. by eapply cursor_rel_enter_next_topic.
Qed.

Lemma segments_afterNextQuestion sessionRef output w0 w :
  cursor_rel w0 w → segments cursor_rel w0 (afterNextQuestion sessionRef output w).
Proof.
  intros H0. unfold afterNextQuestion.
  destruct (negb _); simpl; [done|]. by apply segments_open_next_topic.
Qed.

Lemma segments_afterVerdictAndNext sessionRef r w :
  segments cursor_rel w (afterVerdictAndNext sessionRef r w).
Proof.
  unfold afterVerdictAndNext. destruct r as [[output next]|]; simpl;
    [|apply cursor_rel_refl].
  destruct (validateTopicAgentFinal output); simpl; [|apply cursor_rel_refl].
  destruct (validateTopicAgentAsk next); simpl; [|same_cursor].
  apply segments_open_next_topic. same_cursor.
Qed.

Lemma segments_afterLastVerdict r w :
  segments cursor_rel w (afterLastVerdict r w).
Proof.
  unfold afterLastVerdict. destruct r as [output|]; simpl; [|apply cursor_rel_refl].
  destruct (validateTopicAgentFinal output); simpl; [|apply cursor_rel_refl].
  apply segments_and_then; [apply cursor_rel_trans| |intros; apply cursor_rel_refl].
  eapply segments_from; [|apply segments_endInterview]. same_cursor.
Qed.

Lemma segments_afterContinue sessionRef topicIndex r w :
  segments cursor_rel w (afterContinue sessionRef topicIndex r w).
Proof.
  unfold afterContinue. destruct r as [output|]; simpl; [|apply cursor_rel_refl].
  destruct (validateTopicAgentResponse output); simpl; [|apply cursor_rel_refl].
  destruct (is_final_with_verdict output).
  - destruct (hasMoreTopics _).
    + destruct (getPrefetchedQuestion _ _) as [prefetched|].
      * apply segments_afterNextQuestion. same_cursor.
      * set (s := deref sessionRef _).
        destruct (topics s !! (currentTopicIndex s + 1));
          destruct (topicStates s !! (currentTopicIndex s + 1)); simpl; try same_cursor.
        split; [same_cursor|]. intros [next|] w'; simpl; [|apply cursor_rel_refl].
        apply segments_afterNextQuestion, cursor_rel_refl.
    + apply segments_and_then; [apply cursor_rel_trans| |intros; apply cursor_rel_refl].
      eapply segments_from; [|apply segments_endInterview]. same_cursor.
  - destruct (is_ask_with_question output); simpl; [|apply cursor_rel_refl].
    destruct (question_text output); simpl; [|apply cursor_rel_refl].
    destruct (topicStates _ !! topicIndex); simpl; [|same_cursor].
    destruct (_ && _); simpl; [|same_cursor].
    apply segments_spawn_prefetch. same_cursor.
Qed.

Lemma segments_handleAnswerSubmit_try answerText cq w0 w :
  cursor_rel w0 w →
  segments cursor_rel w0 (handleAnswerSubmit_try answerText cq w).
Proof.
  intros H0. unfold handleAnswerSubmit_try.
  destruct (getCurrentTopic w) as [currentTopic|]; [|done].
  destruct (getCurrentTopicState w); [|done].
  destruct (session w) as [s0|]; [|done].
  destruct (session (addQaToCurrentTopic _ _ w)) as [s|]; simpl; [|same_cursor].
  destruct (topicStates s !! _) as [topicState|]; simpl; [|same_cursor].
  destruct (negb _).
  - destruct (hasMoreTopics _).
    + destruct (getPrefetchedQuestion _ _) as [prefetched|].
      * destruct (negb _); simpl; [same_cursor|].
        destruct (enter_next_topic _ _ _) as [w2|] eqn:He; simpl; [|same_cursor].
        assert (cursor_rel w0 w2).
        { eapply cursor_rel_enter_next_topic; [|done]. same_cursor. }
        split; [split; [done|]|].
        -- intros r w'. apply segments_backgroundVerdict_resume.
        -- apply segments_spawn_prefetch. same_cursor.
      * destruct (topics s !! (currentTopicIndex s + 1));
          destruct (topicStates s !! (currentTopicIndex s + 1)); simpl; try same_cursor.
        split; [same_cursor|]. intros r w'. apply segments_afterVerdictAndNext.
    + simpl. split; [same_cursor|]. intros r w'. apply segments_afterLastVerdict.
  - simpl. split; [same_cursor|]. intros r w'. apply segments_afterContinue.
Qed.

Lemma segments_guarded w0 body :
  segments cursor_rel w0 body → segments cursor_rel w0 (guarded body).
Proof.
  intros H. unfold guarded.
  apply segments_finally; [apply cursor_rel_trans| |intros; same_cursor].
  apply segments_try_catch; [apply cursor_rel_trans|done|].
  intros e w. apply segments_handleError, cursor_rel_refl.
Qed.

Lemma segments_handleAnswerSubmit answerInput w :
  segments cursor_rel w (handleAnswerSubmit answerInput w).
Proof.
  unfold handleAnswerSubmit.
  destruct (isProcessingRequest w); simpl; [apply cursor_rel_refl|].
  destruct answerInput as [value|]; simpl; [|apply cursor_rel_refl].
  destruct (validateAnswer _); simpl; [|apply cursor_rel_refl].
  destruct (getSession w); simpl; [|apply cursor_rel_refl].
  destruct (getCurrentQuestion w); simpl; [|apply cursor_rel_refl].
  apply segments_guarded, segments_handleAnswerSubmit_try. same_cursor.
Qed.

(** C7: on the last topic (or past it) [moveToNextTopic] returns false and
    changes nothing; on an earlier topic it returns true and the cursor is
    one more than before; and in every stretch of every operation, between
    any two suspension points and whatever has happened in between, the
    topic list stays the same, the cursor does not decrease, and a cursor
    that moved is still the position of a topic. *)
Theorem cursor_monotone_and_bounded :
  (∀ w s, session w = Some s →
          length (topics s) - 1 ≤ currentTopicIndex s →
          moveToNextTopic w = (w, false))
  ∧ (∀ w s, session w = Some s →
            currentTopicIndex s < length (topics s) - 1 →
            (moveToNextTopic w).2 = true
            ∧ session (moveToNextTopic w).1
              = Some (with_currentTopicIndex (currentTopicIndex s + 1) s))
  ∧ ∀ op w, segments cursor_rel w (perform op w).
Proof.
  split; [exact moveToNextTopic_last|]. split; [exact moveToNextTopic_earlier|].
  intros op w. destruct op; simpl; try same_cursor.
  - apply cursor_rel_moveToNextTopic.
  - apply segments_emit_all. simpl. same_cursor.
  - apply segments_handleAnswerSubmit.
  - apply segments_prefetchNextTopicQuestion.
  - apply segments_endInterview.
Qed.

(** ** The background verdict is written at the captured index *)

Lemma returned_guarded_spawn_prefetch w :
  returned (guarded (not_awaited (prefetchNextTopicQuestion w) Return))
  = Some (setProcessing false w).
Proof.
  destruct (prefetchNextTopicQuestion_shape w) as [->|(c & i & t & ->)]; done.
Qed.

(** C1: [handleAnswerSubmit] starts a background verdict job exactly on the
    path that consumes a prefetched question.  With [K] the cursor at the
    call, the job's handlers are [backgroundVerdict_resume K], the job
    starts when the cursor is already [K + 1], and its promise is registered
    last in [backgroundVerdictPromises] with [K] as captured index.  Whenever
    the job settles, on any session [s'] reached by then and wherever its
    cursor is, the handlers return, touch no topic state other than that of
    [K] (so not the one at the cursor, which has moved on) and no other
    field of the session, and for a valid final reply they write its verdict
    and [DONE] into the state of topic [K]. *)
Theorem background_verdict_written_at_captured_index answerInput w job next :
  handleAnswerSubmit answerInput w = Spawn job next →
  ∃ s call w1,
    session w = Some s
    ∧ job = Await call w1 (backgroundVerdict_resume (currentTopicIndex s))
    ∧ currentTopicIndex <$> session w1 = Some (currentTopicIndex s + 1)
    ∧ (∃ wf sf, returned next = Some wf ∧ session wf = Some sf
                ∧ last (backgroundVerdictPromises sf)
                  = Some {| capturedTopicIndex := currentTopicIndex s;
                            verdictRequest := call |})
    ∧ ∀ r w' s',
        session w' = Some s' →
        ∃ evs wf topicStates',
          backgroundVerdict_resume (currentTopicIndex s) r w'
          = emit_all evs (Return wf)
          ∧ session wf = Some (with_topicStates topicStates' s')
          ∧ (∀ j, j ≠ currentTopicIndex s → topicStates' !! j = topicStates s' !! j)
          ∧ (currentTopicIndex s' ≠ currentTopicIndex s →
             topicStates' !! currentTopicIndex s'
             = topicStates s' !! currentTopicIndex s')
          ∧ (∀ out topicState,
               r = Fulfilled (Some out) →
               validateTopicAgentFinal (Some out) = Valid →
               topicStates s' !! currentTopicIndex s = Some topicState →
               topicStates' !! currentTopicIndex s
               = Some {| status := DONE; qaList := qaList topicState;
                         verdict := out_verdict out |}).
Proof.
  intros (value & cq & s & topicState & prefetched & sessionRef & w2 & H)
    %handleAnswerSubmit_Spawn_inv.
  cbn zeta in H.
  destruct H as (Hbusy & -> & Hcq & Hs & Hts & Hcont & Hmore & Hpre & Hask & Hobj
                 & Henter & -> & ->).
  set (K := currentTopicIndex s) in *.
  set (w1 := addQaToCurrentTopic (cq_text cq) (trim value) (setProcessing true w)) in *.
  eexists s, _, w2. split; [done|]. split; [done|].
  pose proof (session_addQaToCurrentTopic (cq_text cq) (trim value) (setProcessing true w))
    as Hadd.
  rewrite getCurrentTopicState_setProcessing, Hts in Hadd.
  change (session (setProcessing true w)) with (session w) in Hadd. rewrite Hs in Hadd.
  fold w1 in Hadd.
  pose proof (session_clearPrefetchedQuestion (K + 1) w1) as Hclear.
  rewrite Hadd in Hclear. simpl in Hclear.
  eapply enter_next_topic_spec in Henter as (t & Ht & Hs2 & Hq2 & Hp2);
    [|exact Hclear| |].
  2: { rewrite Hobj. unfold w1.
       by rewrite (proj1 (objects_clearPrefetchedQuestion _ _)),
         (proj1 (objects_addQaToCurrentTopic _ _ _)). }
  2: { rewrite <- Hmore. apply hasMoreTopics_session. by rewrite Hclear, Hadd. }
  split; [by rewrite Hs2|]. split.
  - rewrite returned_guarded_spawn_prefetch. eexists _, _. split; [done|].
    unfold addBackgroundVerdictPromise. rewrite Hs2. simpl. split; [done|].
    unfold with_backgroundVerdictPromises. cbn [backgroundVerdictPromises].
    by rewrite last_snoc.
  - intros r w' s' Hs'.
    destruct (backgroundVerdict_resume_spec K r w' s' Hs')
      as (evs & wf & ts' & Heq & Hwf & _ & _ & Hother & Hwritten & _).
    exists evs, wf, ts'. repeat split; auto.
Qed.

(** ** The shapes of [handleAnswerSubmit] *)

Lemma suspended_guarded_spawn_prefetch w :
  suspended (guarded (not_awaited (prefetchNextTopicQuestion w) Return)) = None.
Proof.
  destruct (prefetchNextTopicQuestion_shape w) as [->|(c & i & t & ->)]; done.
Qed.

(** When [handleAnswerSubmit] reaches an [await], the answer has been
    recorded, the busy flag is set, and the code waiting is one of three
    continuations, each inside the routine's [try]. *)
Lemma handleAnswerSubmit_suspended_inv answerInput w w1 :
  suspended (handleAnswerSubmit answerInput w) = Some w1 →
  ∃ value cq,
    isProcessing w = false
    ∧ answerInput = Some value
    ∧ currentQuestion w = Some cq
    ∧ w1 = addQaToCurrentTopic (cq_text cq) (trim value) (setProcessing true w)
    ∧ ((∃ call1 call2 sessionRef,
          refer w1 = Some sessionRef
          ∧ handleAnswerSubmit answerInput w
            = AwaitAll2 call1 call2 w1
                (λ r w', guarded (afterVerdictAndNext sessionRef r w')))
       ∨ (∃ call,
            handleAnswerSubmit answerInput w
            = Await call w1 (λ r w', guarded (afterLastVerdict r w')))
       ∨ (∃ call sessionRef topicIndex,
            refer w1 = Some sessionRef
            ∧ handleAnswerSubmit answerInput w
              = Await call w1
                  (λ r w', guarded (afterContinue sessionRef topicIndex r w')))).
Proof.
  unfold handleAnswerSubmit, isProcessingRequest, getSession, getCurrentQuestion.
  destruct (isProcessing w) eqn:Hbusy; [done|].
  destruct answerInput as [value|]; [|done].
  destruct (validateAnswer (trim value)); [|done].
  destruct (session w) as [s|] eqn:Hs; [|done].
  destruct (currentQuestion w) as [cq|] eqn:Hcq; [|done].
  unfold handleAnswerSubmit_try.
  destruct (getCurrentTopic (setProcessing true w)) as [currentTopic|]; [|done].
  destruct (getCurrentTopicState (setProcessing true w)) as [topicState|]; [|done].
  change (session (setProcessing true w)) with (session w). rewrite Hs.
  set (w1' := addQaToCurrentTopic (cq_text cq) (trim value) (setProcessing true w)).
  destruct (session w1') as [s1|] eqn:Hs1; [|done].
  assert (Href : refer w1' = Some (mkSessionRef (sessionObject w1') s1))
    by (unfold refer; by rewrite Hs1).
  destruct (topicStates s1 !! currentTopicIndex s) as [topicState1|]; [|done].
  destruct (shouldContinueCurrentTopic w1'); cbn [negb].
  { rewrite guarded_Await. intros [= <-]. exists value, cq.
    repeat split; try done. right; right. by eexists _, _, _. }
  destruct (hasMoreTopics w1').
  2: { rewrite guarded_Await. intros [= <-]. exists value, cq.
       repeat split; try done. right; left. by eexists. }
  destruct (getPrefetchedQuestion (currentTopicIndex s1 + 1) w1') as [prefetched|].
  - destruct (negb _); [done|].
    destruct (enter_next_topic _ _ _) as [w2|]; [|done].
    rewrite guarded_Spawn. cbn [suspended].
    by rewrite suspended_guarded_spawn_prefetch.
  - destruct (topics s1 !! (currentTopicIndex s1 + 1)); [|done].
    destruct (topicStates s1 !! (currentTopicIndex s1 + 1)); [|done].
    rewrite guarded_AwaitAll2. intros [= <-]. exists value, cq.
    repeat split; try done. left. by eexists _, _, _.
Qed.

(** When [handleAnswerSubmit] returns without waiting, either the topic
    list and the cursor are as before, or it has consumed a prefetched
    question. *)
Lemma handleAnswerSubmit_returned_inv answerInput w wf :
  returned (handleAnswerSubmit answerInput w) = Some wf →
  cursor_view wf = cursor_view w
  ∨ ∃ job next, handleAnswerSubmit answerInput w = Spawn job next.
Proof.
  unfold handleAnswerSubmit, isProcessingRequest, getSession, getCurrentQuestion.
  destruct (isProcessing w) eqn:Hbusy; [intros [= <-]; by left|].
  destruct answerInput as [value|]; [|intros [= <-]; by left].
  destruct (validateAnswer (trim value)); [|intros [= <-]; by left].
  destruct (session w) as [s|] eqn:Hs; [|intros [= <-]; by left].
  destruct (currentQuestion w) as [cq|] eqn:Hcq; [|intros [= <-]; by left].
  unfold handleAnswerSubmit_try.
  destruct (getCurrentTopic (setProcessing true w)) as [currentTopic|];
    [|intros [= <-]; by left].
  destruct (getCurrentTopicState (setProcessing true w)) as [topicState|];
    [|intros [= <-]; by left].
  change (session (setProcessing true w)) with (session w). rewrite Hs.
  set (w1' := addQaToCurrentTopic (cq_text cq) (trim value) (setProcessing true w)).
  assert (Hview : cursor_view (setProcessing false w1') = cursor_view w)
    by (unfold w1'; by autorewrite with cursor).
  destruct (session w1') as [s1|]; [|intros [= <-]; by left].
  destruct (topicStates s1 !! currentTopicIndex s) as [topicState1|];
    [|intros [= <-]; by left].
  destruct (shouldContinueCurrentTopic w1'); cbn [negb]; [done|].
  destruct (hasMoreTopics w1'); [|done].
  destruct (getPrefetchedQuestion (currentTopicIndex s1 + 1) w1') as [prefetched|].
  - destruct (negb _); [intros [= <-]; by left|].
    destruct (enter_next_topic _ _ _) as [w2|].
    + intros _. right. rewrite guarded_Spawn. by eexists _, _.
    + intros [= <-]. left. by autorewrite with cursor.
  - destruct (topics s1 !! (currentTopicIndex s1 + 1)); [|intros [= <-]; by left].
    destruct (topicStates s1 !! (currentTopicIndex s1 + 1)); [|intros [= <-]; by left].
    done.
Qed.

(** ** The busy flag along [handleAnswerSubmit] *)


Lemma isProcessing_setCurrentTopicVerdict v w :
  isProcessing (setCurrentTopicVerdict v w) = isProcessing w.
Proof.
  unfold setCurrentTopicVerdict. destruct (session w); [|done].
  destruct (getCurrentTopicState w); [|done].
  by rewrite isProcessing_saveSessionToCache.
Qed.

Lemma isProcessing_clearPrefetchedQuestion i w :
  isProcessing (clearPrefetchedQuestion i w) = isProcessing w.
Proof.
  unfold clearPrefetchedQuestion. destruct (session w) as [s|]; [|done].
  destruct (prefetchedQuestions s !! i); [|done].
  by rewrite isProcessing_saveSessionToCache.
Qed.

Lemma isProcessing_clearBackgroundVerdictPromises w :
  isProcessing (clearBackgroundVerdictPromises w) = isProcessing w.
Proof. unfold clearBackgroundVerdictPromises. by destruct (session w). Qed.

Lemma isProcessing_assign_verdict index v w w' :
  assign_verdict index v w = Some w' → isProcessing w' = isProcessing w.
Proof. by intros (s & ts & _ & _ & ->)%session_assign_verdict. Qed.

Create Rewrite HintDb busy.
#[local] Hint Rewrite isProcessing_saveSessionToCache isProcessing_addQaToCurrentTopic
  isProcessing_setCurrentTopicVerdict isProcessing_clearPrefetchedQuestion
  isProcessing_clearBackgroundVerdictPromises : busy.

Ltac still_busy :=
  solve [ unfold busy in *; autorewrite with busy; simpl; first [assumption|reflexivity] ].

Lemma busy_finalizeIncomplete sessionRef owner incompleteTopics rest w :
  (∀ sessionRef w, busy w → at_every_await busy (rest sessionRef w)) →
  busy w →
  at_every_await busy (finalizeIncomplete sessionRef owner incompleteTopics rest w).
Proof.
  intros Hrest. revert sessionRef owner w.
  induction incompleteTopics as [|incomplete more IH];
    intros sessionRef owner w Hw; simpl; [auto|].
  destruct (topicStates (deref owner w) !! _) as [topicState|]; [|done].
  destruct (0 <? length (qaList topicState)); [|by apply IH].
  simpl. split; [done|]. intros [output|error] w' Hw'; simpl; [|done].
  destruct (is_final_with_verdict output); [|by apply IH].
  destruct (assign_verdict_through _ _ _ w') as [[sessionRef' w'']|] eqn:Ha; simpl;
    [|done].
  apply IH. unfold busy.
  apply assign_verdict_through_spec in Ha as (_ & -> & _). done.
Qed.

Lemma busy_endInterview_summary sessionRef w :
  busy w → at_every_await busy (endInterview_summary sessionRef w).
Proof.
  intros Hw. unfold endInterview_summary.
  destruct (_ && _); simpl; [|done].
  split; [still_busy|]. intros r w' Hw'.
  destruct r as [[out|]|]; simpl; try done.
  by destruct (validateSummaryResponse out).
Qed.

Lemma busy_endInterview_afterDrain sessionRef w :
  busy w → at_every_await busy (endInterview_afterDrain sessionRef w).
Proof.
  intros Hw. unfold endInterview_afterDrain.
  by apply busy_finalizeIncomplete; [apply busy_endInterview_summary|].
Qed.

Lemma busy_endInterview w : at_every_await busy (endInterview w).
Proof.
  unfold endInterview. destruct (refer w); [|done].
  apply at_every_await_finally, at_every_await_try_catch; [|done].
  destruct (0 <? _); simpl.
  - split; [done|]. intros w' Hw'. by apply busy_endInterview_afterDrain.
  - by apply busy_endInterview_afterDrain.
Qed.

Lemma busy_open_next_topic sessionRef output w :
  at_every_await busy (open_next_topic sessionRef output w).
Proof.
  unfold open_next_topic. destruct (enter_next_topic _ _ w); simpl; [|done].
  by apply at_every_await_not_awaited.
Qed.

Lemma busy_afterNextQuestion sessionRef output w :
  at_every_await busy (afterNextQuestion sessionRef output w).
Proof.
  unfold afterNextQuestion. destruct (negb _); simpl; [done|].
  apply busy_open_next_topic.
Qed.

Lemma busy_afterVerdictAndNext sessionRef r w :
  at_every_await busy (afterVerdictAndNext sessionRef r w).
Proof.
  unfold afterVerdictAndNext. destruct r as [[output next]|]; simpl; [|done].
  destruct (validateTopicAgentFinal output); simpl; [|done].
  destruct (validateTopicAgentAsk next); simpl; [|done].
  apply busy_open_next_topic.
Qed.

Lemma busy_afterLastVerdict r w : at_every_await busy (afterLastVerdict r w).
Proof.
  unfold afterLastVerdict. destruct r as [output|]; simpl; [|done].
  destruct (validateTopicAgentFinal output); simpl; [|done].
  apply at_every_await_and_then; [apply busy_endInterview|done].
Qed.

Lemma busy_afterContinue sessionRef topicIndex r w :
  busy w → at_every_await busy (afterContinue sessionRef topicIndex r w).
Proof.
  intros Hw. unfold afterContinue. destruct r as [output|]; simpl; [|done].
  destruct (validateTopicAgentResponse output); simpl; [|done].
  destruct (is_final_with_verdict output).
  - destruct (hasMoreTopics _).
    + set (s := deref sessionRef _).
      destruct (getPrefetchedQuestion _ _) as [prefetched|];
        [apply busy_afterNextQuestion|].
      destruct (topics s !! (currentTopicIndex s + 1));
        destruct (topicStates s !! (currentTopicIndex s + 1)); simpl; try done.
      split; [still_busy|]. intros [next|] w' Hw'; simpl; [|done].
      apply busy_afterNextQuestion.
    + apply at_every_await_and_then; [apply busy_endInterview|done].
  - destruct (is_ask_with_question output); simpl; [|done].
    destruct (question_text output); simpl; [|done].
    destruct (topicStates _ !! topicIndex); simpl; [|done].
    destruct (_ && _); simpl; [|done].
    by apply at_every_await_not_awaited.
Qed.

Lemma busy_handleAnswerSubmit_try answerText cq w :
  busy w → at_every_await busy (handleAnswerSubmit_try answerText cq w).
Proof.
  intros Hw. unfold handleAnswerSubmit_try.
  destruct (getCurrentTopic w) as [currentTopic|]; [|done].
  destruct (getCurrentTopicState w); [|done].
  destruct (session w) as [s0|]; [|done].
  destruct (session (addQaToCurrentTopic _ _ w)) as [s|]; simpl; [|done].
  destruct (topicStates s !! _) as [topicState|]; simpl; [|done].
  destruct (negb _).
  - destruct (hasMoreTopics _).
    + destruct (getPrefetchedQuestion _ _) as [prefetched|].
      * destruct (negb _); simpl; [done|].
        destruct (enter_next_topic _ _ _) as [w2|]; simpl; [|done].
        by apply at_every_await_not_awaited.
      * destruct (topics s !! (currentTopicIndex s + 1));
          destruct (topicStates s !! (currentTopicIndex s + 1)); simpl; try done.
        split; [still_busy|]. intros r w' _. apply busy_afterVerdictAndNext.
    + simpl. split; [still_busy|]. intros r w' _. apply busy_afterLastVerdict.
  - simpl. split; [still_busy|]. intros r w' Hw'. by apply busy_afterContinue.
Qed.

Lemma busy_handleAnswerSubmit answerInput w :
  at_every_await busy (handleAnswerSubmit answerInput w).
Proof.
  unfold handleAnswerSubmit.
  destruct (isProcessingRequest w); simpl; [done|].
  destruct answerInput as [value|]; simpl; [|done].
  destruct (validateAnswer _); simpl; [|done].
  destruct (getSession w); simpl; [|done].
  destruct (getCurrentQuestion w); simpl; [|done].
  unfold guarded. apply at_every_await_finally, at_every_await_try_catch; [|done].
  by apply busy_handleAnswerSubmit_try.
Qed.

(** ** A second submission while one is in flight *)

(** C4 (as the code has it): with the busy flag set, [handleAnswerSubmit]
    shows the informational notice "Please wait, processing your answer...",
    throws nothing and returns with the world exactly as it was: no session
    field, no current question, no store entry and not the flag itself
    changes.  A first call that is waiting at its first [await] has set the
    flag and recorded its answer once, and the flag is set at every later
    [await] of the routine as well; a second call made then is turned away
    in this way, so the world the first call is resumed on is the one it
    left. *)
Theorem handleAnswerSubmit_while_busy :
  (∀ answerInput w,
     isProcessing w = true →
     handleAnswerSubmit answerInput w
     = Emit (Notification "Please wait, processing your answer..." "info") (Return w))
  ∧ (∀ first second w w1,
       suspended (handleAnswerSubmit first w) = Some w1 →
       (∃ value cq,
          first = Some value ∧ currentQuestion w = Some cq
          ∧ w1 = addQaToCurrentTopic (cq_text cq) (trim value) (setProcessing true w))
       ∧ isProcessing w1 = true
       ∧ handleAnswerSubmit second w1
         = Emit (Notification "Please wait, processing your answer..." "info")
             (Return w1))
  ∧ ∀ answerInput w, at_every_await busy (handleAnswerSubmit answerInput w).
Proof.
  assert (Hbusy : ∀ answerInput w,
            isProcessing w = true →
            handleAnswerSubmit answerInput w
            = Emit (Notification "Please wait, processing your answer..." "info")
                (Return w)).
  { intros answerInput w Hw. unfold handleAnswerSubmit, isProcessingRequest.
    by rewrite Hw. }
  split; [exact Hbusy|]. split; [|exact busy_handleAnswerSubmit].
  intros first second w w1
    (value & cq & _ & -> & Hcq & -> & _)%handleAnswerSubmit_suspended_inv.
  assert (isProcessing (addQaToCurrentTopic (cq_text cq) (trim value)
                          (setProcessing true w)) = true)
    by by rewrite isProcessing_addQaToCurrentTopic.
  split; [by exists value, cq|]. split; [done|]. by apply Hbusy.
Qed.

(** ** A reply that fails validation *)

Lemma qaList_setCurrentTopicVerdict v w s :
  session w = Some s →
  ∃ topicStates',
    session (setCurrentTopicVerdict v w) = Some (with_topicStates topicStates' s)
    ∧ ∀ j, qaList <$> topicStates' !! j = qaList <$> topicStates s !! j.
Proof.
  intros Hs. rewrite session_setCurrentTopicVerdict, Hs.
  unfold getCurrentTopicState. rewrite Hs.
  destruct (_ <=? _); [exists (topicStates s); by rewrite with_topicStates_id|].
  destruct (topicStates s !! currentTopicIndex s) as [ts|] eqn:Hts;
    [|exists (topicStates s); by rewrite with_topicStates_id].
  eexists. split; [done|]. intros j.
  destruct (decide (j = currentTopicIndex s)) as [->|Hne].
  - by rewrite lookup_insert_eq, Hts.
  - by rewrite lookup_insert_ne.
Qed.


(** ** Consuming a prefetched question *)

Lemma getPrefetchedQuestion_session i w w' :
  (λ s, (topics s, prefetchedQuestions s)) <$> session w'
  = (λ s, (topics s, prefetchedQuestions s)) <$> session w →
  getPrefetchedQuestion i w' = getPrefetchedQuestion i w.
Proof.
  unfold getPrefetchedQuestion. destruct (session w), (session w'); simpl; try done.
  by intros [= -> ->].
Qed.

Lemma getPrefetchedQuestion_addQaToCurrentTopic i q a w :
  getPrefetchedQuestion i (addQaToCurrentTopic q a w) = getPrefetchedQuestion i w.
Proof.
  apply getPrefetchedQuestion_session. rewrite session_addQaToCurrentTopic.
  destruct (session w); [|done]. by destruct (getCurrentTopicState w).
Qed.

Lemma getPrefetchedQuestion_setCurrentTopicVerdict i v w :
  getPrefetchedQuestion i (setCurrentTopicVerdict v w) = getPrefetchedQuestion i w.
Proof.
  apply getPrefetchedQuestion_session. rewrite session_setCurrentTopicVerdict.
  destruct (session w); [|done]. by destruct (getCurrentTopicState w).
Qed.

(** The prefetch manager stores consistent entries only. *)
Lemma prefetch_resume_consistent nextTopicIndex nextTopic r w wf :
  prefetched_consistent w →
  returned (prefetch_resume nextTopicIndex nextTopic r w) = Some wf →
  prefetched_consistent wf.
Proof.
  intros Hw.
  destruct (prefetch_resume_spec nextTopicIndex nextTopic r w)
    as (evs & wf' & -> & Hwf).
  rewrite returned_emit_all. intros [= <-].
  destruct Hwf as [->|(s & out & t & Hs & _ & _ & Ht & ->)]; [done|].
  intros s' i entry. rewrite session_saveSessionToCache. intros [= <-]. simpl.
  destruct (decide (i = nextTopicIndex)) as [->|Hne].
  - rewrite lookup_insert_eq. by intros [= <-].
  - rewrite lookup_insert_ne by done. by apply Hw.
Qed.

(** Moving into the next topic with a question text: what the world is
    afterwards, given the session before. *)
Lemma open_after_clear sessionRef t w s :
  session w = Some s →
  ref_object sessionRef = sessionObject w →
  hasMoreTopics w = true →
  ∃ w' s',
    enter_next_topic sessionRef (Some t)
      (clearPrefetchedQuestion (currentTopicIndex s + 1) w) = Ok w'
    ∧ session w' = Some s'
    ∧ currentTopicIndex s' = currentTopicIndex s + 1
    ∧ prefetchedQuestions s' !! (currentTopicIndex s + 1) = None
    ∧ currentQuestion w'
      = Some {| cq_text := t; cq_topicIndex := currentTopicIndex s + 1 |}
    ∧ isProcessing w' = isProcessing w.
Proof.
  intros Hs Hobj Hmore.
  pose proof (session_clearPrefetchedQuestion (currentTopicIndex s + 1) w) as Hclear.
  rewrite Hs in Hclear. simpl in Hclear.
  destruct (enter_next_topic sessionRef (Some t)
              (clearPrefetchedQuestion (currentTopicIndex s + 1) w)) as [w'|e] eqn:Henter;
    [|done].
  eapply enter_next_topic_spec in Henter as (t' & [= <-] & Hs' & Hq & Hp);
    [|exact Hclear| |].
  2: { by rewrite (proj1 (objects_clearPrefetchedQuestion _ _)). }
  2: { rewrite <- Hmore. apply hasMoreTopics_session. by rewrite Hclear, Hs. }
  eexists _, _. split; [done|]. split; [exact Hs'|]. simpl.
  split; [done|]. split; [apply lookup_delete_eq|]. split; [done|].
  by rewrite Hp, isProcessing_clearPrefetchedQuestion.
Qed.

(** C3 (as the code has it): the flow looks a prefetched question up in two
    places, each time before it requests anything for the next topic: in
    [handleAnswerSubmit], when the answer it has recorded ends the topic
    and there is a next one, and after the wait for the same topic's next
    question, when the reply is an early verdict and there is a next topic
    ([afterContinue] is that continuation, and the constant it holds refers
    to the session the routine left).  If the entry for the topic after the
    cursor is present there and holds a question with text [t] (as every
    entry the prefetch manager stores does), the routine returns without
    waiting for any reply, with the cursor on that topic, [t] as the
    current question for it, the entry gone from [prefetchedQuestions] and
    the busy flag cleared.  After the wait this is so when the variable
    [session] still refers to the session of the routine. *)
Theorem prefetched_question_consumed :
  (∀ value w s cq topicState p t,
     isProcessing w = false →
     validateAnswer (trim value) = Valid →
     session w = Some s →
     currentQuestion w = Some cq →
     getCurrentTopicState w = Some topicState →
     (maxQuestionsPerTopic s ≤ Z.of_nat (length (qaList topicState) + 1))%Z →
     hasMoreTopics w = true →
     getPrefetchedQuestion (currentTopicIndex s + 1) w = Some p →
     is_ask_with_question (Some (prefetched_topicAgentOutput p)) = true →
     question_text (Some (prefetched_topicAgentOutput p)) = Some t →
     ∃ wf sf,
       returned (handleAnswerSubmit (Some value) w) = Some wf
       ∧ session wf = Some sf
       ∧ currentTopicIndex sf = currentTopicIndex s + 1
       ∧ currentQuestion wf
         = Some {| cq_text := t; cq_topicIndex := currentTopicIndex s + 1 |}
       ∧ prefetchedQuestions sf !! (currentTopicIndex s + 1) = None
       ∧ isProcessing wf = false)
  ∧ (∀ answerInput w call w1 k,
       handleAnswerSubmit answerInput w = Await call w1 k →
       k = (λ r w', guarded (afterLastVerdict r w'))
       ∨ ∃ sessionRef topicIndex,
           refer w1 = Some sessionRef
           ∧ k = (λ r w', guarded (afterContinue sessionRef topicIndex r w')))
  ∧ (∀ sessionRef topicIndex output w s p t,
       session w = Some s →
       ref_object sessionRef = sessionObject w →
       validateTopicAgentResponse output = Valid →
       is_final_with_verdict output = true →
       hasMoreTopics w = true →
       getPrefetchedQuestion (currentTopicIndex s + 1) w = Some p →
       is_ask_with_question (Some (prefetched_topicAgentOutput p)) = true →
       question_text (Some (prefetched_topicAgentOutput p)) = Some t →
       ∃ wf sf,
         returned (guarded (afterContinue sessionRef topicIndex (Fulfilled output) w))
         = Some wf
         ∧ session wf = Some sf
         ∧ currentTopicIndex sf = currentTopicIndex s + 1
         ∧ currentQuestion wf
           = Some {| cq_text := t; cq_topicIndex := currentTopicIndex s + 1 |}
         ∧ prefetchedQuestions sf !! (currentTopicIndex s + 1) = None
         ∧ isProcessing wf = false).
Proof.
  split; [|split].
  - intros value w s cq topicState p t Hbusy Hvalid Hs Hcq Hts Hlast Hmore Hp Hask Htext.
    assert (Hcur : topicStates s !! currentTopicIndex s = Some topicState
                   ∧ currentTopicIndex s < length (topics s)).
    { unfold getCurrentTopicState in Hts. rewrite Hs in Hts.
      destruct (Nat.leb_spec (length (topics s)) (currentTopicIndex s)); [done|].
      split; [done|lia]. }
    destruct Hcur as [Hcur Hlt].
    destruct (lookup_lt_is_Some_2 (topics s) (currentTopicIndex s) Hlt)
      as [currentTopic Htopic].
    unfold handleAnswerSubmit, isProcessingRequest, getSession, getCurrentQuestion.
    rewrite Hbusy, Hvalid, Hs, Hcq. unfold handleAnswerSubmit_try.
    assert (Hgt : getCurrentTopic (setProcessing true w) = Some currentTopic).
    { unfold getCurrentTopic. cbn [session setProcessing]. rewrite Hs.
      destruct (Nat.leb_spec (length (topics s)) (currentTopicIndex s)); [lia|done]. }
    rewrite Hgt, getCurrentTopicState_setProcessing, Hts.
    change (session (setProcessing true w)) with (session w). rewrite Hs.
    pose proof (session_addQaToCurrentTopic (cq_text cq) (trim value)
                  (setProcessing true w)) as Hadd.
    rewrite getCurrentTopicState_setProcessing, Hts in Hadd.
    change (session (setProcessing true w)) with (session w) in Hadd.
    rewrite Hs in Hadd.
    set (w1 := addQaToCurrentTopic (cq_text cq) (trim value) (setProcessing true w)) in *.
    rewrite Hadd.
    cbn [topicStates with_topicStates currentTopicIndex apiKey maxQuestionsPerTopic].
    rewrite lookup_insert_eq. cbn [qaList].
    assert (Hcont : shouldContinueCurrentTopic w1 = false).
    { unfold shouldContinueCurrentTopic, getCurrentTopicState. rewrite Hadd.
      cbn [topics topicStates with_topicStates currentTopicIndex maxQuestionsPerTopic].
      destruct (Nat.leb_spec (length (topics s)) (currentTopicIndex s)); [lia|].
      rewrite lookup_insert_eq. cbn [qaList status]. rewrite length_app. cbn [length].
      apply andb_false_iff. left. apply Z.ltb_ge. lia. }
    rewrite Hcont. cbn [negb].
    assert (Hmore1 : hasMoreTopics w1 = true).
    { rewrite <- Hmore. apply hasMoreTopics_session. by rewrite Hadd, Hs. }
    rewrite Hmore1.
    assert (Hp1 : getPrefetchedQuestion (currentTopicIndex s + 1) w1 = Some p).
    { unfold w1. by rewrite getPrefetchedQuestion_addQaToCurrentTopic. }
    rewrite Hp1, Hask. cbn [negb]. rewrite Htext.
    match goal with |- context [enter_next_topic ?sessionRef _ _] =>
      edestruct (open_after_clear sessionRef t w1 _ Hadd)
        as (w2 & s2 & Henter & Hs2 & Hc2 & Hp2 & Hq2 & _); [done|done|]
    end.
    cbn [currentTopicIndex with_topicStates] in Henter, Hc2, Hp2, Hq2.
    rewrite Henter, guarded_Spawn. cbn [returned].
    rewrite returned_guarded_spawn_prefetch.
    eexists _, _. split; [done|].
    unfold addBackgroundVerdictPromise. rewrite Hs2. by cbn.
  - intros answerInput w call w1 k Heq.
    assert (Hsusp : suspended (handleAnswerSubmit answerInput w) = Some w1)
      by by rewrite Heq.
    apply handleAnswerSubmit_suspended_inv in Hsusp
      as (value & cq & _ & _ & _ & _ & Hshape).
    destruct Hshape as [(c1 & c2 & sessionRef & _ & H)
                       |[(c & H)|(c & sessionRef & topicIndex & Href & H)]];
      rewrite H in Heq; try done; injection Heq as <- <-.
    + by left.
    + right. by exists sessionRef, topicIndex.
  - intros sessionRef topicIndex output w s p t Hs Hobj Hvalid Hfinal Hmore Hp Hask Htext.
    unfold afterContinue. rewrite Hvalid, Hfinal.
    set (w1 := setCurrentTopicVerdict (verdict_of output) w).
    destruct (qaList_setCurrentTopicVerdict (verdict_of output) w s Hs)
      as (ts' & Hs1 & _). fold w1 in Hs1.
    assert (Hobj1 : ref_object sessionRef = sessionObject w1)
      by (unfold w1; by rewrite (proj1 (objects_setCurrentTopicVerdict _ _))).
    assert (Hmore1 : hasMoreTopics w1 = true).
    { rewrite <- Hmore. apply hasMoreTopics_session. by rewrite Hs1, Hs. }
    rewrite Hmore1, (deref_global sessionRef w1 _ Hobj1 Hs1).
    cbn [currentTopicIndex with_topicStates].
    unfold w1 at 1. rewrite getPrefetchedQuestion_setCurrentTopicVerdict, Hp.
    unfold afterNextQuestion. rewrite Hask. cbn [negb].
    unfold open_next_topic. rewrite Htext.
    edestruct (open_after_clear sessionRef t w1 _ Hs1 Hobj1 Hmore1)
      as (w2 & s2 & Henter & Hs2 & Hc2 & Hp2 & Hq2 & _).
    cbn [currentTopicIndex with_topicStates] in Henter, Hc2, Hp2, Hq2.
    fold w1. rewrite Henter, returned_guarded_spawn_prefetch.
    by eexists _, _.
Qed.

(** * Further properties *)

(** ** Restoring from the cache *)

(** Rendering does not throw on the states of a saved session: each has
    its history. *)
Lemma rendering_saved tps (states : gmap nat TopicState) :
  rendering_throws tps (parsed_state <$> states) = false.
Proof.
  unfold rendering_throws. destruct (existsb _ _) eqn:E; [|done].
  apply existsb_exists in E as (i & _ & Hi). rewrite lookup_fmap in Hi.
  by destruct (states !! i).
Qed.

(** Restoring on fresh globals over the store left by a save. *)
Lemma restoreSessionFromCache_saved w s q scr now :
  session w = Some s →
  JSON_faithful (cacheData_of q scr s w) →
  ∃ w',
    restoreSessionFromCache (reloaded (localStorage (saveSessionToCache q scr w)) now)
    = (w', true)
    ∧ session w'
      = Some {| apiKey := default "" (localStorage w !! "openai_api_key");
                topics := topics s;
                topicStates := topicStates s;
                currentTopicIndex := currentTopicIndex s;
                enableFinalSummary := enableFinalSummary s;
                maxQuestionsPerTopic := or_Z (maxQuestionsPerTopic s) 5;
                prefetchedQuestions := prefetchedQuestions s;
                backgroundVerdictPromises := [] |}
    ∧ currentQuestion w' = q
    ∧ isProcessing w' = false
    ∧ localStorage w' = localStorage (saveSessionToCache q scr w).
Proof.
  intros Hs Hjson.
  destruct (loadSessionFromCache_saved
              (reloaded (localStorage (saveSessionToCache q scr w)) now) w s q scr Hs Hjson)
    as [Hhas Hload]; [done|].
  unfold restoreSessionFromCache. rewrite Hhas, Hload. cbn zeta.
  cbn [negb restored_session restored_topicStates restored_currentQuestion topics].
  rewrite rendering_saved. eexists. split; [reflexivity|]. done.
Qed.

(** X1: a page load over the store left by [saveSessionToCache] restores
    the session: when the text written for the document parses back to it,
    [restoreSessionFromCache] returns true on fresh globals, the session it
    installs has the saved topics, topic states, cursor, summary flag and
    prefetched questions, a question limit that is the saved one (5 where
    zero was saved), no background verdict promise, and as API key whatever
    the store holds under [openai_api_key]; and the current question is the
    one that was passed to [saveSessionToCache]. *)
Theorem restoreSessionFromCache_after_save w s q scr now :
  session w = Some s →
  JSON_faithful (cacheData_of q scr s w) →
  ∃ w',
    restoreSessionFromCache (reloaded (localStorage (saveSessionToCache q scr w)) now)
    = (w', true)
    ∧ session w'
      = Some {| apiKey := default "" (localStorage w !! "openai_api_key");
                topics := topics s;
                topicStates := topicStates s;
                currentTopicIndex := currentTopicIndex s;
                enableFinalSummary := enableFinalSummary s;
                maxQuestionsPerTopic := or_Z (maxQuestionsPerTopic s) 5;
                prefetchedQuestions := prefetchedQuestions s;
                backgroundVerdictPromises := [] |}
    ∧ currentQuestion w' = q
    ∧ isProcessing w' = false
    ∧ localStorage w' = localStorage (saveSessionToCache q scr w).
Proof. apply restoreSessionFromCache_saved. Qed.

(** X2: how [restoreSessionFromCache] can end.  When it returns true, a
    session is installed (the one [loadSessionFromCache] returns, with the
    current question of the document) and the store is as it was.  When it
    returns false, either nothing was restored: the session and the current
    question are untouched, and the store is as it was or has lost the
    cache entry; or the rendering of the restored session has thrown: the
    session and the current question of the document are in place all the
    same, and the cache entry is removed.  The busy flag is never
    touched. *)
Theorem restoreSessionFromCache_outcomes w :
  match restoreSessionFromCache w with
  | (w', true) =>
    (∃ r, (loadSessionFromCache w).2 = Some r
          ∧ rendering_throws (topics (restored_session r)) (restored_topicStates r)
            = false
          ∧ session w' = Some (restored_session r)
          ∧ currentQuestion w' = restored_currentQuestion r)
    ∧ localStorage w' = localStorage w
    ∧ hasCachedSession w = true
  | (w', false) =>
    (session w' = session w ∧ currentQuestion w' = currentQuestion w
     ∧ (localStorage w' = localStorage w
        ∨ localStorage w' = delete CACHE_KEY (localStorage w)))
    ∨ (∃ r, (loadSessionFromCache w).2 = Some r
            ∧ rendering_throws (topics (restored_session r)) (restored_topicStates r)
              = true
            ∧ session w' = Some (restored_session r)
            ∧ currentQuestion w' = restored_currentQuestion r
            ∧ localStorage w' = delete CACHE_KEY (localStorage w))
  end
  ∧ isProcessing (restoreSessionFromCache w).1 = isProcessing w.
Proof.
  unfold restoreSessionFromCache.
  destruct (hasCachedSession w); cbn [negb]; [|split; [left; auto|done]].
  pose proof (loadSessionFromCache_cases w) as H.
  destruct (loadSessionFromCache w) as [w' [r|]].
  - destruct H as (-> & _ & _). cbn zeta.
    destruct (rendering_throws _ _) eqn:Hthrows.
    + split; [|done]. right. by exists r.
    + split; [|done]. split; [by exists r|done].
  - destruct H as [->| ->]; (split; [left; auto|done]).
Qed.

(** X3: once the cache entry is cleared there is nothing to restore:
    after [clearSessionCache], and after the New interview button (which
    also resets the session and the current question),
    [hasCachedSession] is false, and [loadSessionFromCache] and
    [restoreSessionFromCache] give nothing back and change nothing. *)
Theorem nothing_to_restore_after_clearing w :
  hasCachedSession (clearSessionCache w) = false
  ∧ loadSessionFromCache (clearSessionCache w) = (clearSessionCache w, None)
  ∧ restoreSessionFromCache (clearSessionCache w) = (clearSessionCache w, false)
  ∧ restoreSessionFromCache (newInterview w) = (newInterview w, false)
  ∧ session (newInterview w) = None
  ∧ currentQuestion (newInterview w) = None.
Proof.
  assert (Hclear : ∀ w0, hasCachedSession (clearSessionCache w0) = false
                         ∧ loadSessionFromCache (clearSessionCache w0)
                           = (clearSessionCache w0, None)).
  { intros w0. unfold hasCachedSession, loadSessionFromCache, clearSessionCache.
    cbn [localStorage with_localStorage]. by rewrite lookup_delete_eq. }
  destruct (Hclear w) as [Hhas Hload]. repeat split; try done.
  - unfold restoreSessionFromCache. by rewrite Hhas.
  - unfold restoreSessionFromCache, newInterview.
    by rewrite (proj1 (Hclear _)).
Qed.

(** ** What the validators accept *)

Lemma schema_check_Valid out rest :
  schema_check out rest = Valid ↔ validateResponse out = [] ∧ rest = Valid.
Proof.
  unfold schema_check. destruct (validateResponse out); [|by split; [|intros []]].
  by split; [|intros []].
Qed.

Lemma validateTopicAgentAsk_Valid output :
  validateTopicAgentAsk output = Valid ↔
    ∃ out q, output = Some out ∧ validateResponse out = []
             ∧ out_status out = AGENT_STATUS.ASK
             ∧ out_question out = Some q ∧ text q ≠ "".
Proof.
  unfold validateTopicAgentAsk, has_question_text. split.
  - destruct output as [out|]; [|done]. rewrite schema_check_Valid. intros [Hv H].
    destruct (String.eqb_spec (out_status out) AGENT_STATUS.ASK); [|done].
    destruct (out_question out) as [q|] eqn:Hq; [|done].
    destruct (String.eqb_spec (text q) ""); [done|]. by exists out, q.
  - intros (out & q & -> & Hv & Hst & Hq & Ht).
    rewrite schema_check_Valid, Hst, Hq. split; [done|].
    simpl. by destruct (String.eqb_spec (text q) "").
Qed.

Lemma validateTopicAgentFinal_Valid output :
  validateTopicAgentFinal output = Valid ↔
    ∃ out v, output = Some out ∧ validateResponse out = []
             ∧ out_status out = AGENT_STATUS.FINAL
             ∧ out_verdict out = Some v.
Proof.
  unfold validateTopicAgentFinal, has_verdict. split.
  - destruct output as [out|]; [|done]. rewrite schema_check_Valid. intros [Hv H].
    destruct (String.eqb_spec (out_status out) AGENT_STATUS.FINAL); [|done].
    destruct (out_verdict out) as [v|] eqn:Hq; [|done]. by exists out, v.
  - intros (out & v & -> & Hv & Hst & Hq).
    by rewrite schema_check_Valid, Hst, Hq.
Qed.

Lemma is_final_with_verdict_true output :
  is_final_with_verdict output = true ↔
    ∃ out v, output = Some out ∧ out_status out = AGENT_STATUS.FINAL
             ∧ out_verdict out = Some v.
Proof.
  unfold is_final_with_verdict, has_verdict. split.
  - destruct output as [out|]; [|done].
    destruct (String.eqb_spec (out_status out) AGENT_STATUS.FINAL); [|done].
    destruct (out_verdict out) as [v|] eqn:Hq; [|done]. by exists out, v.
  - intros (out & v & -> & Hst & Hq). by rewrite Hst, Hq.
Qed.

Lemma is_ask_with_question_true output :
  is_ask_with_question output = true ↔
    ∃ out q, output = Some out ∧ out_status out = AGENT_STATUS.ASK
             ∧ out_question out = Some q ∧ text q ≠ "".
Proof.
  unfold is_ask_with_question, has_question_text. split.
  - destruct output as [out|]; [|done].
    destruct (String.eqb_spec (out_status out) AGENT_STATUS.ASK); [|done].
    destruct (out_question out) as [q|] eqn:Hq; [|done].
    destruct (String.eqb_spec (text q) ""); [done|]. by exists out, q.
  - intros (out & q & -> & Hst & Hq & Ht). rewrite Hst, Hq.
    simpl. by destruct (String.eqb_spec (text q) "").
Qed.

(** X4: the general TopicAgent validator accepts exactly what one of the
    two specific validators accepts, and no reply passes both of those.  A
    reply it accepts is either a question with a text or a verdict, never
    both and never neither, so of the three branches that follow it in
    [handleAnswerSubmit] the last one (the reply is neither) is not
    taken. *)
Theorem validateTopicAgentResponse_accepts output :
  (validateTopicAgentResponse output = Valid ↔
     validateTopicAgentAsk output = Valid ∨ validateTopicAgentFinal output = Valid)
  ∧ ¬ (validateTopicAgentAsk output = Valid ∧ validateTopicAgentFinal output = Valid)
  ∧ (validateTopicAgentResponse output = Valid →
     xorb (is_ask_with_question output) (is_final_with_verdict output) = true).
Proof.
  assert (Hgen : validateTopicAgentResponse output = Valid ↔
            ∃ out, output = Some out ∧ validateResponse out = []
                   ∧ ((out_status out = AGENT_STATUS.ASK ∧ has_question_text out = true)
                      ∨ (out_status out = AGENT_STATUS.FINAL ∧ has_verdict out = true))).
  { unfold validateTopicAgentResponse. split.
    - destruct output as [out|]; [|done]. rewrite schema_check_Valid. intros [Hv H].
      exists out. split; [done|]. split; [done|].
      destruct (String.eqb_spec (out_status out) AGENT_STATUS.ASK).
      { left. by destruct (has_question_text out). }
      destruct (String.eqb_spec (out_status out) AGENT_STATUS.FINAL); [|done].
      right. by destruct (has_verdict out).
    - intros (out & -> & Hv & [[Hst Hq]|[Hst Hq]]);
        rewrite schema_check_Valid, Hst, Hq; done. }
  assert (Hask : validateTopicAgentAsk output = Valid ↔
            ∃ out, output = Some out ∧ validateResponse out = []
                   ∧ out_status out = AGENT_STATUS.ASK ∧ has_question_text out = true).
  { rewrite validateTopicAgentAsk_Valid. unfold has_question_text. split.
    - intros (out & q & -> & Hv & Hst & Hq & Ht). exists out. rewrite Hq.
      repeat split; try done. by destruct (String.eqb_spec (text q) "").
    - intros (out & -> & Hv & Hst & Hq).
      destruct (out_question out) as [q|] eqn:Hoq; [|done]. exists out, q.
      repeat split; try done. by destruct (String.eqb_spec (text q) ""). }
  assert (Hfinal : validateTopicAgentFinal output = Valid ↔
            ∃ out, output = Some out ∧ validateResponse out = []
                   ∧ out_status out = AGENT_STATUS.FINAL ∧ has_verdict out = true).
  { rewrite validateTopicAgentFinal_Valid. unfold has_verdict. split.
    - intros (out & v & -> & Hv & Hst & Hq). exists out. by rewrite Hq.
    - intros (out & -> & Hv & Hst & Hq).
      destruct (out_verdict out) as [v|] eqn:Hov; [|done]. by exists out, v. }
  split; [|split].
  - rewrite Hgen, Hask, Hfinal. split.
    + intros (out & -> & Hv & [[? ?]|[? ?]]); [left|right]; by exists out.
    + intros [(out & -> & ? & ? & ?)|(out & -> & ? & ? & ?)]; exists out; auto.
  - rewrite Hask, Hfinal.
    intros [(out & -> & _ & Hst & _) (out' & [= <-] & _ & Hst' & _)].
    rewrite Hst in Hst'. discriminate Hst'.
  - rewrite Hgen. intros (out & -> & _ & H).
    unfold is_ask_with_question, is_final_with_verdict.
    destruct H as [[Hst Hq]|[Hst Hq]]; rewrite Hst, Hq; done.
Qed.

Lemma validatePlannerResponse_Valid output :
  validatePlannerResponse output = Valid ↔
    ∃ out topic rest, output = Some out ∧ validatePlanResponse out = []
                      ∧ plan_topics out = Some (topic :: rest).
Proof.
  unfold validatePlannerResponse. split.
  - destruct output as [out|]; [|done].
    destruct (validatePlanResponse out) eqn:Hv; [|done].
    destruct (plan_topics out) as [[|topic rest]|] eqn:Ht; try done.
    intros _. by exists out, topic, rest.
  - intros (out & topic & rest & -> & Hv & Ht). by rewrite Hv, Ht.
Qed.

Lemma validateTopic_not_empty_list_error index t e :
  validateTopic index t = Some e → e ≠ "Topics array must be non-empty".
Proof.
  unfold validateTopic.
  destruct (String.eqb _ _); [by intros [= <-]|].
  destruct (_ || _); [by intros [= <-]|].
  destruct (negb _); [by intros [= <-]|done].
Qed.

Lemma validateTopics_not_empty_list_error index tps e :
  validateTopics index tps = Some e → e ≠ "Topics array must be non-empty".
Proof.
  revert index. induction tps as [|t tps IH]; intros index; simpl; [done|].
  destruct (validateTopic index t) eqn:Hv; [|by apply IH].
  intros [= <-]. by eapply validateTopic_not_empty_list_error.
Qed.

(** X5: a Planner reply that passes [validatePlannerResponse] carries a
    non-empty topic list, so [initializeSession], called on it as
    [startInterview] does, never fails with "Topics array must be
    non-empty": it succeeds when every topic is valid, and fails with the
    message of the first invalid topic otherwise. *)
Theorem validated_plan_initializes output key maxQuestions enableSummary w :
  validatePlannerResponse output = Valid →
  ∃ tps,
    output ≫= plan_topics = Some tps
    ∧ tps ≠ []
    ∧ (Forall valid_topic tps →
       ∃ w' s, initializeSession tps key maxQuestions enableSummary w = (w', Ok s)
               ∧ session w' = Some s ∧ topics s = tps)
    ∧ (¬ Forall valid_topic tps →
       ∃ e, initializeSession tps key maxQuestions enableSummary w = (w, Error e)
            ∧ validateTopics 0 tps = Some e
            ∧ e ≠ "Topics array must be non-empty").
Proof.
  intros (out & topic & rest & -> & _ & Ht)%validatePlannerResponse_Valid.
  exists (topic :: rest). split; [done|]. split; [done|].
  unfold initializeSession. cbn [length Nat.eqb]. split.
  - intros Hall. apply (validateTopics_None 0) in Hall. rewrite Hall.
    eexists _, _. split; [reflexivity|]. rewrite session_saveSessionToCache.
    split; [done|].
    match goal with |- context [forEach ?f ?l 0 ?s0] =>
      destruct (forEach_initial_states l 0 s0) as (m & -> & _) end.
    done.
  - intros Hnot. destruct (validateTopics 0 (topic :: rest)) as [e|] eqn:Hv.
    + exists e. repeat split; try done.
      by eapply validateTopics_not_empty_list_error.
    + by apply validateTopics_None in Hv.
Qed.

(** ** The cached current question *)

(** X6: the cache document written when a prefetched question is stored
    records no current question.  When [prefetchNextTopicQuestion] is
    resumed with a valid question for a topic of the list, it stores the
    entry and saves; the current question in memory stays, but a page load
    over the store it leaves restores the session with no current question,
    and [handleAnswerSubmit] then turns every answer away with "Session not
    initialized". *)
Theorem prefetch_store_drops_cached_question idx topic out w s now :
  session w = Some s →
  idx < length (topics s) →
  validateTopicAgentAsk (Some out) = Valid →
  JSON_faithful
    (cacheData_of None "interview"
       (with_prefetchedQuestions
          (<[idx := {| prefetched_text := default "" (question_text (Some out));
                       prefetched_topicIndex := idx;
                       prefetched_topicAgentOutput := out |}]>
             (prefetchedQuestions s)) s) w) →
  ∃ wf w',
    returned (prefetch_resume idx topic (Fulfilled (Some out)) w) = Some wf
    ∧ currentQuestion wf = currentQuestion w
    ∧ restoreSessionFromCache (reloaded (localStorage wf) now) = (w', true)
    ∧ topics <$> session w' = Some (topics s)
    ∧ currentQuestion w' = None
    ∧ ∀ value,
        validateAnswer (trim value) = Valid →
        handleAnswerSubmit (Some value) w'
        = Emit (Notification "Session not initialized" "error") (Return w').
Proof.
  intros Hs Hidx Hv Hjson.
  pose proof Hv as (out' & q & [= <-] & _ & _ & Hq & _)%validateTopicAgentAsk_Valid.
  assert (Ht : question_text (Some out) = Some (text q)).
  { unfold question_text. simpl. by rewrite Hq. }
  rewrite Ht in Hjson. cbn [default] in Hjson.
  unfold prefetch_resume. rewrite Hv, Ht. unfold setPrefetchedQuestion. rewrite Hs.
  destruct (Nat.leb_spec (length (topics s)) idx); [lia|].
  cbn [emit_all foldr try_catch returned].
  set (s' := with_prefetchedQuestions _ s) in *.
  set (w1 := with_session (Some s') w).
  destruct (restoreSessionFromCache_saved w1 s' None "interview" now)
    as (w' & Hrestore & Hs' & Hq' & Hbusy & _); [done|exact Hjson|].
  exists (saveSessionToCache None "interview" w1), w'.
  split; [done|]. split; [by rewrite currentQuestion_saveSessionToCache|].
  split; [done|]. split; [by rewrite Hs'|]. split; [done|].
  intros value Hvalid.
  unfold handleAnswerSubmit, isProcessingRequest, getSession, getCurrentQuestion.
  by rewrite Hbusy, Hvalid, Hs', Hq'.
Qed.

(** ** The mutators of the session state *)

Lemma getCurrentTopicState_Some w topicState :
  getCurrentTopicState w = Some topicState ↔
    ∃ s, session w = Some s ∧ currentTopicIndex s < length (topics s)
         ∧ topicStates s !! currentTopicIndex s = Some topicState.
Proof.
  unfold getCurrentTopicState. destruct (session w) as [s|].
  2: { split; [done|]. by intros (? & ? & _). }
  destruct (Nat.leb_spec (length (topics s)) (currentTopicIndex s)).
  - split; [done|]. intros (? & [= <-] & ? & _). lia.
  - split; [by exists s|]. by intros (? & [= <-] & _ & ?).
Qed.

(** X7: recording an answer sets the status of the current topic to
    probing whatever it was before (a topic that was done is reopened, its
    verdict kept), appends the pair to its history and leaves the other
    topics' states alone; so right after it [shouldContinueCurrentTopic]
    depends on the number of answers only: it is true exactly when the new
    count is below [maxQuestionsPerTopic]. *)
Theorem shouldContinue_after_answer q a w s topicState :
  session w = Some s →
  getCurrentTopicState w = Some topicState →
  getCurrentTopicState (addQaToCurrentTopic q a w)
  = Some {| status := PROBING;
            qaList := qaList topicState ++ [{| question := q; answer := a |}];
            verdict := verdict topicState |}
  ∧ (∀ s', session (addQaToCurrentTopic q a w) = Some s' →
           ∀ j, j ≠ currentTopicIndex s → topicStates s' !! j = topicStates s !! j)
  ∧ shouldContinueCurrentTopic (addQaToCurrentTopic q a w)
    = (Z.of_nat (length (qaList topicState) + 1) <? maxQuestionsPerTopic s)%Z.
Proof.
  intros Hs Hts.
  pose proof Hts as (s0 & Hs0 & Hlt & Hlook)%getCurrentTopicState_Some.
  assert (s0 = s) as -> by congruence.
  pose proof (session_addQaToCurrentTopic q a w) as Hadd. rewrite Hs, Hts in Hadd.
  assert (Hcur : getCurrentTopicState (addQaToCurrentTopic q a w)
                 = Some {| status := PROBING;
                           qaList := qaList topicState ++ [{| question := q; answer := a |}];
                           verdict := verdict topicState |}).
  { apply getCurrentTopicState_Some. eexists. split; [exact Hadd|].
    simpl. split; [done|]. by rewrite lookup_insert_eq. }
  split; [done|]. split.
  - intros s' Hs' j Hj. rewrite Hadd in Hs'. injection Hs' as <-. simpl.
    by rewrite lookup_insert_ne.
  - unfold shouldContinueCurrentTopic. rewrite Hadd, Hcur. simpl.
    rewrite length_app. simpl. by rewrite andb_true_r.
Qed.

(** X8: the verdict of the current topic is overwritten, never merged: two
    calls of [setCurrentTopicVerdict] in a row leave the world (session,
    current question, busy flag and cache) exactly as the second call alone
    does. *)
Theorem setCurrentTopicVerdict_last_wins v1 v2 w :
  setCurrentTopicVerdict v2 (setCurrentTopicVerdict v1 w)
  = setCurrentTopicVerdict v2 w.
Proof.
  destruct (getCurrentTopicState w) as [topicState|] eqn:Hts.
  - pose proof Hts as (s & Hs & Hlt & Hlook)%getCurrentTopicState_Some.
    pose proof (session_setCurrentTopicVerdict v1 w) as Hset. rewrite Hs, Hts in Hset.
    assert (Hcur : getCurrentTopicState (setCurrentTopicVerdict v1 w)
                   = Some {| status := DONE; qaList := qaList topicState; verdict := v1 |}).
    { apply getCurrentTopicState_Some. eexists. split; [exact Hset|].
      simpl. split; [done|]. by rewrite lookup_insert_eq. }
    unfold setCurrentTopicVerdict at 1. rewrite Hset, Hcur.
    unfold setCurrentTopicVerdict. rewrite Hs, Hts.
    unfold saveSessionToCache, cacheData_of, sessionData_of, with_session,
      with_localStorage, with_topicStates. simpl.
    by rewrite !insert_insert_eq.
  - assert (Hid : setCurrentTopicVerdict v1 w = w).
    { unfold setCurrentTopicVerdict. rewrite Hts. by destruct (session w). }
    by rewrite Hid.
Qed.

(** X9: [moveToNextTopic] reports what [hasMoreTopics] says, and [n] calls
    in a row, from a cursor on a topic, leave the session as it was except
    for the cursor, which has advanced by [n] or stopped on the last topic,
    whichever comes first. *)
Theorem moveToNextTopic_iterated n w s :
  session w = Some s →
  currentTopicIndex s < length (topics s) →
  (moveToNextTopic w).2 = hasMoreTopics w
  ∧ session (Nat.iter n (λ w, (moveToNextTopic w).1) w)
    = Some (with_currentTopicIndex
              (Nat.min (currentTopicIndex s + n) (length (topics s) - 1)) s).
Proof.
  intros Hs Hlt. split.
  { unfold moveToNextTopic, hasMoreTopics. rewrite Hs. by destruct (_ <? _). }
  induction n as [|n IH]; simpl.
  - rewrite Hs. f_equal.
    replace (Nat.min (currentTopicIndex s + 0) (length (topics s) - 1))
      with (currentTopicIndex s) by lia.
    by destruct s.
  - rewrite session_moveToNextTopic, IH. simpl. f_equal.
    destruct (Nat.ltb_spec (Nat.min (currentTopicIndex s + n) (length (topics s) - 1))
                (length (topics s) - 1)) as [Hmore|Hlast].
    + replace (Nat.min (currentTopicIndex s + S n) (length (topics s) - 1))
        with (Nat.min (currentTopicIndex s + n) (length (topics s) - 1) + 1) by lia.
      done.
    + replace (Nat.min (currentTopicIndex s + S n) (length (topics s) - 1))
        with (Nat.min (currentTopicIndex s + n) (length (topics s) - 1)) by lia.
      done.
Qed.

(** ** The lists read off the topic states *)

(** A [forEach] that pushes at most one element per item. *)
Lemma elem_of_forEach_collect {A B} (f : A → nat → list B → list B)
    (g : A → nat → option B) :
  (∀ item i acc, f item i acc = acc ++ option_list (g item i)) →
  ∀ l index acc b,
    b ∈ forEach f l index acc ↔
      b ∈ acc ∨ ∃ k item, l !! k = Some item ∧ g item (index + k) = Some b.
Proof.
  intros Hf l. induction l as [|x l IH]; intros index acc b; simpl.
  - split; [by left|]. intros [?|(k & item & Hk & _)]; [done|]. by destruct k.
  - rewrite IH, Hf, elem_of_app. split.
    + intros [[Hacc|Hx]|(k & item & Hk & Hg)].
      * by left.
      * right. exists 0, x. split; [done|]. rewrite Nat.add_0_r.
        destruct (g x index); simpl in Hx; [|by apply elem_of_nil in Hx].
        apply list_elem_of_singleton in Hx. by subst.
      * right. exists (S k), item. split; [done|].
        by replace (index + S k) with (S index + k) by lia.
    + intros [Hacc|(k & item & Hk & Hg)]; [by left; left|].
      destruct k as [|k]; simpl in Hk.
      * injection Hk as ->. rewrite Nat.add_0_r in Hg. left. right.
        rewrite Hg. simpl. by apply list_elem_of_singleton.
      * right. exists k, item. split; [done|].
        by replace (S index + k) with (index + S k) by lia.
Qed.

Lemma forEach_collect_index {A B} (f : A → nat → list B → list B)
    (h : nat → option B) :
  (∀ item i acc, f item i acc = acc ++ option_list (h i)) →
  ∀ l index acc,
    forEach f l index acc = acc ++ omap h (seq index (length l)).
Proof.
  intros Hf l. induction l as [|x l IH]; intros index acc; simpl.
  - by rewrite app_nil_r.
  - rewrite IH, Hf, <- app_assoc. by destruct (h index).
Qed.

Lemma length_forEach_partition {A B C} (f1 : A → nat → list B → list B)
    (g1 : A → nat → option B) (f2 : A → nat → list C → list C)
    (g2 : A → nat → option C) :
  (∀ item i acc, f1 item i acc = acc ++ option_list (g1 item i)) →
  (∀ item i acc, f2 item i acc = acc ++ option_list (g2 item i)) →
  ∀ l index acc1 acc2,
    (∀ k item, l !! k = Some item →
               is_Some (g1 item (index + k)) ↔ g2 item (index + k) = None) →
    length (forEach f1 l index acc1) + length (forEach f2 l index acc2)
    = length acc1 + length acc2 + length l.
Proof.
  intros Hf1 Hf2 l. induction l as [|x l IH]; intros index acc1 acc2 Hone; simpl.
  - lia.
  - rewrite IH.
    + rewrite Hf1, Hf2, !length_app.
      specialize (Hone 0 x eq_refl). rewrite Nat.add_0_r in Hone.
      destruct (g1 x index), (g2 x index); simpl; try lia.
      * destruct Hone as [Hone _]. by specialize (Hone (mk_is_Some _ _ eq_refl)).
      * destruct Hone as [_ Hone]. by destruct (Hone eq_refl).
    + intros k item Hk. replace (S index + k) with (index + S k) by lia.
      by apply Hone.
Qed.

Lemma getAllTopicVerdicts_omap w :
  getAllTopicVerdicts w
  = match session w with
    | None => []
    | Some s =>
      omap (λ i, topicStates s !! i ≫= verdict) (seq 0 (length (topics s)))
    end.
Proof.
  unfold getAllTopicVerdicts. destruct (session w) as [s|]; [|done].
  rewrite (forEach_collect_index _ (λ i, topicStates s !! i ≫= verdict)); [done|].
  intros _ i acc. destruct (topicStates s !! i) as [[st qa [v|]]|]; simpl;
    by rewrite ?app_nil_r.
Qed.

(** X10: [getAllTopicVerdicts] lists, in the order of the topics, the
    verdict of every topic whose state holds one, whatever the status of
    that state (a topic reopened by a later answer still counts); a state
    stored beyond the end of the topic list is not looked at. *)
Theorem getAllTopicVerdicts_by_index w :
  getAllTopicVerdicts w
  = match session w with
    | None => []
    | Some s =>
      omap (λ i, topicStates s !! i ≫= verdict) (seq 0 (length (topics s)))
    end.
Proof. apply getAllTopicVerdicts_omap. Qed.

Lemma getIncompleteTopics_collect s :
  ∀ (topic : Topic) i (acc : list Incomplete),
    match topicStates s !! i with
    | Some state =>
      if bool_decide (status state = NOT_STARTED) || bool_decide (status state = PROBING)
      then acc ++ [{| incomplete_topic := topic; incomplete_index := i |}]
      else acc
    | None => acc
    end
    = acc ++ option_list
               (state ← topicStates s !! i;
                if bool_decide (status state = DONE) then None
                else Some {| incomplete_topic := topic; incomplete_index := i |}).
Proof.
  intros topic i acc. destruct (topicStates s !! i) as [[[] qa v]|]; simpl;
    by rewrite ?app_nil_r.
Qed.

Lemma getCompletedTopics_collect s :
  ∀ (topic : Topic) i (acc : list Completed),
    match topicStates s !! i with
    | Some {| status := DONE; verdict := Some v |} =>
      acc ++ [{| completed_topic := topic; completed_verdict := v |}]
    | _ => acc
    end
    = acc ++ option_list
               (state ← topicStates s !! i;
                if bool_decide (status state = DONE) then
                  v ← verdict state;
                  Some {| completed_topic := topic; completed_verdict := v |}
                else None).
Proof.
  intros topic i acc. destruct (topicStates s !! i) as [[[] qa [v|]]|]; simpl;
    by rewrite ?app_nil_r.
Qed.

(** X11: in a session within its invariants, every topic is either
    completed or incomplete: [getCompletedTopics] and [getIncompleteTopics]
    together have one entry per topic.  The incomplete ones are the topics
    whose state is not done, each with its position; the completed ones are
    the topics whose state is done, each with the verdict of that state,
    which is then among [getAllTopicVerdicts]. *)
Theorem completed_or_incomplete w s :
  session w = Some s →
  session_ok s →
  length (getCompletedTopics w) + length (getIncompleteTopics w) = length (topics s)
  ∧ (∀ x, x ∈ getIncompleteTopics w ↔
          ∃ state, topics s !! incomplete_index x = Some (incomplete_topic x)
                   ∧ topicStates s !! incomplete_index x = Some state
                   ∧ status state ≠ DONE)
  ∧ (∀ c, c ∈ getCompletedTopics w ↔
          ∃ i state, topics s !! i = Some (completed_topic c)
                     ∧ topicStates s !! i = Some state
                     ∧ status state = DONE
                     ∧ verdict state = Some (completed_verdict c))
  ∧ ∀ c, c ∈ getCompletedTopics w → completed_verdict c ∈ getAllTopicVerdicts w.
Proof.
  intros Hs (Hcur & Hdom & Hok).
  assert (Hinc : ∀ x, x ∈ getIncompleteTopics w ↔
            ∃ state, topics s !! incomplete_index x = Some (incomplete_topic x)
                     ∧ topicStates s !! incomplete_index x = Some state
                     ∧ status state ≠ DONE).
  { intros x. unfold getIncompleteTopics. rewrite Hs.
    rewrite (elem_of_forEach_collect _ _ (getIncompleteTopics_collect s)). split.
    - intros [Hnil|(k & topic & Hk & Hg)]; [by apply elem_of_nil in Hnil|].
      simpl in Hg. destruct (topicStates s !! k) as [state|] eqn:Hst; [|done].
      simpl in Hg. case_bool_decide; [done|]. injection Hg as <-. by exists state.
    - intros (state & Ht & Hst & Hnd). right.
      exists (incomplete_index x), (incomplete_topic x). split; [done|].
      simpl. rewrite Hst. simpl. case_bool_decide; [done|]. by destruct x. }
  assert (Hcom : ∀ c, c ∈ getCompletedTopics w ↔
            ∃ i state, topics s !! i = Some (completed_topic c)
                       ∧ topicStates s !! i = Some state
                       ∧ status state = DONE
                       ∧ verdict state = Some (completed_verdict c)).
  { intros c. unfold getCompletedTopics. rewrite Hs.
    rewrite (elem_of_forEach_collect _ _ (getCompletedTopics_collect s)). split.
    - intros [Hnil|(k & topic & Hk & Hg)]; [by apply elem_of_nil in Hnil|].
      simpl in Hg. destruct (topicStates s !! k) as [state|] eqn:Hst; [|done].
      simpl in Hg. case_bool_decide; [|done].
      destruct (verdict state) as [v|] eqn:Hv; [|done].
      injection Hg as <-. by exists k, state.
    - intros (i & state & Ht & Hst & Hd & Hv). right.
      exists i, (completed_topic c). split; [done|].
      simpl. rewrite Hst. simpl. rewrite bool_decide_true by done.
      rewrite Hv. simpl. by destruct c. }
  split; [|split; [done|split; [done|]]].
  - unfold getCompletedTopics, getIncompleteTopics. rewrite Hs.
    rewrite (length_forEach_partition _ _ _ _ (getCompletedTopics_collect s)
               (getIncompleteTopics_collect s)); [done|].
    intros k topic Hk. simpl.
    destruct (proj2 (Hdom k)) as [state Hst]; [by eapply lookup_lt_Some|].
    rewrite Hst. simpl. case_bool_decide as Hd; [|by split; [intros []|]].
    pose proof (Hok k state Hst) as Hstate. unfold topicState_ok in Hstate.
    rewrite Hd in Hstate. destruct Hstate as [v ->]. simpl. by split.
  - intros c (i & state & Ht & Hst & _ & Hv)%Hcom.
    rewrite getAllTopicVerdicts_omap, Hs. apply list_elem_of_omap.
    exists i. split; [|by rewrite Hst].
    apply elem_of_seq. split; [lia|]. simpl. by eapply lookup_lt_Some.
Qed.

(** ** The session changes by elementary steps only *)

Lemma evolves_refl w : evolves w w.
Proof. unfold evolves. destruct (session w) as [s|]; [|done]. by exists s. Qed.

Lemma evolves_trans a b c : evolves a b → evolves b c → evolves a c.
Proof.
  unfold evolves. destruct (session a) as [sa|].
  - intros (sb & -> & Hab) (sc & -> & Hbc). exists sc. split; [done|]. by etrans.
  - by intros ->.
Qed.

Lemma evolves_same w0 w w' : session w' = session w → evolves w0 w → evolves w0 w'.
Proof. unfold evolves. by intros ->. Qed.

Lemma evolves_step w w' s s' :
  session w = Some s → session w' = Some s' → session_step s s' → evolves w w'.
Proof.
  unfold evolves. intros -> -> H. exists s'. split; [done|]. by apply rtc_once.
Qed.

Lemma evolves_saveSessionToCache q scr w : evolves w (saveSessionToCache q scr w).
Proof.
  eapply evolves_same; [apply session_saveSessionToCache|apply evolves_refl].
Qed.

Lemma evolves_clearSessionCache w : evolves w (clearSessionCache w).
Proof. by eapply evolves_same; [|apply evolves_refl]. Qed.

Lemma evolves_setProcessing b w : evolves w (setProcessing b w).
Proof. by eapply evolves_same; [|apply evolves_refl]. Qed.

Lemma evolves_setCurrentQuestion q w : evolves w (setCurrentQuestion q w).
Proof. by eapply evolves_same; [|apply evolves_refl]. Qed.

Lemma evolves_addQaToCurrentTopic q a w : evolves w (addQaToCurrentTopic q a w).
Proof.
  destruct (getCurrentTopicState w) as [ts|] eqn:Hts.
  - pose proof Hts as (s & Hs & Hlt & Hlook)%getCurrentTopicState_Some.
    eapply evolves_step; [done| |by apply (step_answer s ts q a)].
    by rewrite session_addQaToCurrentTopic, Hs, Hts.
  - eapply evolves_same; [|apply evolves_refl].
    rewrite session_addQaToCurrentTopic, Hts. by destruct (session w).
Qed.

Lemma evolves_setCurrentTopicVerdict v w :
  evolves w (setCurrentTopicVerdict (Some v) w).
Proof.
  destruct (getCurrentTopicState w) as [ts|] eqn:Hts.
  - pose proof Hts as (s & Hs & Hlt & Hlook)%getCurrentTopicState_Some.
    eapply evolves_step; [done| |by apply (step_verdict s (currentTopicIndex s) ts v)].
    by rewrite session_setCurrentTopicVerdict, Hs, Hts.
  - eapply evolves_same; [|apply evolves_refl].
    rewrite session_setCurrentTopicVerdict, Hts. by destruct (session w).
Qed.

Lemma evolves_clearPrefetchedQuestion i w : evolves w (clearPrefetchedQuestion i w).
Proof.
  destruct (session w) as [s|] eqn:Hs.
  - eapply evolves_step; [done| |apply (step_prefetch_drop s i)].
    by rewrite session_clearPrefetchedQuestion, Hs.
  - eapply evolves_same; [|apply evolves_refl].
    by rewrite session_clearPrefetchedQuestion, Hs.
Qed.

Lemma evolves_moveToNextTopic w : evolves w (moveToNextTopic w).1.
Proof.
  destruct (session w) as [s|] eqn:Hs.
  - destruct (Nat.ltb_spec (currentTopicIndex s) (length (topics s) - 1)) as [Hlt|Hge].
    + eapply evolves_step; [done| |by apply (step_next s)].
      rewrite session_moveToNextTopic, Hs. simpl.
      by destruct (Nat.ltb_spec (currentTopicIndex s) (length (topics s) - 1)); [|lia].
    + eapply evolves_same; [|apply evolves_refl].
      rewrite session_moveToNextTopic, Hs. simpl.
      by destruct (Nat.ltb_spec (currentTopicIndex s) (length (topics s) - 1)); [lia|].
  - eapply evolves_same; [|apply evolves_refl].
    by rewrite session_moveToNextTopic, Hs.
Qed.

Lemma evolves_setPrefetchedQuestion i data w :
  evolves w (setPrefetchedQuestion i data w).2.
Proof.
  destruct (setPrefetchedQuestion_spec i data w) as [->|(s & Hs & Hlt & _ & ->)];
    [apply evolves_refl|].
  eapply evolves_step; [done| |by apply (step_prefetch_store s i data)].
  by rewrite session_saveSessionToCache.
Qed.

Lemma evolves_addBackgroundVerdictPromise promise w :
  evolves w (addBackgroundVerdictPromise promise w).
Proof.
  unfold addBackgroundVerdictPromise. destruct (session w) as [s|] eqn:Hs.
  - eapply evolves_step; [done|done|apply step_promise_add].
  - eapply evolves_same; [|apply evolves_refl]. by rewrite Hs.
Qed.

Lemma evolves_clearBackgroundVerdictPromises w :
  evolves w (clearBackgroundVerdictPromises w).
Proof.
  unfold clearBackgroundVerdictPromises. destruct (session w) as [s|] eqn:Hs.
  - eapply evolves_step; [done|done|apply step_promises_drop].
  - eapply evolves_same; [|apply evolves_refl]. by rewrite Hs.
Qed.

Lemma evolves_assign_verdict index v w w' :
  assign_verdict index (Some v) w = Some w' → evolves w w'.
Proof.
  intros (s & ts & Hs & Hts & ->)%session_assign_verdict.
  eapply evolves_step; [done|done|by apply step_verdict].
Qed.

(** Closes [evolves w0 (op1 (op2 ... w))] from [evolves w0 w], one operation
    at a time. *)
Ltac evolve_step :=
  lazymatch goal with
  | |- evolves _ (saveSessionToCache _ _ _) => apply evolves_saveSessionToCache
  | |- evolves _ (clearSessionCache _) => apply evolves_clearSessionCache
  | |- evolves _ (setProcessing _ _) => apply evolves_setProcessing
  | |- evolves _ (setCurrentQuestion _ _) => apply evolves_setCurrentQuestion
  | |- evolves _ (addQaToCurrentTopic _ _ _) => apply evolves_addQaToCurrentTopic
  | |- evolves _ (setCurrentTopicVerdict _ _) => apply evolves_setCurrentTopicVerdict
  | |- evolves _ (clearPrefetchedQuestion _ _) => apply evolves_clearPrefetchedQuestion
  | |- evolves _ (moveToNextTopic _).1 => apply evolves_moveToNextTopic
  | |- evolves _ (setPrefetchedQuestion _ _ _).2 => apply evolves_setPrefetchedQuestion
  | |- evolves _ (addBackgroundVerdictPromise _ _) =>
    apply evolves_addBackgroundVerdictPromise
  | |- evolves _ (clearBackgroundVerdictPromises _) =>
    apply evolves_clearBackgroundVerdictPromises
  end.

Ltac evolve :=
  solve [ repeat first [ eassumption | apply evolves_refl
                       | eapply evolves_trans; [|evolve_step] ] ].

Lemma verdict_of_validated output :
  validateTopicAgentFinal output = Valid → ∃ v, verdict_of output = Some v.
Proof.
  intros (out & v & -> & _ & _ & Hv)%validateTopicAgentFinal_Valid.
  exists v. by unfold verdict_of.
Qed.

Lemma verdict_of_final output :
  is_final_with_verdict output = true → ∃ v, verdict_of output = Some v.
Proof.
  intros (out & v & -> & _ & Hv)%is_final_with_verdict_true.
  exists v. by unfold verdict_of.
Qed.

Lemma evolving_prefetch_resume idx topic r w :
  segments evolves w (prefetch_resume idx topic r w).
Proof.
  unfold prefetch_resume. destruct r as [output|error]; simpl; [|apply evolves_refl].
  destruct (validateTopicAgentAsk output); simpl; [|apply evolves_refl].
  destruct output as [out|]; simpl; [|apply evolves_refl].
  destruct (question_text (Some out)) as [t|]; simpl; [|apply evolves_refl].
  match goal with |- context [setPrefetchedQuestion ?i ?d ?w] =>
    pose proof (evolves_setPrefetchedQuestion i d w) as H;
    destruct (setPrefetchedQuestion i d w) as [evs w1] end.
  rewrite try_catch_emit_all. apply segments_emit_all. simpl. exact H.
Qed.

Lemma evolving_prefetchNextTopicQuestion w :
  segments evolves w (prefetchNextTopicQuestion w).
Proof.
  destruct (prefetchNextTopicQuestion_shape w) as [->|(c & i & t & ->)]; simpl.
  - apply evolves_refl.
  - split; [apply evolves_refl|]. intros r w'. apply evolving_prefetch_resume.
Qed.

Lemma evolving_backgroundVerdict_resume K r w :
  segments evolves w (backgroundVerdict_resume K r w).
Proof.
  unfold backgroundVerdict_resume.
  destruct r as [[out|]|]; simpl; try apply evolves_refl.
  destruct (validateTopicAgentFinal (Some out)) eqn:Hv; simpl; [|apply evolves_refl].
  apply validateTopicAgentFinal_Valid in Hv as (out' & v & [= <-] & _ & _ & Hov).
  destruct (getSession w); simpl; [|apply evolves_refl]. rewrite Hov.
  destruct (assign_verdict K (Some v) w) as [w1|] eqn:Ha; simpl; [|apply evolves_refl].
  eapply evolves_trans; [by eapply evolves_assign_verdict|].
  apply evolves_saveSessionToCache.
Qed.

Lemma evolving_from w0 w o :
  evolves w0 w → segments evolves w o → segments evolves w0 o.
Proof. apply segments_trans, evolves_trans. Qed.

Lemma evolving_spawn_prefetch w0 w :
  evolves w0 w →
  segments evolves w0 (not_awaited (prefetchNextTopicQuestion w) Return).
Proof.
  intros H. apply segments_not_awaited; [apply evolves_trans| |].
  - eapply evolving_from; [done|]. apply evolving_prefetchNextTopicQuestion.
  - intros w'. apply evolves_refl.
Qed.

Lemma evolves_assign_verdict_through sessionRef index v w sessionRef' w' :
  assign_verdict_through sessionRef index (Some v) w = Some (sessionRef', w') →
  evolves w w'.
Proof.
  intros (_ & _ & _ & _ & [Hs|Ha])%assign_verdict_through_spec.
  - eapply evolves_same; [exact Hs|apply evolves_refl].
  - by eapply evolves_assign_verdict.
Qed.

Lemma evolving_finalizeIncomplete sessionRef owner incompleteTopics rest w0 w :
  (∀ sessionRef w, segments evolves w (rest sessionRef w)) →
  evolves w0 w →
  segments evolves w0 (finalizeIncomplete sessionRef owner incompleteTopics rest w).
Proof.
  intros Hrest. revert sessionRef owner w0 w.
  induction incompleteTopics as [|incomplete more IH];
    intros sessionRef owner w0 w Hw; simpl.
  { eapply evolving_from; eauto. }
  destruct (topicStates (deref owner w) !! _) as [topicState|]; [|done].
  destruct (0 <? length (qaList topicState)); [|by apply IH].
  simpl. split; [done|]. intros [output|error] w'; simpl; [|apply evolves_refl].
  destruct (is_final_with_verdict output) eqn:Hfinal; [|apply IH, evolves_refl].
  destruct (verdict_of_final _ Hfinal) as [v ->].
  destruct (assign_verdict_through _ _ _ w') as [[sessionRef' w'']|] eqn:Ha; simpl;
    [|apply evolves_refl].
  apply IH. by eapply evolves_assign_verdict_through.
Qed.

Lemma evolving_endInterview_summary sessionRef w :
  segments evolves w (endInterview_summary sessionRef w).
Proof.
  unfold endInterview_summary.
  destruct (_ && _); simpl; [|evolve].
  split; [evolve|]. intros r w'.
  destruct r as [[out|]|]; simpl; try evolve.
  destruct (validateSummaryResponse out); simpl; evolve.
Qed.

Lemma evolving_endInterview_afterDrain sessionRef w0 w :
  evolves w0 w → segments evolves w0 (endInterview_afterDrain sessionRef w).
Proof.
  intros Hw. unfold endInterview_afterDrain.
  by apply evolving_finalizeIncomplete; [apply evolving_endInterview_summary|].
Qed.

Lemma evolving_endInterview w : segments evolves w (endInterview w).
Proof.
  unfold endInterview. destruct (refer w); [|apply evolves_refl].
  apply segments_finally; [apply evolves_trans| |intros; evolve].
  apply segments_try_catch; [apply evolves_trans| |].
  2: { intros e w'. unfold handleError. simpl. apply evolves_refl. }
  destruct (0 <? _); simpl.
  - split; [evolve|]. intros w'. apply evolving_endInterview_afterDrain, evolves_refl.
  - apply evolving_endInterview_afterDrain. evolve.
Qed.

Lemma evolves_enter_next_topic sessionRef questionText w0 w w' :
  evolves w0 w → enter_next_topic sessionRef questionText w = Ok w' → evolves w0 w'.
Proof.
  intros H0. unfold enter_next_topic.
  destruct questionText; [|done].
  intros [= <-]. evolve.
Qed.

Lemma evolving_open_next_topic sessionRef output w0 w :
  evolves w0 w → segments evolves w0 (open_next_topic sessionRef output w).
Proof.
  intros H0. unfold open_next_topic.
  destruct (enter_next_topic _ _ w) as [w'|e] eqn:He; simpl; [|done].
  apply evolving_spawn_prefetch. by eapply evolves_enter_next_topic.
Qed.

Lemma evolving_afterNextQuestion sessionRef output w0 w :
  evolves w0 w → segments evolves w0 (afterNextQuestion sessionRef output w).
Proof.
  intros H0. unfold afterNextQuestion.
  destruct (negb _); simpl; [done|]. by apply evolving_open_next_topic.
Qed.

Lemma evolving_afterVerdictAndNext sessionRef r w :
  segments evolves w (afterVerdictAndNext sessionRef r w).
Proof.
  unfold afterVerdictAndNext. destruct r as [[output next]|]; simpl;
    [|apply evolves_refl].
  destruct (validateTopicAgentFinal output) eqn:Hv; simpl; [|apply evolves_refl].
  destruct (verdict_of_validated _ Hv) as [v ->].
  destruct (validateTopicAgentAsk next); simpl; [|evolve].
  apply evolving_open_next_topic. evolve.
Qed.

Lemma evolving_afterLastVerdict r w :
  segments evolves w (afterLastVerdict r w).
Proof.
  unfold afterLastVerdict. destruct r as [output|]; simpl; [|apply evolves_refl].
  destruct (validateTopicAgentFinal output) eqn:Hv; simpl; [|apply evolves_refl].
  destruct (verdict_of_validated _ Hv) as [v ->].
  apply segments_and_then; [apply evolves_trans| |intros; apply evolves_refl].
  eapply evolving_from; [|apply evolving_endInterview]. evolve.
Qed.

Lemma evolving_afterContinue sessionRef topicIndex r w :
  segments evolves w (afterContinue sessionRef topicIndex r w).
Proof.
  unfold afterContinue. destruct r as [output|]; simpl; [|apply evolves_refl].
  destruct (validateTopicAgentResponse output); simpl; [|apply evolves_refl].
  destruct (is_final_with_verdict output) eqn:Hfinal.
  - destruct (verdict_of_final _ Hfinal) as [v ->].
    destruct (hasMoreTopics _).
    + set (s := deref sessionRef _).
      destruct (getPrefetchedQuestion _ _) as [prefetched|].
      * apply evolving_afterNextQuestion. evolve.
      * destruct (topics s !! (currentTopicIndex s + 1));
          destruct (topicStates s !! (currentTopicIndex s + 1)); simpl; try evolve.
        split; [evolve|]. intros [next|] w'; simpl; [|apply evolves_refl].
        apply evolving_afterNextQuestion, evolves_refl.
    + apply segments_and_then; [apply evolves_trans| |intros; apply evolves_refl].
      eapply evolving_from; [|apply evolving_endInterview]. evolve.
  - destruct (is_ask_with_question output); simpl; [|apply evolves_refl].
    destruct (question_text output); simpl; [|apply evolves_refl].
    destruct (topicStates _ !! topicIndex); simpl; [|evolve].
    destruct (_ && _); simpl; [|evolve].
    apply evolving_spawn_prefetch. evolve.
Qed.

Lemma evolving_handleAnswerSubmit_try answerText cq w0 w :
  evolves w0 w →
  segments evolves w0 (handleAnswerSubmit_try answerText cq w).
Proof.
  intros H0. unfold handleAnswerSubmit_try.
  destruct (getCurrentTopic w) as [currentTopic|]; [|done].
  destruct (getCurrentTopicState w); [|done].
  destruct (session w) as [s0|]; [|done].
  destruct (session (addQaToCurrentTopic _ _ w)) as [s|]; simpl; [|evolve].
  destruct (topicStates s !! _) as [topicState|]; simpl; [|evolve].
  destruct (negb _).
  - destruct (hasMoreTopics _).
    + destruct (getPrefetchedQuestion _ _) as [prefetched|].
      * destruct (negb _); simpl; [evolve|].
        destruct (enter_next_topic _ _ _) as [w2|] eqn:He; simpl; [|evolve].
        assert (evolves w0 w2).
        { eapply evolves_enter_next_topic; [|done]. evolve. }
        split; [split; [done|]|].
        -- intros r w'. apply evolving_backgroundVerdict_resume.
        -- apply evolving_spawn_prefetch. evolve.
      * destruct (topics s !! (currentTopicIndex s + 1));
          destruct (topicStates s !! (currentTopicIndex s + 1)); simpl; try evolve.
        split; [evolve|]. intros r w'. apply evolving_afterVerdictAndNext.
    + simpl. split; [evolve|]. intros r w'. apply evolving_afterLastVerdict.
  - simpl. split; [evolve|]. intros r w'. apply evolving_afterContinue.
Qed.

Lemma evolving_handleAnswerSubmit answerInput w :
  segments evolves w (handleAnswerSubmit answerInput w).
Proof.
  unfold handleAnswerSubmit.
  destruct (isProcessingRequest w); simpl; [apply evolves_refl|].
  destruct answerInput as [value|]; simpl; [|apply evolves_refl].
  destruct (validateAnswer _); simpl; [|apply evolves_refl].
  destruct (getSession w); simpl; [|apply evolves_refl].
  destruct (getCurrentQuestion w); simpl; [|apply evolves_refl].
  unfold guarded.
  apply segments_finally; [apply evolves_trans| |intros; evolve].
  apply segments_try_catch; [apply evolves_trans| |].
  - apply evolving_handleAnswerSubmit_try. evolve.
  - intros e w'. unfold handleError. simpl. apply evolves_refl.
Qed.

(** Along every routine the session changes by elementary steps only. *)
Lemma evolving_run routine w : segments evolves w (run routine w).
Proof.
  destruct routine; simpl.
  - apply evolving_handleAnswerSubmit.
  - apply evolving_prefetchNextTopicQuestion.
  - apply evolving_endInterview.
Qed.

Lemma segments_weaken (P Q : World → World → Prop) w0 o :
  (∀ a b, P a b → Q a b) → segments P w0 o → segments Q w0 o.
Proof.
  intros HPQ. revert w0.
  induction o as [w|e w|e next IH|job IHjob next IHnext|c w k IH|c1 c2 w k IH
                  |ps w k IH|vs w k IH]; intros w0; simpl; eauto;
    intros [? ?]; eauto.
Qed.

(** X12: in every stretch of code of [handleAnswerSubmit] (the background
    verdict job it starts included), of [prefetchNextTopicQuestion] and of
    [endInterview], between any two suspension points and on whatever world
    the routine is resumed, no session appears or disappears, and the
    session at the end comes from the one at the start by elementary steps:
    an answer appended to the history of the topic at the cursor, a verdict
    written on a topic that has a state, the cursor moved on by one below
    the last topic, a prefetched question stored for a topic of the list or
    dropped, a background verdict promise added, the promises dropped. *)
Theorem session_changes_by_elementary_steps routine w :
  segments evolves w (run routine w).
Proof. apply evolving_run. Qed.

Lemma session_step_structure s s' :
  session_step s s' →
  apiKey s' = apiKey s ∧ topics s' = topics s
  ∧ enableFinalSummary s' = enableFinalSummary s
  ∧ maxQuestionsPerTopic s' = maxQuestionsPerTopic s
  ∧ dom (topicStates s') = dom (topicStates s).
Proof.
  destruct 1; simpl; repeat split; try done.
  - apply dom_insert_lookup_L. by eexists.
  - apply dom_insert_lookup_L. by eexists.
Qed.

Lemma steps_structure s s' :
  rtc session_step s s' →
  apiKey s' = apiKey s ∧ topics s' = topics s
  ∧ enableFinalSummary s' = enableFinalSummary s
  ∧ maxQuestionsPerTopic s' = maxQuestionsPerTopic s
  ∧ dom (topicStates s') = dom (topicStates s).
Proof.
  induction 1 as [|s1 s2 s3 Hstep _ IH]; [done|].
  apply session_step_structure in Hstep.
  destruct Hstep as (? & ? & ? & ? & ?), IH as (? & ? & ? & ? & ?).
  repeat split; congruence.
Qed.

(** X13: none of the three routines changes what an interview is made of:
    in every stretch of their code the API key, the topic list, the summary
    flag and the question limit of the session stay the same, and so does
    the set of positions that have a topic state; a world without a session
    stays without one. *)
Theorem routines_keep_the_plan routine w :
  segments
    (λ w0 w1,
       match session w0 with
       | None => session w1 = None
       | Some s0 =>
         ∃ s1, session w1 = Some s1
               ∧ apiKey s1 = apiKey s0 ∧ topics s1 = topics s0
               ∧ enableFinalSummary s1 = enableFinalSummary s0
               ∧ maxQuestionsPerTopic s1 = maxQuestionsPerTopic s0
               ∧ dom (topicStates s1) = dom (topicStates s0)
       end)
    w (run routine w).
Proof.
  eapply segments_weaken; [|apply evolving_run].
  intros a b. unfold evolves. destruct (session a) as [s0|]; [|done].
  intros (s1 & -> & Hsteps). exists s1. split; [done|]. by apply steps_structure.
Qed.

Lemma topicState_grows_refl ts : topicState_grows ts ts.
Proof. by repeat split. Qed.

Lemma topicState_grows_trans a b c :
  topicState_grows a b → topicState_grows b c → topicState_grows a c.
Proof.
  intros (? & ? & ?) (? & ? & ?). repeat split; [by etrans|auto|auto].
Qed.

Lemma session_step_history s s' i earlier :
  session_step s s' →
  topicStates s !! i = Some earlier →
  ∃ later, topicStates s' !! i = Some later ∧ topicState_grows earlier later.
Proof.
  intros Hstep Hi.
  destruct Hstep as [s ts q a Hlt Hts|s index ts v Hts| | | | |]; simpl;
    try (exists earlier; split; [done|apply topicState_grows_refl]).
  - destruct (decide (i = currentTopicIndex s)) as [->|Hne].
    + rewrite lookup_insert_eq. eexists. split; [done|].
      assert (earlier = ts) as -> by congruence.
      repeat split; simpl; [by apply prefix_app_r|done|done].
    + rewrite lookup_insert_ne by done. exists earlier.
      split; [done|apply topicState_grows_refl].
  - destruct (decide (i = index)) as [->|Hne].
    + rewrite lookup_insert_eq. eexists. split; [done|].
      assert (earlier = ts) as -> by congruence.
      repeat split; simpl; [done|done|by eexists].
    + rewrite lookup_insert_ne by done. exists earlier.
      split; [done|apply topicState_grows_refl].
Qed.

Lemma steps_history s s' i earlier :
  rtc session_step s s' →
  topicStates s !! i = Some earlier →
  ∃ later, topicStates s' !! i = Some later ∧ topicState_grows earlier later.
Proof.
  intros Hsteps. revert earlier.
  induction Hsteps as [|s1 s2 s3 Hstep _ IH]; intros earlier Hi.
  - exists earlier. split; [done|apply topicState_grows_refl].
  - destruct (session_step_history _ _ _ _ Hstep Hi) as (mid & Hmid & Hgrow).
    destruct (IH mid Hmid) as (later & Hlater & Hgrow').
    exists later. split; [done|]. by eapply topicState_grows_trans.
Qed.

Lemma evolves_history_kept w0 w1 : evolves w0 w1 → history_kept w0 w1.
Proof.
  unfold evolves, history_kept. intros H s0 i earlier Hs0 Hi. rewrite Hs0 in H.
  destruct H as (s1 & Hs1 & Hsteps).
  destruct (steps_history _ _ _ _ Hsteps Hi) as (later & ? & ?).
  by exists s1, later.
Qed.

(** X14: the history of a topic is append-only.  In every stretch of code
    of the three routines, a topic state that was there is still there, the
    answers it had recorded are still recorded, in the same order, at the
    head of its history; a topic that was started has not gone back to not
    started; and a verdict that was given has not been taken away. *)
Theorem history_is_append_only routine w :
  segments history_kept w (run routine w).
Proof.
  eapply segments_weaken; [|apply evolving_run]. apply evolves_history_kept.
Qed.

Lemma length_omap_mono {A B} (f g : A → option B) l :
  (∀ x, x ∈ l → is_Some (f x) → is_Some (g x)) →
  length (omap f l) ≤ length (omap g l).
Proof.
  unfold omap. induction l as [|x l IH]; intros H; simpl; [done|].
  assert (length (list_omap A B f l) ≤ length (list_omap A B g l)).
  { apply IH. intros y Hy. apply H. by right. }
  destruct (f x) eqn:Hf; simpl.
  - destruct (H x) as [y Hg]; [by left|by rewrite Hf|]. rewrite Hg. simpl. lia.
  - destruct (g x); simpl; lia.
Qed.

(** X15: verdicts are never lost: in every stretch of code of the three
    routines, [getAllTopicVerdicts] at the end has at least as many entries
    as at the start. *)
Theorem verdicts_never_decrease routine w :
  segments (λ w0 w1, length (getAllTopicVerdicts w0) ≤ length (getAllTopicVerdicts w1))
    w (run routine w).
Proof.
  eapply segments_weaken; [|apply evolving_run].
  intros a b Hab. rewrite !getAllTopicVerdicts_omap.
  pose proof Hab as Hkept%evolves_history_kept.
  unfold evolves in Hab. destruct (session a) as [s0|] eqn:Ha; [|simpl; lia].
  destruct Hab as (s1 & Hb & Hsteps). rewrite Hb.
  destruct (steps_structure _ _ Hsteps) as (_ & -> & _).
  apply length_omap_mono. intros i _ [v Hv].
  destruct (topicStates s0 !! i) as [earlier|] eqn:Hi; [|done]. simpl in Hv.
  destruct (Hkept s0 i earlier Ha Hi) as (s1' & later & Hs1' & Hlater & _ & _ & Hver).
  assert (s1' = s1) as -> by congruence. rewrite Hlater. simpl.
  apply Hver. by eexists.
Qed.

Lemma session_step_ok s s' : session_step s s' → session_ok s → session_ok s'.
Proof.
  intros Hstep (Hcur & Hdom & Hok).
  destruct Hstep as [s ts q a Hlt Hts|s index ts v Hts|s Hlt| | | |]; try done.
  - split; [done|]. split; simpl.
    + intros i. rewrite lookup_insert_is_Some, <- Hdom. split.
      * intros [<-|[_ ?]]; [by eexists|done].
      * intros ?. destruct (decide (currentTopicIndex s = i)); auto.
    + intros i ts' [[<- <-]|[_ Hi]]%lookup_insert_Some; [|by eauto].
      unfold topicState_ok. simpl. by destruct (qaList ts).
  - split; [done|]. split; simpl.
    + intros i. rewrite lookup_insert_is_Some, <- Hdom. split.
      * intros [<-|[_ ?]]; [by eexists|done].
      * intros ?. destruct (decide (index = i)); auto.
    + intros i ts' [[<- <-]|[_ Hi]]%lookup_insert_Some; [|by eauto].
      unfold topicState_ok. simpl. by eexists.
  - split; [simpl; lia|]. by split.
Qed.

Lemma steps_ok s s' : rtc session_step s s' → session_ok s → session_ok s'.
Proof. induction 1; eauto using session_step_ok. Qed.

Lemma initializeSession_ok tps key maxQuestions enableSummary w w' s :
  initializeSession tps key maxQuestions enableSummary w = (w', Ok s) →
  session w' = Some s ∧ topics s = tps ∧ session_ok s.
Proof.
  unfold initializeSession.
  destruct (Nat.eqb_spec (length tps) 0) as [|Hlen]; [done|].
  destruct (validateTopics 0 tps); [done|].
  match goal with |- context [forEach ?f ?l 0 ?s0] =>
    destruct (forEach_initial_states l 0 s0) as (m & -> & Hlook) end.
  intros [= <- <-]. rewrite session_saveSessionToCache.
  split; [done|]. split; [done|]. split; [simpl; lia|]. split; simpl.
  - intros i. rewrite Hlook. simpl. case_decide.
    + split; [lia|]. by eexists.
    + rewrite lookup_empty. split; [by intros []|lia].
  - intros i ts. rewrite Hlook. simpl. case_decide; [|by rewrite lookup_empty].
    by intros [= <-].
Qed.

(** X16: the invariants of the session are established by
    [initializeSession] and kept by the three routines.  The session
    [initializeSession] installs has its cursor on a topic and exactly one
    state per topic, each within the invariants of a topic state (not
    started: no answer and no verdict; probing: at least one answer; done:
    a verdict); and in every stretch of code of [handleAnswerSubmit],
    [prefetchNextTopicQuestion] and [endInterview], a world whose session
    has these properties at the start has them at the end. *)
Theorem session_invariants :
  (∀ tps key maxQuestions enableSummary w w' s,
     initializeSession tps key maxQuestions enableSummary w = (w', Ok s) →
     session w' = Some s ∧ world_ok w')
  ∧ ∀ routine w,
      segments (λ w0 w1, world_ok w0 → world_ok w1) w (run routine w).
Proof.
  split.
  - intros tps key maxQuestions enableSummary w w' s
      (Hs & _ & Hok)%initializeSession_ok.
    split; [done|]. intros s' Hs'. by assert (s' = s) as -> by congruence.
  - intros routine w. eapply segments_weaken; [|apply evolving_run].
    intros a b Hab Hok s1 Hs1. unfold evolves in Hab.
    destruct (session a) as [s0|] eqn:Ha; [|congruence].
    destruct Hab as (s1' & Hs1' & Hsteps).
    assert (s1' = s1) as -> by congruence.
    eapply steps_ok; [done|]. by apply Hok.
Qed.

(** ** How the routines end *)

Lemma at_every_exit_finally (Q : World → Prop) body f :
  (∀ w, Q (f w)) →
  at_every_exit (λ _, True) body →
  at_every_exit Q (finally body f).
Proof.
  intros HQ.
  induction body as [w|e w|e next IH|job IHjob next IHnext|c w k IH|c1 c2 w k IH
                     |ps w k IH|vs w k IH]; simpl; eauto.
Qed.

(** A [try] whose [catch] returns, with a [finally]: whatever the body
    does, the routine returns, on a world the [finally] has been run on. *)
Lemma at_every_exit_try_finally (Q : World → Prop) body handler f :
  (∀ w, Q (f w)) →
  (∀ e w, at_every_exit (λ _, True) (handler e w)) →
  at_every_exit Q (finally (try_catch body handler) f).
Proof.
  intros HQ Hh.
  induction body as [w|e w|e next IH|job IHjob next IHnext|c w k IH|c1 c2 w k IH
                     |ps w k IH|vs w k IH]; simpl; eauto.
  by apply at_every_exit_finally.
Qed.

Lemma at_every_exit_guarded body :
  at_every_exit (λ wf, isProcessing wf = false) (guarded body).
Proof. unfold guarded. by apply at_every_exit_try_finally. Qed.

Lemma at_every_exit_start_guarded body :
  at_every_exit (λ wf, isProcessing wf = false) (start_guarded body).
Proof. unfold start_guarded. by apply at_every_exit_try_finally. Qed.

Lemma at_every_exit_endInterview w s :
  session w = Some s →
  at_every_exit (λ wf, isProcessing wf = false) (endInterview w).
Proof.
  intros Hs. unfold endInterview, refer. rewrite Hs.
  by apply at_every_exit_try_finally.
Qed.

Lemma at_every_exit_weaken (Q Q' : World → Prop) o :
  (∀ w, Q w → Q' w) → at_every_exit Q o → at_every_exit Q' o.
Proof.
  intros HQ.
  induction o as [w|e w|e next IH|job IHjob next IHnext|c w k IH|c1 c2 w k IH
                  |ps w k IH|vs w k IH]; simpl; eauto.
Qed.

(** X17: the three entry points of the flow never throw to their caller,
    and they give the busy flag back.  On every path through its [await]s,
    whatever the requests settle with and whatever the world is when it is
    resumed, [handleAnswerSubmit] returns, either at once with the world
    untouched (turned away, or nothing to submit) or with the busy flag
    cleared; [endInterview] returns at once when there is no session and
    with the flag cleared otherwise; [startInterview] returns with the
    world untouched, or with only the cache entry removed (an input was
    rejected), or with the flag cleared. *)
Theorem routines_return_and_release_the_flag w :
  (∀ answerInput,
     at_every_exit (λ wf, wf = w ∨ isProcessing wf = false)
       (handleAnswerSubmit answerInput w))
  ∧ at_every_exit (λ wf, (wf = w ∧ session w = None) ∨ isProcessing wf = false)
      (endInterview w)
  ∧ ∀ inputs,
      start_at_every_exit
        (λ wf, wf = w ∨ wf = clearSessionCache w ∨ isProcessing wf = false)
        (startInterview inputs w).
Proof.
  split; [|split].
  - intros answerInput. unfold handleAnswerSubmit.
    destruct (isProcessingRequest w); simpl; [by left|].
    destruct answerInput as [value|]; simpl; [|by left].
    destruct (validateAnswer _); simpl; [|by left].
    destruct (getSession w); simpl; [|by left].
    destruct (getCurrentQuestion w); simpl; [|by left].
    eapply at_every_exit_weaken; [|apply at_every_exit_guarded]. by right.
  - destruct (session w) as [s|] eqn:Hs.
    + eapply at_every_exit_weaken; [|by eapply at_every_exit_endInterview].
      by right.
    + unfold endInterview, refer. rewrite Hs. simpl. by left.
  - intros inputs. unfold startInterview.
    destruct (isProcessingRequest w); simpl; [by left|].
    destruct (String.eqb _ _); simpl; [by right; left|].
    destruct (validateApiKey _); simpl; [|by right; left].
    destruct (validateJobDescription _); simpl; [|by right; left].
    destruct (validateCandidateCV _); simpl; [|by right; left].
    intros r w'. eapply at_every_exit_weaken; [|apply at_every_exit_start_guarded].
    by right; right.
Qed.

(** ** One operation at a time *)

Lemma isProcessing_initializeSession tps key maxQuestions enableSummary w :
  isProcessing (initializeSession tps key maxQuestions enableSummary w).1
  = isProcessing w.
Proof.
  unfold initializeSession. destruct (_ =? _); [done|].
  destruct (validateTopics 0 tps); [done|].
  cbn [fst]. by rewrite isProcessing_saveSessionToCache.
Qed.

Lemma busy_startInterview_afterFirstQuestion captured r w :
  at_every_await busy (startInterview_afterFirstQuestion captured r w).
Proof.
  unfold startInterview_afterFirstQuestion. destruct r as [output|]; simpl; [|done].
  destruct (validateTopicAgentAsk output); simpl; [|done].
  destruct (question_text output); simpl; [|done].
  destruct captured; simpl; [|done].
  by apply at_every_await_not_awaited.
Qed.

Lemma busy_startInterview_afterPlanner inputs r w :
  busy w → at_every_await busy (startInterview_afterPlanner inputs r w).
Proof.
  intros Hw. unfold startInterview_afterPlanner. destruct r as [output|]; simpl; [|done].
  destruct (validatePlannerResponse output); simpl; [|done].
  match goal with |- context [initializeSession ?t ?k ?m ?e w] =>
    pose proof (isProcessing_initializeSession t k m e w) as Hbusy;
    destruct (initializeSession t k m e w) as [w1 [s|e']] end; simpl in *; [|done].
  destruct (getCurrentTopic w1); simpl; [|done].
  destruct (getCurrentTopicState w1); simpl; [|done].
  split; [unfold busy in *; congruence|].
  intros r' w' _. apply busy_startInterview_afterFirstQuestion.
Qed.

Lemma startInterview_cases inputs w :
  isProcessing w = false →
  (∃ e, startInterview inputs w
        = Started (Emit (Notification e "error") (Return (clearSessionCache w))))
  ∨ startInterview inputs w
    = AwaitPlanner
        {| planner_apiKey := input_apiKey inputs;
           planner_jobDescription := trim (input_jobDescription inputs);
           planner_candidateCV := trim (input_candidateCV inputs) |}
        (setProcessing true (clearSessionCache w))
        (λ r w', start_guarded (startInterview_afterPlanner inputs r w')).
Proof.
  intros Hidle. unfold startInterview, isProcessingRequest. rewrite Hidle.
  cbn zeta.
  destruct (String.eqb _ _); [left; by eexists|].
  destruct (validateApiKey _); [|left; by eexists].
  destruct (validateJobDescription _); [|left; by eexists].
  destruct (validateCandidateCV _); [|left; by eexists].
  by right.
Qed.

(** X18: [startInterview] and [handleAnswerSubmit] exclude each other
    through the busy flag.  With the flag set [startInterview] only shows
    "Please wait, processing..." and returns with the world as it was.
    Otherwise the flag is set in the world it leaves at the Planner request
    and again at the request for the first question (as long as it is set
    in the world the routine is resumed on), so that a [handleAnswerSubmit]
    or a second [startInterview] called while it waits for the Planner is
    turned away without touching anything. *)
Theorem startInterview_holds_the_flag inputs w :
  (isProcessing w = true →
   startInterview inputs w
   = Started (Emit (Notification "Please wait, processing..." "info") (Return w)))
  ∧ start_at_every_await busy (startInterview inputs w)
  ∧ ∀ call w1 k,
      startInterview inputs w = AwaitPlanner call w1 k →
      isProcessing w1 = true
      ∧ (∀ answerInput,
           handleAnswerSubmit answerInput w1
           = Emit (Notification "Please wait, processing your answer..." "info")
               (Return w1))
      ∧ ∀ inputs',
          startInterview inputs' w1
          = Started (Emit (Notification "Please wait, processing..." "info")
                       (Return w1)).
Proof.
  assert (Hbusy : ∀ inputs0 w0, isProcessing w0 = true →
            startInterview inputs0 w0
            = Started (Emit (Notification "Please wait, processing..." "info")
                         (Return w0))).
  { intros inputs0 w0 H. unfold startInterview, isProcessingRequest. by rewrite H. }
  split; [apply Hbusy|].
  destruct (isProcessing w) eqn:Hw.
  { rewrite Hbusy by done. split; [done|]. intros call w1 k [=]. }
  destruct (startInterview_cases inputs w Hw) as [[e ->]| ->].
  { split; [done|]. intros call w1 k [=]. }
  split.
  - simpl. split; [done|]. intros r w' Hw'. unfold start_guarded.
    apply at_every_await_finally, at_every_await_try_catch; [|done].
    by apply busy_startInterview_afterPlanner.
  - intros call w1 k [= <- <- <-]. split; [done|]. split.
    + intros answerInput. by unfold handleAnswerSubmit, isProcessingRequest.
    + intros inputs'. by apply Hbusy.
Qed.

Lemma handleAnswerSubmit_suspended_session answerInput w w1 :
  suspended (handleAnswerSubmit answerInput w) = Some w1 →
  isProcessing w1 = true ∧ is_Some (session w1).
Proof.
  intros Hsusp.
  pose proof Hsusp as (value & cq & Hidle & -> & Hcq & -> & _)%handleAnswerSubmit_suspended_inv.
  rewrite isProcessing_addQaToCurrentTopic. split; [done|].
  rewrite session_addQaToCurrentTopic.
  change (session (setProcessing true w)) with (session w).
  destruct (session w) as [s|] eqn:Hs; [by destruct (getCurrentTopicState _)|].
  exfalso. revert Hsusp.
  unfold handleAnswerSubmit, isProcessingRequest, getSession. rewrite Hidle, Hs.
  by destruct (validateAnswer _).
Qed.

(** Whatever it does, the guarded body of [handleAnswerSubmit] does not
    begin by showing a notification. *)
Lemma guarded_try_not_a_notice answerText cq w message kind next :
  guarded (handleAnswerSubmit_try answerText cq w)
  ≠ Emit (Notification message kind) next.
Proof.
  unfold handleAnswerSubmit_try.
  repeat (case_match; try done).
Qed.

(** X19: [endInterview] does not consult the busy flag.  With a session it
    runs the same whether the flag is set or not, and on every path it ends
    with the flag cleared.  So when it is called while [handleAnswerSubmit]
    is waiting for a reply (there is a session and the flag is set then), it
    goes ahead, and once it has returned a further [handleAnswerSubmit] is
    no longer turned away by the flag, although the first one has not been
    resumed yet. *)
Theorem endInterview_ignores_the_flag :
  (∀ w s flag,
     session w = Some s → endInterview (setProcessing flag w) = endInterview w)
  ∧ ∀ first w w1,
      suspended (handleAnswerSubmit first w) = Some w1 →
      isProcessing w1 = true
      ∧ is_Some (session w1)
      ∧ at_every_exit
          (λ wf, isProcessing wf = false
                 ∧ ∀ second,
                     handleAnswerSubmit second wf
                     ≠ Emit (Notification "Please wait, processing your answer..." "info")
                         (Return wf))
          (endInterview w1).
Proof.
  split.
  - intros w s flag Hs. unfold endInterview, refer.
    change (session (setProcessing flag w)) with (session w).
    change (sessionObject (setProcessing flag w)) with (sessionObject w).
    by rewrite Hs.
  - intros first w w1 [Hbusy [s Hs]]%handleAnswerSubmit_suspended_session.
    split; [done|]. split; [by eexists|].
    eapply at_every_exit_weaken; [|by eapply at_every_exit_endInterview].
    intros wf Hidle. split; [done|]. intros second.
    unfold handleAnswerSubmit, isProcessingRequest. rewrite Hidle.
    destruct second as [value|]; [|done].
    destruct (validateAnswer _); [|done].
    destruct (getSession wf); [|done].
    destruct (getCurrentQuestion wf); [|done].
    apply guarded_try_not_a_notice.
Qed.

(** ** Starting an interview *)

Lemma validateApiKey_empty : validateApiKey "" = Invalid "API key is required".
Proof. done. Qed.

(** X20: [startInterview] clears the cached session before it looks at its
    inputs.  Called with the busy flag clear, it first removes the cache
    entry (the session and the current question in memory stay); then
    either one of the three input validators rejects its input, and the
    routine shows that validator's message and returns, or all three
    accept, and the routine sets the busy flag and sends the Planner
    request with the API key and the two texts, trimmed. *)
Theorem startInterview_clears_cache_first inputs w :
  isProcessing w = false →
  let cleared := clearSessionCache w in
  session cleared = session w
  ∧ currentQuestion cleared = currentQuestion w
  ∧ hasCachedSession cleared = false
  ∧ ((∃ e, startInterview inputs w
           = Started (Emit (Notification e "error") (Return cleared))
           ∧ (validateApiKey (input_apiKey inputs) = Invalid e
              ∨ validateJobDescription (trim (input_jobDescription inputs)) = Invalid e
              ∨ validateCandidateCV (trim (input_candidateCV inputs)) = Invalid e))
     ∨ (validateApiKey (input_apiKey inputs) = Valid
        ∧ validateJobDescription (trim (input_jobDescription inputs)) = Valid
        ∧ validateCandidateCV (trim (input_candidateCV inputs)) = Valid
        ∧ startInterview inputs w
          = AwaitPlanner
              {| planner_apiKey := input_apiKey inputs;
                 planner_jobDescription := trim (input_jobDescription inputs);
                 planner_candidateCV := trim (input_candidateCV inputs) |}
              (setProcessing true cleared)
              (λ r w', start_guarded (startInterview_afterPlanner inputs r w')))).
Proof.
  intros Hidle cleared. split; [done|]. split; [done|]. split.
  { unfold hasCachedSession, cleared, clearSessionCache.
    cbn [localStorage with_localStorage]. by rewrite lookup_delete_eq. }
  unfold startInterview, isProcessingRequest. rewrite Hidle. cbn zeta. fold cleared.
  destruct (String.eqb_spec (input_apiKey inputs) "") as [Hkey|Hkey].
  { left. eexists. split; [done|]. left. rewrite Hkey. apply validateApiKey_empty. }
  destruct (validateApiKey _) as [|e] eqn:H1; [|left; eauto].
  destruct (validateJobDescription _) as [|e] eqn:H2; [|left; eauto].
  destruct (validateCandidateCV _) as [|e] eqn:H3; [|left; eauto 6].
  by right.
Qed.

Lemma startInterview_AwaitPlanner_inv inputs w call w1 k :
  startInterview inputs w = AwaitPlanner call w1 k →
  isProcessing w = false
  ∧ w1 = setProcessing true (clearSessionCache w)
  ∧ k = (λ r w', start_guarded (startInterview_afterPlanner inputs r w')).
Proof.
  destruct (isProcessing w) eqn:Hw.
  { unfold startInterview, isProcessingRequest. by rewrite Hw. }
  destruct (startInterview_cases inputs w Hw) as [[e ->]| ->]; [done|].
  by intros [= <- <- <-].
Qed.

Lemma initializeSession_valid tps key maxQuestions enableSummary w :
  tps ≠ [] → Forall valid_topic tps →
  ∃ s, initializeSession tps key maxQuestions enableSummary w
       = (saveSessionToCache None "interview" (assignSession (Some s) w), Ok s)
       ∧ apiKey s = key ∧ topics s = tps ∧ currentTopicIndex s = 0
       ∧ enableFinalSummary s = enableSummary
       ∧ maxQuestionsPerTopic s = or_Z maxQuestions 5
       ∧ prefetchedQuestions s = ∅
       ∧ backgroundVerdictPromises s = []
       ∧ ∀ i, topicStates s !! i
              = if decide (i < length tps) then Some initialTopicState else None.
Proof.
  intros Hne Hall. unfold initializeSession.
  destruct tps as [|t tps]; [done|]. cbn [length Nat.eqb].
  apply (validateTopics_None 0) in Hall. rewrite Hall.
  match goal with |- context [forEach ?f ?l 0 ?s0] =>
    destruct (forEach_initial_states l 0 s0) as (m & Hm & Hlook) end.
  eexists. split; [reflexivity|]. rewrite Hm. simpl.
  repeat split; try done; [by rewrite orb_false_r|].
  intros i. rewrite Hlook. simpl. repeat case_decide; try lia; done.
Qed.

Lemma returned_start_guarded_spawn_prefetch w :
  returned (start_guarded (not_awaited (prefetchNextTopicQuestion w) Return))
  = Some (setProcessing false w).
Proof.
  destruct (prefetchNextTopicQuestion_shape w) as [->|(c & i & t & ->)]; done.
Qed.

(** When nothing is stored for the next topic and it has no answer yet,
    [prefetchNextTopicQuestion] asks for its opening question if there is
    such a topic. *)
Lemma prefetchNextTopicQuestion_fresh w s :
  session w = Some s →
  prefetchedQuestions s !! (currentTopicIndex s + 1) = None →
  (∀ topicState, topicStates s !! (currentTopicIndex s + 1) = Some topicState →
                 qaList topicState = []) →
  prefetchNextTopicQuestion w
  = match topics s !! (currentTopicIndex s + 1) with
    | Some nextTopic =>
      Await (callTopicAgent (apiKey s) (name nextTopic) (required_level nextTopic)
               (maxQuestionsPerTopic s) [] None)
        w (prefetch_resume (currentTopicIndex s + 1) nextTopic)
    | None => Return w
    end.
Proof.
  intros Hs Hpre Hfresh. unfold prefetchNextTopicQuestion, getPrefetchedQuestion.
  rewrite Hs.
  destruct (Nat.leb_spec (length (topics s)) (currentTopicIndex s + 1)) as [Hge|Hlt].
  { by rewrite (lookup_ge_None_2 _ _ Hge). }
  rewrite Hpre. rewrite bool_decide_false by (by intros []).
  destruct (topicStates s !! (currentTopicIndex s + 1)) as [[st [|qa qas] v]|] eqn:Hts;
    try done.
  by specialize (Hfresh _ eq_refl).
Qed.

(** X21: the start of an interview, when everything goes well.  Once
    [startInterview] waits for the Planner, a reply that passes
    [validatePlannerResponse] with a list of valid topics makes it install a
    fresh session (cursor 0, the API key and the summary flag of the inputs,
    the configured question limit or 5, within the session invariants) on
    whatever world it is resumed, and ask for the first question of the
    first topic with an empty history; and when that request brings a valid
    question and the routine goes on from the world it left, it returns
    with that session, the question as current question at topic 0, the
    busy flag cleared and the cache holding the session together with the
    question, having sent one more request: the prefetch for the second
    topic, if there is one. *)
Theorem startInterview_happy_path inputs w call w1 k plan tps w' :
  startInterview inputs w = AwaitPlanner call w1 k →
  validatePlannerResponse (Some plan) = Valid →
  plan_topics plan = Some tps →
  Forall valid_topic tps →
  let limit := or_Z (default 0%Z (config_maxQuestionsPerTopic inputs)) 5 in
  ∃ s firstTopic w2 k2,
    head tps = Some firstTopic
    ∧ session w2 = Some s ∧ session_ok s
    ∧ topics s = tps ∧ currentTopicIndex s = 0
    ∧ apiKey s = input_apiKey inputs
    ∧ enableFinalSummary s = input_enableFinalSummary inputs
    ∧ maxQuestionsPerTopic s = limit
    ∧ isProcessing w2 = isProcessing w'
    ∧ k (Fulfilled (Some plan)) w'
      = Await (callTopicAgent (input_apiKey inputs) (name firstTopic)
                 (required_level firstTopic) limit [] None) w2 k2
    ∧ ∀ out q,
        validateTopicAgentAsk (Some out) = Valid →
        out_question out = Some q →
        ∃ wf,
          returned (k2 (Fulfilled (Some out)) w2) = Some wf
          ∧ session wf = Some s
          ∧ currentQuestion wf = Some {| cq_text := text q; cq_topicIndex := 0 |}
          ∧ isProcessing wf = false
          ∧ localStorage wf !! CACHE_KEY
            = Some (JSON_stringify
                      (cacheData_of (Some {| cq_text := text q; cq_topicIndex := 0 |})
                         "interview" s w2))
          ∧ issued (k2 (Fulfilled (Some out)) w2)
            = match tps !! 1 with
              | Some second =>
                [callTopicAgent (input_apiKey inputs) (name second)
                   (required_level second) limit [] None]
              | None => []
              end.
Proof.
  intros (Hidle & -> & ->)%startInterview_AwaitPlanner_inv Hplan Htps Hall limit.
  assert (Hne : tps ≠ []).
  { apply validatePlannerResponse_Valid in Hplan
      as (out & t & rest & [= <-] & _ & Ht). congruence. }
  destruct (initializeSession_valid tps (input_apiKey inputs) limit
              (input_enableFinalSummary inputs) w' Hne Hall)
    as (s & Hinit & Hkey & Htopics & Hcur & Hsum & Hmax & Hpre & Hprom & Hstates).
  destruct (initializeSession_ok _ _ _ _ _ _ _ Hinit) as (Hs2 & _ & Hok).
  set (w2 := saveSessionToCache None "interview" (assignSession (Some s) w')) in *.
  destruct tps as [|firstTopic rest] eqn:Etps; [done|]. rewrite <- Etps in *.
  assert (Hfirst : topics s !! 0 = Some firstTopic) by (by rewrite Htopics, Etps).
  assert (Htopic : getCurrentTopic w2 = Some firstTopic).
  { unfold getCurrentTopic. rewrite Hs2, Hcur, Htopics, Etps. done. }
  assert (Hstate : getCurrentTopicState w2 = Some initialTopicState).
  { apply getCurrentTopicState_Some. exists s. rewrite Hcur, Htopics, Hstates, Etps.
    split; [done|]. split; [simpl; lia|]. by rewrite decide_True by (simpl; lia). }
  assert (Hlimit : maxQuestionsPerTopic s = limit).
  { rewrite Hmax. unfold limit, or_Z.
    destruct (default 0%Z (config_maxQuestionsPerTopic inputs) =? 0)%Z eqn:E; [done|].
    by rewrite E. }
  assert (Hbusy : isProcessing w2 = isProcessing w')
    by (unfold w2; by rewrite isProcessing_saveSessionToCache).
  eexists s, firstTopic, w2, _.
  split; [by rewrite Etps|]. do 8 (split; [done|]).
  split.
  { unfold startInterview_afterPlanner. rewrite Hplan. simpl. rewrite Htps. simpl.
    fold limit. rewrite Hinit, Htopic, Hstate.
    unfold start_guarded. simpl. reflexivity. }
  intros out q Hask Hq. cbn beta.
  assert (Ht : question_text (Some out) = Some (text q)).
  { unfold question_text. simpl. by rewrite Hq. }
  unfold startInterview_afterFirstQuestion. rewrite Hask, Ht.
  unfold refer. rewrite Hs2. cbn [mbind option_bind].
  rewrite (deref_global _ w2 s) by done. rewrite Hcur.
  cbn zeta.
  set (cq := {| cq_text := text q; cq_topicIndex := 0 |}).
  set (w3 := saveSessionToCache (getCurrentQuestion (setCurrentQuestion (Some cq) w2))
               "interview" (setCurrentQuestion (Some cq) w2)).
  assert (Hs3 : session w3 = Some s) by (unfold w3; by rewrite session_saveSessionToCache).
  exists (setProcessing false w3).
  split.
  { change (finally (try_catch ?b ?h) ?f) with (start_guarded b).
    apply returned_start_guarded_spawn_prefetch. }
  split; [done|].
  split.
  { cbn [currentQuestion setProcessing]. unfold w3.
    by rewrite currentQuestion_saveSessionToCache. }
  split; [done|]. split.
  { cbn [localStorage setProcessing]. unfold w3.
    rewrite (localStorage_saveSessionToCache _ _ _ s) by done.
    by rewrite lookup_insert_eq. }
  rewrite (prefetchNextTopicQuestion_fresh w3 s Hs3).
  - rewrite Hcur, Htopics, Hkey, Hlimit. simpl.
    destruct (tps !! 1) as [second|]; done.
  - by rewrite Hpre.
  - intros ts. rewrite Hstates. case_decide; [|done]. by intros [= <-].
Qed.

(** ** Retrying a request *)

Lemma fetchWithRetry_from_spec fetch retryConfig iterations attempt lastError evs result :
  fetchWithRetry_from fetch retryConfig iterations attempt lastError = (evs, result) →
  (Z.of_nat attempt + Z.of_nat iterations = maxRetries retryConfig + 1)%Z →
  0 < iterations →
  ∃ n, attempt ≤ n
       ∧ (Z.of_nat n ≤ maxRetries retryConfig)%Z
       ∧ (∀ i, attempt ≤ i < n → retryable retryConfig (fetch i) = true)
       ∧ ((Z.of_nat n < maxRetries retryConfig)%Z →
          retryable retryConfig (fetch n) = false)
       ∧ requests evs = seq attempt (S n - attempt)
       ∧ sleeps evs = backoff retryConfig <$> seq attempt (n - attempt)
       ∧ result = settles (fetch n).
Proof.
  revert attempt lastError evs result.
  induction iterations as [|iterations IH];
    intros attempt lastError evs result Hrun Hsum Hpos; [lia|].
  assert (Hstop : evs = [Request attempt] → result = settles (fetch attempt) →
            ((Z.of_nat attempt < maxRetries retryConfig)%Z →
             retryable retryConfig (fetch attempt) = false) →
            ∃ n, attempt ≤ n
                 ∧ (Z.of_nat n ≤ maxRetries retryConfig)%Z
                 ∧ (∀ i, attempt ≤ i < n → retryable retryConfig (fetch i) = true)
                 ∧ ((Z.of_nat n < maxRetries retryConfig)%Z →
                    retryable retryConfig (fetch n) = false)
                 ∧ requests evs = seq attempt (S n - attempt)
                 ∧ sleeps evs = backoff retryConfig <$> seq attempt (n - attempt)
                 ∧ result = settles (fetch n)).
  { intros -> -> Hlast. exists attempt.
    replace (S attempt - attempt) with 1 by lia.
    replace (attempt - attempt) with 0 by lia.
    repeat split; try done; try lia. }
  assert (Hgo : ∀ lastError' warning evs',
            retryable retryConfig (fetch attempt) = true →
            (Z.of_nat attempt < maxRetries retryConfig)%Z →
            fetchWithRetry_from fetch retryConfig iterations (S attempt) lastError'
            = (evs', result) →
            evs = Request attempt :: Warning warning
                  :: Sleep (backoff retryConfig attempt) :: evs' →
            ∃ n, attempt ≤ n
                 ∧ (Z.of_nat n ≤ maxRetries retryConfig)%Z
                 ∧ (∀ i, attempt ≤ i < n → retryable retryConfig (fetch i) = true)
                 ∧ ((Z.of_nat n < maxRetries retryConfig)%Z →
                    retryable retryConfig (fetch n) = false)
                 ∧ requests evs = seq attempt (S n - attempt)
                 ∧ sleeps evs = backoff retryConfig <$> seq attempt (n - attempt)
                 ∧ result = settles (fetch n)).
  { intros lastError' warning evs' Hretry Hlt Hrec ->.
    destruct (IH _ _ _ _ Hrec) as (n & Hle & Hmax & Hall & Hlast & Hreq & Hsl & Hres);
      [lia|lia|].
    exists n. split; [lia|]. split; [done|]. split.
    { intros i Hi. destruct (decide (i = attempt)) as [->|]; [done|]. apply Hall. lia. }
    split; [done|]. split.
    { change (requests (Request attempt :: Warning warning
                        :: Sleep (backoff retryConfig attempt) :: evs'))
        with (attempt :: requests evs').
      rewrite Hreq. by replace (S n - attempt) with (S (S n - S attempt)) by lia. }
    split; [|done].
    change (sleeps (Request attempt :: Warning warning
                    :: Sleep (backoff retryConfig attempt) :: evs'))
      with (backoff retryConfig attempt :: sleeps evs').
    rewrite Hsl. by replace (n - attempt) with (S (n - S attempt)) by lia. }
  simpl in Hrun. destruct (fetch attempt) as [response|error] eqn:Hfetch.
  - destruct (ok response) eqn:Hok.
    { injection Hrun as <- <-. apply Hstop; try done.
      intros _. unfold retryable. by rewrite Hok. }
    destruct (shouldRetry _ _ _) eqn:Hshould; simpl in Hrun.
    + destruct (Z.ltb_spec (Z.of_nat attempt) (maxRetries retryConfig)).
      * destruct (fetchWithRetry_from _ _ _ _ _) as [evs' result'] eqn:Hrec.
        injection Hrun as <- <-. eapply Hgo; try done.
        unfold retryable. by rewrite Hok, Hshould.
      * injection Hrun as <- <-. apply Hstop; try done. lia.
    + injection Hrun as <- <-. apply Hstop; try done. intros _.
      unfold retryable. by rewrite Hok, Hshould.
  - destruct (shouldRetry error None retryConfig) eqn:Hshould; simpl in Hrun.
    + destruct (Z.ltb_spec (Z.of_nat attempt) (maxRetries retryConfig)).
      * destruct (fetchWithRetry_from _ _ _ _ _) as [evs' result'] eqn:Hrec.
        injection Hrun as <- <-. eapply Hgo; try done.
      * injection Hrun as <- <-. apply Hstop; try done. lia.
    + injection Hrun as <- <-. apply Hstop; try done.
Qed.

(** X22: [fetchWithRetry] sends its requests one after the other, attempt
    0, 1, ..., and stops at the first attempt that is not to be retried (an
    ok response, a response whose status is not retryable, an exception
    that is not retryable) or at attempt [maxRetries], whichever comes
    first; it returns the response, or rethrows the exception, of that last
    attempt.  So with [maxRetries >= 0] it sends at most [maxRetries + 1]
    requests and never reaches the two [throw] statements after its loop;
    with a negative [maxRetries] it sends nothing and throws "API request
    failed after retries". *)
Theorem fetchWithRetry_outcome fetch retryConfig :
  ((0 ≤ maxRetries retryConfig)%Z →
   ∃ n, (Z.of_nat n ≤ maxRetries retryConfig)%Z
        ∧ (∀ i, i < n → retryable retryConfig (fetch i) = true)
        ∧ ((Z.of_nat n < maxRetries retryConfig)%Z →
           retryable retryConfig (fetch n) = false)
        ∧ requests (fetchWithRetry fetch retryConfig).1 = seq 0 (S n)
        ∧ (fetchWithRetry fetch retryConfig).2 = settles (fetch n))
  ∧ ((maxRetries retryConfig < 0)%Z →
     fetchWithRetry fetch retryConfig
     = ([], Thrown (mkJsError false "API request failed after retries"))).
Proof.
  unfold fetchWithRetry. split.
  - intros Hmax.
    destruct (fetchWithRetry_from fetch retryConfig
                (Z.to_nat (maxRetries retryConfig + 1)) 0 None) as [evs result] eqn:Hrun.
    apply fetchWithRetry_from_spec in Hrun
      as (n & _ & Hle & Hall & Hlast & Hreq & _ & Hres); [|lia|lia].
    exists n. split; [done|]. split; [intros i Hi; apply Hall; lia|].
    split; [done|]. split; [|done]. simpl. rewrite Hreq. f_equal; lia.
  - intros Hneg. by replace (Z.to_nat (maxRetries retryConfig + 1)) with 0 by lia.
Qed.

Lemma sum_backoff retryConfig n :
  foldr Z.add 0%Z (backoff retryConfig <$> seq 0 n)
  = (retryDelay retryConfig * (2 ^ Z.of_nat n - 1))%Z.
Proof.
  induction n as [|n IH]; [simpl; lia|].
  rewrite seq_S, fmap_app, foldr_app. simpl.
  assert (Hshift : ∀ (l : list Z) a,
            foldr Z.add a l = (foldr Z.add 0 l + a)%Z).
  { induction l as [|x l IHl]; intros a; simpl; [lia|]. rewrite IHl. lia. }
  rewrite Hshift, IH. unfold backoff.
  rewrite Nat2Z.inj_succ, Z.pow_succ_r by lia. lia.
Qed.

(** X23: the waits of [fetchWithRetry] back off exponentially.  Between
    attempt [i] and attempt [i + 1] it sleeps [retryDelay * 2^i]
    milliseconds, once, and it does not sleep after its last attempt; so
    after [n + 1] requests it has slept [retryDelay * (2^n - 1)] in all,
    which is at most [retryDelay * (2^maxRetries - 1)] (7 seconds with the
    default configuration). *)
Theorem fetchWithRetry_backoff fetch retryConfig :
  (0 ≤ maxRetries retryConfig)%Z →
  (0 ≤ retryDelay retryConfig)%Z →
  ∃ n, requests (fetchWithRetry fetch retryConfig).1 = seq 0 (S n)
       ∧ sleeps (fetchWithRetry fetch retryConfig).1
         = (λ i, retryDelay retryConfig * 2 ^ Z.of_nat i)%Z <$> seq 0 n
       ∧ foldr Z.add 0%Z (sleeps (fetchWithRetry fetch retryConfig).1)
         = (retryDelay retryConfig * (2 ^ Z.of_nat n - 1))%Z
       ∧ (foldr Z.add 0%Z (sleeps (fetchWithRetry fetch retryConfig).1)
          ≤ retryDelay retryConfig * (2 ^ maxRetries retryConfig - 1))%Z.
Proof.
  intros Hmax Hdelay. unfold fetchWithRetry.
  destruct (fetchWithRetry_from fetch retryConfig
              (Z.to_nat (maxRetries retryConfig + 1)) 0 None) as [evs result] eqn:Hrun.
  apply fetchWithRetry_from_spec in Hrun
    as (n & _ & Hle & _ & _ & Hreq & Hsl & _); [|lia|lia].
  exists n. simpl. rewrite Hreq, Hsl. replace (n - 0) with n by lia.
  split; [f_equal; lia|]. split; [done|].
  rewrite sum_backoff. split; [done|].
  apply Z.mul_le_mono_nonneg_l; [done|].
  assert (2 ^ Z.of_nat n ≤ 2 ^ maxRetries retryConfig)%Z; [|lia].
  apply Z.pow_le_mono_r; lia.
Qed.

(** ** The requests of a submission *)

Lemma issued_try_catch body handler :
  (∀ e w, issued (handler e w) = []) →
  issued (try_catch body handler) = issued body.
Proof.
  intros Hh.
  induction body as [w|e w|e next IH|job IHjob next IHnext|c w k IH|c1 c2 w k IH
                     |ps w k IH|vs w k IH]; simpl; try done.
  by rewrite IHnext.
Qed.

Lemma issued_finally body f : issued (finally body f) = issued body.
Proof.
  induction body as [w|e w|e next IH|job IHjob next IHnext|c w k IH|c1 c2 w k IH
                     |ps w k IH|vs w k IH]; simpl; try done.
  by rewrite IHnext.
Qed.







(** ** The prefetch slots *)

(** X25: one prefetch slot per topic.  For a position of the topic list,
    [setPrefetchedQuestion] stores the entry so that [getPrefetchedQuestion]
    gives it back and the other slots are as before; storing again at the
    same position overwrites (the world is as if only the second entry had
    been stored); [clearPrefetchedQuestion] empties the slot; and while the
    slot after the cursor is filled, [prefetchNextTopicQuestion] sends
    nothing.  For a position beyond the list, [setPrefetchedQuestion] only
    warns, and [getPrefetchedQuestion] gives nothing whatever is stored
    there. *)
Theorem prefetch_slot i data data' w s :
  session w = Some s →
  (i < length (topics s) →
   let w' := (setPrefetchedQuestion i data w).2 in
   getPrefetchedQuestion i w' = Some data
   ∧ (∀ j, j ≠ i → getPrefetchedQuestion j w' = getPrefetchedQuestion j w)
   ∧ (setPrefetchedQuestion i data' w').2 = (setPrefetchedQuestion i data' w).2
   ∧ getPrefetchedQuestion i (clearPrefetchedQuestion i w') = None
   ∧ (i = currentTopicIndex s + 1 → prefetchNextTopicQuestion w' = Return w'))
  ∧ (length (topics s) ≤ i →
     setPrefetchedQuestion i data w
     = ([ConsoleWarn ("Invalid topic index for prefetch: " +:+ pretty i)], w)
     ∧ getPrefetchedQuestion i w = None).
Proof.
  intros Hs. split.
  - intros Hlt.
    assert (Hset : ∀ d w0 s0, session w0 = Some s0 → topics s0 = topics s →
              (setPrefetchedQuestion i d w0).2
              = saveSessionToCache None "interview"
                  (with_session
                     (Some (with_prefetchedQuestions
                              (<[i := d]> (prefetchedQuestions s0)) s0)) w0)).
    { intros d w0 s0 Hs0 Ht. unfold setPrefetchedQuestion. rewrite Hs0, Ht.
      by destruct (Nat.leb_spec (length (topics s)) i); [lia|]. }
    cbn zeta. rewrite (Hset data w s Hs eq_refl).
    set (w' := saveSessionToCache None "interview" _).
    assert (Hs' : session w'
                  = Some (with_prefetchedQuestions
                            (<[i := data]> (prefetchedQuestions s)) s))
      by (unfold w'; by rewrite session_saveSessionToCache).
    split; [|split; [|split; [|split]]].
    + unfold getPrefetchedQuestion. rewrite Hs'. simpl.
      destruct (Nat.leb_spec (length (topics s)) i); [lia|].
      by rewrite lookup_insert_eq.
    + intros j Hj. unfold getPrefetchedQuestion. rewrite Hs', Hs. simpl.
      destruct (_ <=? _); [done|]. by rewrite lookup_insert_ne.
    + rewrite (Hset data' w' _ Hs' eq_refl), (Hset data' w s Hs eq_refl).
      unfold w', saveSessionToCache, cacheData_of, sessionData_of, with_session,
        with_localStorage, with_prefetchedQuestions. simpl.
      by rewrite !insert_insert_eq.
    + unfold getPrefetchedQuestion. rewrite session_clearPrefetchedQuestion, Hs'.
      simpl. destruct (_ <=? _); [done|]. by rewrite lookup_delete_eq.
    + intros ->. unfold prefetchNextTopicQuestion, getPrefetchedQuestion.
      rewrite Hs'. simpl.
      destruct (Nat.leb_spec (length (topics s)) (currentTopicIndex s + 1)); [lia|].
      rewrite lookup_insert_eq. by rewrite bool_decide_true by (by eexists).
  - intros Hge. unfold setPrefetchedQuestion, getPrefetchedQuestion. rewrite Hs.
    by destruct (Nat.leb_spec (length (topics s)) i); [|lia].
Qed.

(** X26: a request that settles after the session is gone changes
    nothing.  In a world without a session (as the New interview button
    leaves it), the handlers of a pending prefetch and of a pending
    background verdict return with the world exactly as it is, whatever
    they are resumed with; and [prefetchNextTopicQuestion] and
    [endInterview], called then, return at once. *)
Theorem settling_without_a_session w :
  session w = None →
  (∀ idx topic r,
     returned (prefetch_resume idx topic r w) = Some w
     ∧ thrown (prefetch_resume idx topic r w) = None)
  ∧ (∀ K r,
       returned (backgroundVerdict_resume K r w) = Some w
       ∧ thrown (backgroundVerdict_resume K r w) = None)
  ∧ prefetchNextTopicQuestion w = Return w
  ∧ endInterview w = Return w.
Proof.
  intros Hs. split; [|split; [|split]].
  - intros idx topic r. unfold prefetch_resume.
    destruct r as [output|error]; simpl; [|done].
    destruct (validateTopicAgentAsk output); simpl; [|done].
    destruct output as [out|]; simpl; [|done].
    destruct (question_text (Some out)); simpl; [|done].
    unfold setPrefetchedQuestion. by rewrite Hs.
  - intros K r. unfold backgroundVerdict_resume, getSession.
    destruct r as [[out|]|error]; simpl; try done.
    destruct (validateTopicAgentFinal (Some out)); simpl; [|done].
    by rewrite Hs.
  - unfold prefetchNextTopicQuestion. by rewrite Hs.
  - unfold endInterview, refer. by rewrite Hs.
Qed.

(** ** The end of an interview *)

Lemma getAllTopicVerdicts_clearBackgroundVerdictPromises w :
  getAllTopicVerdicts (clearBackgroundVerdictPromises w) = getAllTopicVerdicts w.
Proof.
  rewrite !getAllTopicVerdicts_omap. unfold clearBackgroundVerdictPromises.
  by destruct (session w) as [s|] eqn:Hs; [|rewrite Hs].
Qed.

(** X27: the final summary is optional and cannot fail the ending.  After
    the closing verdicts [endInterview] drops the background verdict
    promises and collects the verdicts; it asks the FinalSummary agent only
    when the summary is enabled and there is at least one verdict, handing
    over all of them in the order of the topics; and whatever that request
    settles with (a summary, one that fails validation, nothing, a
    rejection) and on whatever world the routine goes on, it throws nothing
    and ends by removing the cache entry, as it does at once when no
    summary is asked for. *)
Theorem final_summary_is_optional sessionRef w s :
  session w = Some s →
  let enabled := enableFinalSummary (deref sessionRef (clearBackgroundVerdictPromises w)) in
  backgroundVerdictPromises <$> session (clearBackgroundVerdictPromises w) = Some []
  ∧ (ref_object sessionRef = sessionObject w → enabled = enableFinalSummary s)
  ∧ (enabled && (0 <? length (getAllTopicVerdicts w)) = false →
     endInterview_summary sessionRef w
     = Return (clearSessionCache (clearBackgroundVerdictPromises w)))
  ∧ (enabled && (0 <? length (getAllTopicVerdicts w)) = true →
     ∃ k, endInterview_summary sessionRef w
          = AwaitSummary (getAllTopicVerdicts w) (clearBackgroundVerdictPromises w) k
          ∧ ∀ r w', returned (k r w') = Some (clearSessionCache w')
                    ∧ thrown (k r w') = None).
Proof.
  intros Hs enabled.
  assert (Hs' : session (clearBackgroundVerdictPromises w)
                = Some (with_backgroundVerdictPromises [] s)).
  { unfold clearBackgroundVerdictPromises. by rewrite Hs. }
  split; [by rewrite Hs'|]. split.
  { intros Href. unfold enabled.
    rewrite (deref_global _ _ (with_backgroundVerdictPromises [] s)); [done| |done].
    by destruct (objects_clearBackgroundVerdictPromises w) as [-> _]. }
  unfold endInterview_summary.
  rewrite getAllTopicVerdicts_clearBackgroundVerdictPromises. fold enabled. split.
  - by intros ->.
  - intros ->. eexists. split; [reflexivity|].
    intros [[out|]|error] w'; simpl; try done.
    by destruct (validateSummaryResponse out).
Qed.

Lemma finalizeIncomplete_skip sessionRef owner incompleteTopics rest w s :
  deref owner w = s →
  (∀ y, y ∈ incompleteTopics →
        ∃ topicState, topicStates s !! incomplete_index y = Some topicState
                      ∧ qaList topicState = []) →
  finalizeIncomplete sessionRef owner incompleteTopics rest w = rest sessionRef w.
Proof.
  intros Hs. induction incompleteTopics as [|x l IH]; intros Hempty; simpl; [done|].
  rewrite Hs. destruct (Hempty x) as (ts & -> & ->); [by left|]. simpl.
  apply IH. intros y Hy. apply Hempty. by right.
Qed.

Lemma issued_endInterview_summary sessionRef w :
  issued (endInterview_summary sessionRef w) = [].
Proof.
  unfold endInterview_summary.
  by destruct (_ && _).
Qed.

(** X28: the closing verdicts of [endInterview].  When no background
    verdict is pending, [endInterview] goes through the incomplete topics
    in the order of the topic list and skips those without an answer; if
    none has an answer it sends no request to the TopicAgent at all (those
    topics end without a verdict).  Otherwise its first request is for the
    first incomplete topic that has an answer, with the session's API key
    and question limit, the whole history of that topic, and its last
    answer. *)
Theorem endInterview_closing_request w s :
  session w = Some s →
  backgroundVerdictPromises s = [] →
  ((∀ y, y ∈ getIncompleteTopics w →
         ∃ topicState, topicStates s !! incomplete_index y = Some topicState
                       ∧ qaList topicState = []) →
   issued (endInterview w) = [])
  ∧ ∀ skipped x later topicState,
      getIncompleteTopics w = skipped ++ x :: later →
      (∀ y, y ∈ skipped →
            ∃ topicState, topicStates s !! incomplete_index y = Some topicState
                          ∧ qaList topicState = []) →
      topicStates s !! incomplete_index x = Some topicState →
      qaList topicState ≠ [] →
      issued (endInterview w)
      = [callTopicAgent (apiKey s) (name (incomplete_topic x))
           (required_level (incomplete_topic x)) (maxQuestionsPerTopic s)
           (qaList topicState) (last_answer (qaList topicState))].
Proof.
  intros Hs Hnone.
  set (sessionRef := mkSessionRef (sessionObject w) s).
  assert (Href : deref sessionRef (setProcessing true w) = s)
    by (by apply deref_global).
  assert (Hend : issued (endInterview w)
                 = issued (finalizeIncomplete sessionRef sessionRef
                             (getIncompleteTopics w)
                             endInterview_summary (setProcessing true w))).
  { unfold endInterview, endInterview_afterDrain, refer,
      getAllBackgroundVerdictPromises. rewrite Hs.
    cbn [mbind option_bind]. fold sessionRef.
    rewrite issued_finally, issued_try_catch by done.
    change (session (setProcessing true w)) with (session w).
    change (sessionObject (setProcessing true w)) with (sessionObject w).
    rewrite Hs, Hnone. cbn [mbind option_bind default]. by fold sessionRef. }
  rewrite Hend. split.
  - intros Hempty.
    rewrite (finalizeIncomplete_skip _ _ _ _ _ s); [|done|done].
    apply issued_endInterview_summary.
  - intros skipped x later topicState -> Hskipped Hx Hanswers.
    induction skipped as [|y skipped IH]; simpl.
    + rewrite Href, Hx.
      destruct (qaList topicState) as [|qa qas] eqn:Hqa; [done|]. done.
    + rewrite Href.
      destruct (Hskipped y) as (ts & -> & ->); [by left|]. simpl.
      apply IH. intros z Hz. apply Hskipped. by right.
Qed.

(** ** Trimmed input *)


















(** ** A start that fails *)

Lemma startInterview_afterPlanner_valid inputs plan tps w' :
  validatePlannerResponse (Some plan) = Valid →
  plan_topics plan = Some tps →
  Forall valid_topic tps →
  let limit := or_Z (default 0%Z (config_maxQuestionsPerTopic inputs)) 5 in
  ∃ s firstTopic,
    head tps = Some firstTopic
    ∧ topics s = tps
    ∧ initializeSession tps (input_apiKey inputs) limit
        (input_enableFinalSummary inputs) w'
      = (saveSessionToCache None "interview" (assignSession (Some s) w'), Ok s)
    ∧ start_guarded (startInterview_afterPlanner inputs (Fulfilled (Some plan)) w')
      = Await (callTopicAgent (input_apiKey inputs) (name firstTopic)
                 (required_level firstTopic) limit [] None)
          (saveSessionToCache None "interview" (assignSession (Some s) w'))
          (λ r w, start_guarded
                    (startInterview_afterFirstQuestion
                       (refer (saveSessionToCache None "interview"
                                 (assignSession (Some s) w'))) r w)).
Proof.
  intros Hplan Htps Hall limit.
  assert (Hne : tps ≠ []).
  { apply validatePlannerResponse_Valid in Hplan
      as (out & t & rest & [= <-] & _ & Ht). congruence. }
  destruct (initializeSession_valid tps (input_apiKey inputs) limit
              (input_enableFinalSummary inputs) w' Hne Hall)
    as (s & Hinit & Hkey & Htopics & Hcur & Hsum & Hmax & Hpre & Hprom & Hstates).
  destruct (initializeSession_ok _ _ _ _ _ _ _ Hinit) as (Hs2 & _ & Hok).
  set (w2 := saveSessionToCache None "interview" (assignSession (Some s) w')) in *.
  destruct tps as [|firstTopic rest] eqn:Etps; [done|]. rewrite <- Etps in *.
  assert (Htopic : getCurrentTopic w2 = Some firstTopic).
  { unfold getCurrentTopic. rewrite Hs2, Hcur, Htopics, Etps. done. }
  assert (Hstate : getCurrentTopicState w2 = Some initialTopicState).
  { apply getCurrentTopicState_Some. exists s. rewrite Hcur, Htopics, Hstates, Etps.
    split; [done|]. split; [simpl; lia|]. by rewrite decide_True by (simpl; lia). }
  exists s, firstTopic. split; [by rewrite Etps|]. split; [done|]. split; [done|].
  unfold startInterview_afterPlanner. rewrite Hplan. simpl. rewrite Htps. simpl.
  fold limit. by rewrite Hinit, Htopic, Hstate.
Qed.

(** X30: what a failed start leaves behind.  When the Planner request is
    rejected or its reply fails validation, [startInterview] logs the error,
    shows it after "Error: ", clears the busy flag and changes nothing else:
    no session is installed.  When the Planner step succeeded but the
    request for the first question is rejected or brings no valid question,
    the routine ends in the same way, but the session [initializeSession]
    installed stays in place and in the cache, with the current question
    the world had before and no current question in the cache document. *)
Theorem startInterview_failures inputs w call w1 k :
  startInterview inputs w = AwaitPlanner call w1 k →
  (∀ r w',
     match r with
     | Rejected _ => True
     | Fulfilled plan => validatePlannerResponse plan ≠ Valid
     end →
     ∃ e, k r w'
          = Emit (ConsoleError ("Error starting interview: " +:+ e))
              (Emit (Notification ("Error: " +:+ e) "error")
                 (Return (setProcessing false w'))))
  ∧ ∀ plan tps w' r,
      validatePlannerResponse (Some plan) = Valid →
      plan_topics plan = Some tps →
      Forall valid_topic tps →
      match r with
      | Rejected _ => True
      | Fulfilled out => validateTopicAgentAsk out ≠ Valid
      end →
      ∃ s firstCall w2 k2 e,
        k (Fulfilled (Some plan)) w' = Await firstCall w2 k2
        ∧ session w2 = Some s ∧ topics s = tps
        ∧ currentQuestion w2 = currentQuestion w'
        ∧ localStorage w2 !! CACHE_KEY
          = Some (JSON_stringify (cacheData_of None "interview" s w'))
        ∧ k2 r w2
          = Emit (ConsoleError ("Error starting interview: " +:+ e))
              (Emit (Notification ("Error: " +:+ e) "error")
                 (Return (setProcessing false w2))).
Proof.
  intros (_ & -> & ->)%startInterview_AwaitPlanner_inv. split.
  - intros r w' Hbad. unfold start_guarded, startInterview_afterPlanner.
    destruct r as [plan|error]; [|by eexists].
    destruct (validatePlannerResponse plan) as [|e]; [done|]. by eexists.
  - intros plan tps w' r Hplan Htps Hall Hbad.
    destruct (startInterview_afterPlanner_valid inputs plan tps w' Hplan Htps Hall)
      as (s & firstTopic & _ & Htopics & _ & Hawait).
    set (w2 := saveSessionToCache None "interview" (assignSession (Some s) w')) in *.
    assert (He : ∃ e, start_guarded (startInterview_afterFirstQuestion (refer w2) r w2)
                      = Emit (ConsoleError ("Error starting interview: " +:+ e))
                          (Emit (Notification ("Error: " +:+ e) "error")
                             (Return (setProcessing false w2)))).
    { unfold start_guarded, startInterview_afterFirstQuestion.
      destruct r as [out|error]; [|by eexists].
      destruct (validateTopicAgentAsk out) as [|e]; [done|]. by eexists. }
    destruct He as [e He].
    eexists s, _, w2, _, e. split; [exact Hawait|].
    split; [unfold w2; by rewrite session_saveSessionToCache|].
    split; [done|].
    split; [unfold w2; by rewrite currentQuestion_saveSessionToCache|].
    split; [|exact He].
    unfold w2. rewrite (localStorage_saveSessionToCache _ _ _ s) by done.
    by rewrite lookup_insert_eq.
Qed.

End Program.

(** * Scenarios *)

Local Abbreviation submit :=
  (handleAnswerSubmit sample_stringify sample_validate sample_validateSummary).

(** ** C1 *)

Lemma background_verdict_written_at_captured_index_witness :
  ∃ job next,
    submit (Some "An answer") world_prefetched = Spawn job next
    ∧ ∃ call w1,
        job = Await call w1
                (backgroundVerdict_resume sample_stringify sample_validate 0)
        ∧ currentTopicIndex <$> session w1 = Some 1.
Proof.
  eexists _, _. split; [reflexivity|].
  destruct (background_verdict_written_at_captured_index
              sample_stringify sample_validate sample_validateSummary
              (Some "An answer") world_prefetched _ _ eq_refl)
    as (s & call & w1 & Hs & Hjob & Hcursor & _).
  injection Hs as <-. by exists call, w1.
Defined.

(** The job of the scenario settles after the cursor has reached the second
    topic: the verdict lands on the first. *)
Example background_verdict_lands_on_left_topic :
  let o := submit (Some "An answer") world_prefetched in
  (w' ← returned o;
   wf ← returned (backgroundVerdict_resume sample_stringify sample_validate 0
                    (Fulfilled (Some final)) w');
   sf ← session wf;
   Some (currentTopicIndex sf, topicStates sf !! 0, topicStates sf !! 1))
  = Some (1,
          Some {| status := DONE;
                  qaList := [{| question := "What is a join?"; answer := "An answer" |}];
                  verdict := Some sql_verdict |},
          Some initialTopicState).
Proof. vm_compute. reflexivity. Qed.

(** ** C2 *)



(** ** C3 *)

Lemma prefetched_question_consumed_witness :
  ∃ wf sf,
    returned (submit (Some "An answer") world_prefetched) = Some wf
    ∧ session wf = Some sf
    ∧ currentTopicIndex sf = 1
    ∧ currentQuestion wf
      = Some {| cq_text := "Explain ownership."; cq_topicIndex := 1 |}
    ∧ prefetchedQuestions sf !! 1 = None
    ∧ isProcessing wf = false.
Proof.
  destruct (prefetched_question_consumed
              sample_stringify sample_validate sample_validateSummary)
    as (Hsubmit & _ & _).
  apply (Hsubmit "An answer" world_prefetched
           (sample_session 1 (<[1 := ownership_entry]> ∅))
           (mkCurrentQuestion "What is a join?" 0) initialTopicState
           ownership_entry "Explain ownership."); reflexivity.
Defined.

(** A prefetch for the second topic is in flight when the last answer of the
    first topic is submitted: nothing is cached at the lookup, so both
    requests are issued; the prefetch settles during the wait and stores its
    entry; the flow then moves into the second topic with the question it
    fetched itself, and the entry stays in the map. *)
Lemma late_prefetch_is_not_consumed :
  let prefetch := prefetchNextTopicQuestion sample_stringify sample_validate world_plain in
  let o := submit (Some "An answer") world_plain in
  let fetched := Fulfilled (Some final, Some (ask "What is borrowing?")) in
  suspended prefetch = Some world_plain
  ∧ (w1 ← suspended o;
     stored ← resume prefetch (Fulfilled (Some (ask "Explain ownership."))) w1;
     w2 ← returned stored;
     getPrefetchedQuestion 1 w2)
    = Some ownership_entry
  ∧ (w1 ← suspended o;
     stored ← resume prefetch (Fulfilled (Some (ask "Explain ownership."))) w1;
     w2 ← returned stored;
     o' ← resumeAll2 o fetched w2;
     wf ← returned o';
     sf ← session wf;
     Some (currentTopicIndex sf, currentQuestion wf, prefetchedQuestions sf !! 1))
    = Some (1,
            Some {| cq_text := "What is borrowing?"; cq_topicIndex := 1 |},
            Some ownership_entry).
Proof. vm_compute. repeat split. Qed.

(** ** C4 *)

(** With the flag set the call throws nothing and shows no error: it posts
    an informational notice and returns. *)
Lemma busy_call_does_not_throw :
  isProcessing world_busy = true
  ∧ thrown (submit (Some "An answer") world_busy) = None
  ∧ events (submit (Some "An answer") world_busy)
    = [Notification "Please wait, processing your answer..." "info"]
  ∧ returned (submit (Some "An answer") world_busy) = Some world_busy.
Proof. vm_compute. repeat split. Qed.

Lemma handleAnswerSubmit_while_busy_witness :
  ∃ w1,
    suspended (submit (Some "An answer") world_plain) = Some w1
    ∧ isProcessing w1 = true
    ∧ submit (Some "Another answer") w1
      = Emit (Notification "Please wait, processing your answer..." "info") (Return w1).
Proof.
  eexists. split; [reflexivity|].
  destruct (handleAnswerSubmit_while_busy
              sample_stringify sample_validate sample_validateSummary)
    as (_ & Hsecond & _).
  destruct (Hsecond (Some "An answer") (Some "Another answer") world_plain _ eq_refl)
    as (_ & Hflag & Hturned).
  split; [exact Hflag|exact Hturned].
Defined.

(** ** C5 *)

Example shouldContinue_four_of_five :
  shouldContinueCurrentTopic (world_with_history (take 4 five_answers)) = true.
Proof. reflexivity. Qed.

Example shouldContinue_five_of_five :
  shouldContinueCurrentTopic (world_with_history five_answers) = false.
Proof. reflexivity. Qed.

Lemma shouldContinueCurrentTopic_false_iff_witness :
  shouldContinueCurrentTopic (world_with_history five_answers) = false
  ↔ (5 ≤ Z.of_nat (length five_answers))%Z ∨ PROBING = DONE.
Proof.
  exact (shouldContinueCurrentTopic_false_iff
           (world_with_history five_answers) _
           {| status := PROBING; qaList := five_answers; verdict := None |}
           eq_refl eq_refl).
Defined.

(** The request after the last answer of a topic is rejected, the user
    submits again: the topic now holds two answers against a limit of one
    and is still probing, and [shouldContinueCurrentTopic] is false although
    the count is not equal to the limit and the status is not done. *)
Lemma shouldContinue_false_past_the_limit :
  let o := submit (Some "An answer") world_plain in
  let failed := Rejected "Network request failed" in
  ∃ wa wb sb topicState,
    (w1 ← suspended o; o' ← resumeAll2 o failed w1; returned o') = Some wa
    ∧ suspended (submit (Some "Once more") wa) = Some wb
    ∧ session wb = Some sb
    ∧ getCurrentTopicState wb = Some topicState
    ∧ shouldContinueCurrentTopic wb = false
    ∧ Z.of_nat (length (qaList topicState)) ≠ maxQuestionsPerTopic sb
    ∧ status topicState ≠ DONE.
Proof.
  eexists _, _, _, _.
  split; [vm_compute; reflexivity|]. split; [vm_compute; reflexivity|].
  split; [reflexivity|]. split; [vm_compute; reflexivity|].
  split; [reflexivity|]. split; [vm_compute; discriminate|discriminate].
Qed.

(** ** C6 *)

Lemma save_load_roundtrip_witness :
  let saved := saveSessionToCache tagged_stringify (currentQuestion world_prefetched)
                 "interview" world_prefetched in
  (∃ w' r,
     loadSessionFromCache (tagged_parse saved_document) (reloaded (localStorage saved) 0)
     = (w', Some r)
     ∧ session w' = Some (restored_session r)
     ∧ topics (restored_session r) = [topic_sql; topic_rust]
     ∧ currentTopicIndex (restored_session r) = 0
     ∧ backgroundVerdictPromises (restored_session r) = [])
  ∧ loadSessionFromCache (tagged_parse saved_document) (reloaded ∅ 0)
    = (reloaded ∅ 0, None).
Proof.
  intros saved.
  destruct (save_load_roundtrip tagged_stringify (tagged_parse saved_document))
    as (Hsaved & _ & Hnone).
  split; [|by apply Hnone].
  destruct (Hsaved world_prefetched (sample_session 1 (<[1 := ownership_entry]> ∅))
              (currentQuestion world_prefetched) "interview"
              (reloaded (localStorage saved) 0) eq_refl)
    as (w' & r & Hload & Hs & Htopics & _ & Hcursor & Hpromises).
  { split; [discriminate|reflexivity]. }
  { reflexivity. }
  exists w', r. repeat split; assumption.
Defined.

(** A text other than the one written for the document is not loaded: the
    cache entry is removed and no session is installed. *)
Example loadSessionFromCache_other_text :
  let w0 := reloaded (<[CACHE_KEY := "{screen:setup,cursor:0}"]> ∅) 0 in
  loadSessionFromCache (tagged_parse saved_document) w0
  = (clearSessionCache w0, None).
Proof. vm_compute. reflexivity. Qed.

(** ** C7 *)

Lemma cursor_monotone_and_bounded_witness :
  (moveToNextTopic sample_stringify world_plain).2 = true
  ∧ (currentTopicIndex <$> session (moveToNextTopic sample_stringify world_plain).1)
    = Some 1
  ∧ moveToNextTopic sample_stringify
      (moveToNextTopic sample_stringify world_plain).1
    = ((moveToNextTopic sample_stringify world_plain).1, false).
Proof.
  destruct (cursor_monotone_and_bounded
              sample_stringify sample_validate sample_validateSummary)
    as (Hlast & Hearlier & _).
  destruct (Hearlier world_plain (sample_session 1 ∅) eq_refl) as [Htrue Hmoved].
  { simpl. lia. }
  split; [exact Htrue|]. split; [by rewrite Hmoved|].
  apply (Hlast _ _ Hmoved). simpl. lia.
Defined.

(** ** C8 *)


Example initializeSession_rejects_importance_6 :
  (initializeSession sample_stringify [topic_sql; mkTopic "Go" 6 "basic" []]
     "sk-sample" 5 false world_plain).2
  = Error "Topic Go has invalid importance: 6".
Proof. vm_compute. reflexivity. Qed.

Example initializeSession_rejects_unknown_level :
  (initializeSession sample_stringify [mkTopic "Go" 2 "expert" []]
     "sk-sample" 5 false world_plain).2
  = Error "Topic Go has invalid required_level: expert".
Proof. vm_compute. reflexivity. Qed.

Example initializeSession_rejects_empty_list :
  (initializeSession sample_stringify [] "sk-sample" 5 false world_plain).2
  = Error "Topics array must be non-empty".
Proof. reflexivity. Qed.

(** ** C9 *)

(** A rejected prefetch, settling after the user has moved on, leaves the
    world as it is and logs a warning. *)
Example rejected_prefetch_only_logs :
  let w' := setProcessing true world_prefetched in
  let o := prefetch_resume sample_stringify sample_validate 1 topic_rust
             (Rejected "Network request failed") w' in
  returned o = Some w'
  ∧ events o
    = [ConsoleWarn "Failed to prefetch question for topic 1: Network request failed"].
Proof. vm_compute. repeat split. Qed.

(** ** C10 *)

Lemma saveSessionToCache_independent_of_apiKey_witness :
  localStorage
    (saveSessionToCache sample_stringify None "interview"
       (with_session (Some (sample_session 1 ∅)) world_plain))
  = localStorage
      (saveSessionToCache sample_stringify None "interview"
         (with_session (Some (with_apiKey "sk-other" (sample_session 1 ∅))) world_plain)).
Proof.
  exact (saveSessionToCache_independent_of_apiKey sample_stringify
           (sample_session 1 ∅) (with_apiKey "sk-other" (sample_session 1 ∅))
           None "interview" world_plain
           eq_refl eq_refl eq_refl eq_refl eq_refl eq_refl).
Defined.

(** ** Restoring, starting and retrying *)

Lemma sample_session_ok maxQuestions prefetched :
  session_ok (sample_session maxQuestions prefetched).
Proof.
  split; [simpl; lia|]. split.
  - intros i. simpl. rewrite !lookup_insert_is_Some, lookup_empty. split.
    + intros [<-|[? [<-|[? []%is_Some_None]]]]; lia.
    + intros ?. destruct i as [|[|i]]; [by left|right; split; [done|by left]|lia].
  - intros i topicState. simpl. rewrite !lookup_insert_Some, lookup_empty.
    by intros [[_ <-]|[_ [[_ <-]|[_ ?]]]].
Qed.

Lemma restoreSessionFromCache_after_save_witness :
  ∃ w',
    restoreSessionFromCache (sample_parse (parsed_of saved_document))
      (reloaded
         (localStorage
            (saveSessionToCache sample_stringify (currentQuestion world_prefetched)
               "interview" world_prefetched)) 0)
    = (w', true)
    ∧ currentQuestion w' = Some (mkCurrentQuestion "What is a join?" 0).
Proof.
  destruct (restoreSessionFromCache_after_save sample_stringify
              (sample_parse (parsed_of saved_document)) world_prefetched
              (sample_session 1 (<[1 := ownership_entry]> ∅))
              (currentQuestion world_prefetched) "interview" 0 eq_refl)
    as (w' & Hrestore & _ & Hq & _).
  { split; [discriminate|reflexivity]. }
  exists w'. split; [exact Hrestore|exact Hq].
Defined.

Lemma validated_plan_initializes_witness :
  ∃ w' s,
    initializeSession sample_stringify [topic_sql; topic_rust] "sk-sample" 5 false
      world_plain = (w', Ok s)
    ∧ session w' = Some s.
Proof.
  destruct (validated_plan_initializes sample_stringify sample_validatePlan
              (Some sample_plan) "sk-sample" 5 false world_plain eq_refl)
    as (tps & Htps & _ & Hok & _).
  injection Htps as <-.
  destruct Hok as (w' & s & Hinit & Hs & _).
  { repeat constructor; try discriminate; try (compute; discriminate);
      rewrite !elem_of_cons; auto. }
  exists w', s. split; [exact Hinit|exact Hs].
Defined.

Lemma prefetch_store_drops_cached_question_witness :
  ∃ wf w',
    returned (prefetch_resume sample_stringify sample_validate 1 topic_rust
                (Fulfilled (Some (ask "Explain ownership."))) world_plain) = Some wf
    ∧ currentQuestion wf = Some (mkCurrentQuestion "What is a join?" 0)
    ∧ restoreSessionFromCache (sample_parse (parsed_of prefetch_document))
        (reloaded (localStorage wf) 0) = (w', true)
    ∧ currentQuestion w' = None.
Proof.
  destruct (prefetch_store_drops_cached_question sample_stringify
              (sample_parse (parsed_of prefetch_document)) sample_validate
              sample_validateSummary 1 topic_rust (ask "Explain ownership.")
              world_plain (sample_session 1 ∅) 0 eq_refl)
    as (wf & w' & Hret & Hq & Hrestore & _ & Hq' & _).
  { simpl. lia. }
  { reflexivity. }
  { split; [discriminate|reflexivity]. }
  exists wf, w'. split; [exact Hret|]. split; [exact Hq|].
  split; [exact Hrestore|exact Hq'].
Defined.

Lemma shouldContinue_after_answer_witness :
  shouldContinueCurrentTopic
    (addQaToCurrentTopic sample_stringify "What is a join?" "A join combines rows."
       world_plain) = false.
Proof.
  destruct (shouldContinue_after_answer sample_stringify "What is a join?"
              "A join combines rows." world_plain (sample_session 1 ∅)
              initialTopicState eq_refl eq_refl) as (_ & _ & Hcontinue).
  exact Hcontinue.
Defined.

Lemma moveToNextTopic_iterated_witness :
  currentTopicIndex
    <$> session (Nat.iter 5 (λ w, (moveToNextTopic sample_stringify w).1) world_plain)
  = Some 1.
Proof.
  destruct (moveToNextTopic_iterated sample_stringify 5 world_plain
              (sample_session 1 ∅) eq_refl) as [_ Hmoved].
  { simpl. lia. }
  rewrite Hmoved. reflexivity.
Defined.

Lemma completed_or_incomplete_witness :
  length (getCompletedTopics world_plain) + length (getIncompleteTopics world_plain) = 2.
Proof.
  destruct (completed_or_incomplete world_plain (sample_session 1 ∅) eq_refl
              (sample_session_ok 1 ∅)) as [Hcount _].
  exact Hcount.
Defined.

Lemma startInterview_clears_cache_first_witness :
  ∃ call k,
    startInterview sample_stringify sample_validate sample_validatePlan sample_inputs
      world_prefetched
    = AwaitPlanner call (setProcessing true (clearSessionCache world_prefetched)) k
    ∧ planner_jobDescription call
      = "Senior backend engineer: SQL, Rust, distributed systems and on-call duty.".
Proof.
  destruct (startInterview_clears_cache_first sample_stringify
              (sample_parse (parsed_of saved_document)) sample_validate
              sample_validatePlan sample_inputs world_prefetched eq_refl)
    as (_ & _ & _ & [(e & _ & [H|[H|H]])|(_ & _ & _ & Hstart)]);
    try discriminate H.
  eexists _, _. split; [exact Hstart|reflexivity].
Defined.

Lemma startInterview_happy_path_witness :
  ∃ call w1 k w2 k2 wf,
    startInterview sample_stringify sample_validate sample_validatePlan sample_inputs
      world_plain
    = AwaitPlanner call w1 k
    ∧ k (Fulfilled (Some sample_plan)) w1
      = Await (callTopicAgent "sk-sample" "SQL" "solid" 5 [] None) w2 k2
    ∧ returned (k2 (Fulfilled (Some (ask "What is a join?"))) w2) = Some wf
    ∧ currentQuestion wf = Some (mkCurrentQuestion "What is a join?" 0)
    ∧ isProcessing wf = false
    ∧ issued (k2 (Fulfilled (Some (ask "What is a join?"))) w2)
      = [callTopicAgent "sk-sample" "Rust" "deep" 5 [] None].
Proof.
  eexists _, _, _.
  assert (Hstart : startInterview sample_stringify sample_validate sample_validatePlan
                     sample_inputs world_plain
                   = AwaitPlanner
                       {| planner_apiKey := "sk-sample";
                          planner_jobDescription := trim (input_jobDescription sample_inputs);
                          planner_candidateCV := trim (input_candidateCV sample_inputs) |}
                       (setProcessing true (clearSessionCache world_plain))
                       (λ r w', start_guarded
                                  (startInterview_afterPlanner sample_stringify
                                     sample_validate sample_validatePlan sample_inputs r w')))
    by reflexivity.
  destruct (startInterview_happy_path sample_stringify sample_validate
              sample_validatePlan sample_inputs world_plain _ _ _ sample_plan
              [topic_sql; topic_rust]
              (setProcessing true (clearSessionCache world_plain))
              Hstart eq_refl eq_refl)
    as (s & firstTopic & w2 & k2 & Hhead & _ & _ & _ & _ & _ & _ & _ & _ & Hawait & Hnext).
  { repeat constructor; try discriminate; try (compute; discriminate);
      rewrite !elem_of_cons; auto. }
  injection Hhead as <-.
  destruct (Hnext (ask "What is a join?") (mkQuestion "What is a join?") eq_refl eq_refl)
    as (wf & Hret & _ & Hq & Hidle & _ & Hissued).
  exists w2, k2, wf. split; [exact Hstart|]. split; [exact Hawait|].
  split; [exact Hret|]. split; [exact Hq|]. split; [exact Hidle|exact Hissued].
Defined.

Lemma fetchWithRetry_backoff_witness :
  sleeps (fetchWithRetry sample_fetch DEFAULT_RETRY_CONFIG).1 = [1000; 2000]%Z
  ∧ ∃ n, requests (fetchWithRetry sample_fetch DEFAULT_RETRY_CONFIG).1 = seq 0 (S n).
Proof.
  destruct (fetchWithRetry_backoff sample_fetch DEFAULT_RETRY_CONFIG)
    as (n & Hreq & _).
  { simpl. lia. }
  { simpl. lia. }
  split; [reflexivity|]. exists n. exact Hreq.
Defined.


Lemma prefetch_slot_witness :
  getPrefetchedQuestion 1
    (setPrefetchedQuestion sample_stringify 1 ownership_entry world_plain).2
  = Some ownership_entry
  ∧ (setPrefetchedQuestion sample_stringify 2 ownership_entry world_plain).2
    = world_plain.
Proof.
  destruct (prefetch_slot sample_stringify sample_validate 1 ownership_entry
              ownership_entry world_plain (sample_session 1 ∅) eq_refl)
    as [Hin _].
  destruct Hin as (Hget & _); [simpl; lia|].
  destruct (prefetch_slot sample_stringify sample_validate 2 ownership_entry
              ownership_entry world_plain (sample_session 1 ∅) eq_refl)
    as [_ Hout].
  destruct Hout as [Hset _]; [simpl; lia|].
  split; [exact Hget|]. by rewrite Hset.
Defined.

Lemma settling_without_a_session_witness :
  returned (prefetch_resume sample_stringify sample_validate 1 topic_rust
              (Fulfilled (Some (ask "Explain ownership."))) (newInterview world_plain))
  = Some (newInterview world_plain).
Proof.
  destruct (settling_without_a_session sample_stringify sample_validate
              sample_validateSummary (newInterview world_plain) eq_refl)
    as (Hprefetch & _).
  exact (proj1 (Hprefetch 1 topic_rust (Fulfilled (Some (ask "Explain ownership."))))).
Defined.

Lemma final_summary_is_optional_witness :
  endInterview_summary sample_validateSummary plain_ref world_plain
  = Return (clearSessionCache (clearBackgroundVerdictPromises world_plain)).
Proof.
  destruct (final_summary_is_optional sample_validateSummary plain_ref world_plain
              (sample_session 1 ∅) eq_refl) as (_ & _ & Hnone & _).
  exact (Hnone eq_refl).
Defined.

Lemma endInterview_closing_request_witness :
  issued (endInterview sample_validateSummary (world_with_history five_answers))
  = [callTopicAgent "sk-sample" "SQL" "solid" 5 five_answers (Some "a5")].
Proof.
  destruct (endInterview_closing_request sample_validateSummary
              (world_with_history five_answers) _ eq_refl eq_refl) as [_ Hfirst].
  exact (Hfirst [] (mkIncomplete topic_sql 0) [mkIncomplete topic_rust 1]
           (mkTopicState PROBING five_answers None) eq_refl
           (λ y Hy, False_ind _ (proj1 (elem_of_nil y) Hy)) eq_refl
           (λ H, eq_ind [] (λ l, match l with [] => True | _ => False end) I _
                   (eq_sym H))).
Defined.

Lemma startInterview_failures_witness :
  ∃ call w1 k e,
    startInterview sample_stringify sample_validate sample_validatePlan sample_inputs
      world_plain
    = AwaitPlanner call w1 k
    ∧ k (Rejected "HTTP 503") w1
      = Emit (ConsoleError ("Error starting interview: " +:+ e))
          (Emit (Notification ("Error: " +:+ e) "error")
             (Return (setProcessing false w1))).
Proof.
  eexists _, _, _.
  assert (Hstart : startInterview sample_stringify sample_validate sample_validatePlan
                     sample_inputs world_plain
                   = AwaitPlanner
                       {| planner_apiKey := "sk-sample";
                          planner_jobDescription := trim (input_jobDescription sample_inputs);
                          planner_candidateCV := trim (input_candidateCV sample_inputs) |}
                       (setProcessing true (clearSessionCache world_plain))
                       (λ r w', start_guarded
                                  (startInterview_afterPlanner sample_stringify
                                     sample_validate sample_validatePlan sample_inputs r w')))
    by reflexivity.
  destruct (startInterview_failures sample_stringify sample_validate
              sample_validatePlan sample_inputs world_plain _ _ _ Hstart)
    as [Hplanner _].
  destruct (Hplanner (Rejected "HTTP 503")
              (setProcessing true (clearSessionCache world_plain)) I) as [e He].
  exists e. split; [exact Hstart|exact He].
Defined.
